(** * KaihengQian/CV: softmax classifier losses and the three-layer
      convolutional network

    A shallow embedding of

    - [Assignment1/classifiers/softmax.py]: [softmax_loss_naive] and
      [softmax_loss_vectorized];
    - [Assignment2/daseCV/classifiers/cnn.py]: [ThreeLayerConvNet.__init__]
      and [ThreeLayerConvNet.loss].

    Conventions of the embedding.

    - A numpy float array is its shape together with its item function;
      only the items inside the shape are meaningful, and two arrays are
      compared with [array1_eq] / [array2_eq] (same shape, same items
      inside it).
    - The finite values of float64 are real numbers and [+], [-], [*], [/]
      and the dot products on them are exact: rounding, and the overflow of
      a sum or a product, are not modelled.  The range of float64 is
      modelled where the two functions meet it: [np.exp] overflows to [inf]
      from 1024 ln 2 on and underflows to 0 at -1075 ln 2 and below,
      [np.log] of 0 is [-inf], and a quotient by 0 is [nan] or [inf].
    - A float scalar (the loss) is an [xfloat]: a real number, [inf],
      [-inf] or [nan].  The items of an array are real numbers: a call in
      which an array comes to hold [inf] or [nan] has the outcome
      [NonFinite] (it goes on and returns arrays of [nan]).
    - A call either returns a value, raises a Python exception, or is
      [NonFinite] ([outcome]).
    - Python integers are unbounded ([Z]); sizes and the indices that
      [range] delivers are [nat]; class labels are integers, and a negative
      index counts from the end as in Python.  [H * W / 4] on Python
      integers is the float64 quotient, which rounds from 2^53 on and
      raises OverflowError when it is too large for a float.
    - A numpy array of any rank ([tensor]) is its dtype, its shape and its
      items in row-major order; [+] on two of them broadcasts as numpy does.
    - Memory and the sizes of arrays are unbounded: no allocation fails. *)

From Stdlib Require Import Reals Lra Lia ZArith List FunctionalExtensionality.
From stdpp Require Import base option list gmap strings.

(** ** Outcomes of a Python call *)

Inductive exn : Type :=
| ValueError          (* shape mismatch, reduction of an empty axis *)
| IndexError          (* index out of range, index arrays not broadcastable *)
| ZeroDivisionError   (* Python float divided by zero *)
| OverflowError       (* Python integer quotient too large for a float *)
| KeyError            (* dictionary key not present *)
| AssertionError.     (* raised by the checked exponential [checked_exp] only *)

Inductive outcome (A : Type) : Type :=
| Ok (a : A)          (* the call returns [a] *)
| Raise (e : exn)     (* the exception [e] propagates to the caller *)
| NonFinite.          (* numpy went on with [nan] or [inf] in an array *)
Arguments Ok {A} a.
Arguments Raise {A} e.
Arguments NonFinite {A}.

#[global] Instance outcome_ret : MRet outcome := @Ok.
#[global] Instance outcome_bind : MBind outcome := λ A B k m,
  match m with
  | Ok a => k a
  | Raise e => Raise e
  | NonFinite => NonFinite
  end.

(** [for i in idx: s = body(i, s)], stopping at the first exception. *)
Fixpoint for_loop {S : Type} (idx : list nat) (s : S)
    (body : nat → S → outcome S) : outcome S :=
  match idx with
  | [] => Ok s
  | i :: rest => s' ← body i s; for_loop rest s' body
  end.

(** [for i in range(n)] *)
Definition for_range {S : Type} (n : nat) (s : S)
    (body : nat → S → outcome S) : outcome S :=
  for_loop (seq 0 n) s body.
Arguments for_range : simpl never.

(** ** Float scalars *)

Open Scope R_scope.

(** A float64 scalar: a real number, [inf], [-inf] or [nan]. *)
Inductive xfloat : Type :=
| Finite (r : R)
| PosInf
| NegInf
| NaN.

(** [-a], [a + b], [a - b] and [a / n] for an integer [n >= 0], as IEEE 754
    has them on the special values and on a zero divisor. *)
Definition x_opp (a : xfloat) : xfloat :=
  match a with
  | Finite r => Finite (- r)
  | PosInf => NegInf
  | NegInf => PosInf
  | NaN => NaN
  end.

Definition x_add (a b : xfloat) : xfloat :=
  match a, b with
  | Finite r, Finite s => Finite (r + s)
  | NaN, _ | _, NaN => NaN
  | PosInf, NegInf | NegInf, PosInf => NaN
  | PosInf, _ | _, PosInf => PosInf
  | NegInf, _ | _, NegInf => NegInf
  end.

Definition x_sub (a b : xfloat) : xfloat := x_add a (x_opp b).

Definition x_div_nat (a : xfloat) (n : nat) : xfloat :=
  match a, n with
  | Finite r, O =>
      if Req_dec_T r 0 then NaN else if Rlt_dec r 0 then NegInf else PosInf
  | Finite r, S _ => Finite (r / INR n)
  | PosInf, _ => PosInf
  | NegInf, _ => NegInf
  | NaN, _ => NaN
  end.

(** [np.log(p)]: [-inf] at 0 and [nan] below. *)
Definition x_log (p : R) : xfloat :=
  if Req_dec_T p 0 then NegInf
  else if Rlt_dec p 0 then NaN
  else Finite (ln p).

(** [a <= b] on floats; nothing compares with [nan]. *)
Definition x_le (a b : xfloat) : Prop :=
  match a, b with
  | Finite r, Finite s => r <= s
  | NaN, _ | _, NaN => False
  | NegInf, _ | _, PosInf => True
  | _, _ => False
  end.

(** The range of [np.exp] on float64: the result is [inf] from
    [exp_overflow] on and 0 at [exp_underflow] and below (2^1024 is beyond
    the largest float64, 2^-1075 is half the smallest positive one). *)
Definition exp_overflow : R := 1024 * ln 2.
Definition exp_underflow : R := - 1075 * ln 2.

(** [np.exp(x)] where it is finite. *)
Definition exp64 (x : R) : R :=
  if Rle_dec x exp_underflow then 0 else exp x.

Definition overflows (x : R) : bool :=
  if Rle_dec exp_overflow x then true else false.

(** [P 0 || ... || P (n-1)] *)
Fixpoint exists_below (P : nat → bool) (n : nat) : bool :=
  match n with
  | O => false
  | S n' => exists_below P n' || P n'
  end.

(** ** numpy arrays of floats, one and two dimensional *)

Record ndarray1 : Type := Arr1 { len : nat; item1 : nat → R }.
Record ndarray2 : Type :=
  Arr2 { shape0 : nat; shape1 : nat; item2 : nat → nat → R }.

(** The array that [np.log] returns: its items can be [-inf]. *)
Record xarray1 : Type := XArr1 { xlen : nat; xitem : nat → xfloat }.

Definition array1_eq (a b : ndarray1) : Prop :=
  len a = len b ∧ ∀ i, (i < len a)%nat → item1 a i = item1 b i.

Definition array2_eq (a b : ndarray2) : Prop :=
  shape0 a = shape0 b ∧ shape1 a = shape1 b ∧
  ∀ i j, (i < shape0 a)%nat → (j < shape1 a)%nat → item2 a i j = item2 b i j.

(** Sum and maximum of [f 0, ..., f (n-1)], accumulated from the left as a
    loop does.  [max_upto f n] is the maximum of [f 0, ..., f n]. *)
Fixpoint sum_n (f : nat → R) (n : nat) : R :=
  match n with
  | O => 0
  | S n' => sum_n f n' + f n'
  end.

Fixpoint x_sum_n (f : nat → xfloat) (n : nat) : xfloat :=
  match n with
  | O => Finite 0
  | S n' => x_add (x_sum_n f n') (f n')
  end.

Fixpoint max_upto (f : nat → R) (n : nat) : R :=
  match n with
  | O => f O
  | S n' => Rmax (max_upto f n') (f (S n'))
  end.

(** The position that the Python index [k] has in a sequence of length [n]:
    [k] itself from 0 to n-1, [n + k] from -n to -1, none otherwise. *)
Definition py_index (n : nat) (k : Z) : option nat :=
  if ((0 <=? k) && (k <? Z.of_nat n))%Z then Some (Z.to_nat k)
  else if ((- Z.of_nat n <=? k) && (k <? 0))%Z then Some (Z.to_nat (Z.of_nat n + k))
  else None.

(** [a[k]] on a one-dimensional array, for an integer [k] *)
Definition getitem1 (a : ndarray1) (k : Z) : outcome R :=
  match py_index (len a) k with
  | Some i => Ok (item1 a i)
  | None => Raise IndexError
  end.

(** [A[i]] on a two-dimensional array, for [i] from [range]: the row [i] *)
Definition getitem2 (A : ndarray2) (i : nat) : outcome ndarray1 :=
  if (i <? shape0 A)%nat
  then Ok {| len := shape1 A; item1 := item2 A i |}
  else Raise IndexError.

(** [y[i]] on the label vector, for [i] from [range] *)
Definition getlabel (y : list Z) (i : nat) : outcome Z :=
  match y !! i with
  | Some c => Ok c
  | None => Raise IndexError
  end.

(** [np.zeros_like(A)] *)
Definition np_zeros_like (A : ndarray2) : ndarray2 :=
  {| shape0 := shape0 A; shape1 := shape1 A; item2 := λ _ _, 0 |}.

(** [x.dot(W)] for [x] of shape (D,) and [W] of shape (D, C) *)
Definition dot1 (x : ndarray1) (W : ndarray2) : outcome ndarray1 :=
  if (len x =? shape0 W)%nat
  then Ok {| len := shape1 W;
             item1 := λ j, sum_n (λ k, item1 x k * item2 W k j) (shape0 W) |}
  else Raise ValueError.

(** [A.dot(B)] for [A] of shape (N, D) and [B] of shape (D, C) *)
Definition dot2 (A B : ndarray2) : outcome ndarray2 :=
  if (shape1 A =? shape0 B)%nat
  then Ok {| shape0 := shape0 A; shape1 := shape1 B;
             item2 := λ i j, sum_n (λ k, item2 A i k * item2 B k j) (shape0 B) |}
  else Raise ValueError.

(** [A.T] *)
Definition transpose (A : ndarray2) : ndarray2 :=
  {| shape0 := shape1 A; shape1 := shape0 A; item2 := λ i j, item2 A j i |}.

(** [np.max(a)]: numpy raises ValueError on an empty array. *)
Definition np_max (a : ndarray1) : outcome R :=
  match len a with
  | O => Raise ValueError
  | S n => Ok (max_upto (item1 a) n)
  end.

(** [np.max(A, axis=1)]: the reduction raises as soon as the reduced axis is
    empty, whatever the number of rows. *)
Definition np_max_axis1 (A : ndarray2) : outcome ndarray1 :=
  match shape1 A with
  | O => Raise ValueError
  | S n => Ok {| len := shape0 A; item1 := λ i, max_upto (item2 A i) n |}
  end.

(** [np.sum(a)], [np.sum(A, axis=1)] and [np.sum(A)] *)
Definition np_sum (a : ndarray1) : R := sum_n (item1 a) (len a).

Definition np_sum_axis1 (A : ndarray2) : ndarray1 :=
  {| len := shape0 A; item1 := λ i, sum_n (item2 A i) (shape1 A) |}.

Definition np_sum2 (A : ndarray2) : R :=
  sum_n (λ i, sum_n (item2 A i) (shape1 A)) (shape0 A).

(** [np.sum] of an array of [np.log] *)
Definition x_sum (a : xarray1) : xfloat := x_sum_n (xitem a) (xlen a).

(** Elementwise functions *)
Definition map1 (f : R → R) (a : ndarray1) : ndarray1 :=
  {| len := len a; item1 := λ i, f (item1 a i) |}.

Definition map2 (f : R → R) (A : ndarray2) : ndarray2 :=
  {| shape0 := shape0 A; shape1 := shape1 A; item2 := λ i j, f (item2 A i j) |}.

(** [np.exp(a)]: an item from [exp_overflow] on gives [inf]. *)
Definition np_exp (a : ndarray1) : outcome ndarray1 :=
  if exists_below (λ i, overflows (item1 a i)) (len a)
  then NonFinite
  else Ok (map1 exp64 a).

Definition np_exp2 (A : ndarray2) : outcome ndarray2 :=
  if exists_below (λ i, exists_below (λ j, overflows (item2 A i j)) (shape1 A))
       (shape0 A)
  then NonFinite
  else Ok (map2 exp64 A).

(** [np.log(a)] *)
Definition np_log (a : ndarray1) : xarray1 :=
  {| xlen := len a; xitem := λ i, x_log (item1 a i) |}.

(** Array and scalar: [a - c], [c * a], [c * A] *)
Definition sub_scalar (a : ndarray1) (c : R) : ndarray1 := map1 (λ x, x - c) a.
Definition scale1 (c : R) (a : ndarray1) : ndarray1 := map1 (Rmult c) a.
Definition scale2 (c : R) (A : ndarray2) : ndarray2 := map2 (Rmult c) A.

Definition is_zero_real (c : R) : bool :=
  if Req_dec_T c 0 then true else false.

(** [a / c] for an array [a] and a float [c]: a quotient by 0 is [nan] or
    [inf]. *)
Definition div_scalar (a : ndarray1) (c : R) : outcome ndarray1 :=
  if is_zero_real c then NonFinite else Ok (map1 (λ x, x / c) a).

(** [A - m.reshape(-1, 1)] and [A / m.reshape(-1, 1)] for [A] of shape (N, C)
    and [m] of shape (N,): the column [m] is broadcast along each row. *)
Definition sub_column (A : ndarray2) (m : ndarray1) : ndarray2 :=
  {| shape0 := shape0 A; shape1 := shape1 A;
     item2 := λ i j, item2 A i j - item1 m i |}.

Definition div_column (A : ndarray2) (m : ndarray1) : outcome ndarray2 :=
  if exists_below (λ i, is_zero_real (item1 m i)) (shape0 A)
  then NonFinite
  else Ok {| shape0 := shape0 A; shape1 := shape1 A;
             item2 := λ i j, item2 A i j / item1 m i |}.

(** [A * B] and [A + B] on arrays of one shape.  Every use below is on two
    arrays whose shapes agree whenever the line is reached, so numpy's
    broadcasting of unequal shapes is left out. *)
Definition mul2 (A B : ndarray2) : ndarray2 :=
  {| shape0 := shape0 A; shape1 := shape1 A;
     item2 := λ i j, item2 A i j * item2 B i j |}.

Definition add2 (A B : ndarray2) : ndarray2 :=
  {| shape0 := shape0 A; shape1 := shape1 A;
     item2 := λ i j, item2 A i j + item2 B i j |}.

(** [A[:, j] += v], with [v] as long as [A] has rows (see [mul2]). *)
Definition column_iadd (A : ndarray2) (j : nat) (v : ndarray1) : ndarray2 :=
  {| shape0 := shape0 A; shape1 := shape1 A;
     item2 := λ k j', if (j' =? j)%nat then item2 A k j' + item1 v k
                      else item2 A k j' |}.

(** Python [x / n] at line 52.  For [n = 0] the loop has not run, [x] is
    still the Python float 0.0 and the division raises; otherwise [x] is a
    numpy float. *)
Definition py_truediv (x : xfloat) (n : nat) : outcome xfloat :=
  if (n =? 0)%nat then Raise ZeroDivisionError else Ok (x_div_nat x n).

(** numpy [x / n] with [x] a numpy scalar or array: for [n = 0] numpy warns
    and goes on with nan or inf. *)
Definition np_truediv (x : xfloat) (n : nat) : xfloat := x_div_nat x n.

Definition np_truediv2 (A : ndarray2) (n : nat) : outcome ndarray2 :=
  if (n =? 0)%nat then NonFinite else Ok (map2 (λ x, x / INR n) A).

(** ** Integer-array ("fancy") indexing [A[rows, cols]]

    The two index arrays are broadcast against each other (equal lengths, or
    one of them of length one); every resulting position is bounds-checked,
    a negative column index counting from the end.  The row indices come
    from [range] and are not negative. *)
Definition broadcast_index (rows : list nat) (cols : list Z)
    : outcome (list (nat * Z)) :=
  if (length rows =? length cols)%nat then Ok (zip rows cols)
  else if (length rows =? 1)%nat then Ok (map (λ c, (hd O rows, c)) cols)
  else if (length cols =? 1)%nat then Ok (map (λ r, (r, hd 0%Z cols)) rows)
  else Raise IndexError.

(** The position in [A] that a pair of indices addresses, if any. *)
Definition resolve (A : ndarray2) (p : nat * Z) : option (nat * nat) :=
  if (p.1 <? shape0 A)%nat
  then match py_index (shape1 A) p.2 with
       | Some j => Some (p.1, j)
       | None => None
       end
  else None.

(** All positions that the pairs address, or none if one is out of bounds. *)
Fixpoint resolve_all (A : ndarray2) (pairs : list (nat * Z))
    : option (list (nat * nat)) :=
  match pairs with
  | [] => Some []
  | p :: rest =>
      match resolve A p, resolve_all A rest with
      | Some q, Some qs => Some (q :: qs)
      | _, _ => None
      end
  end.

Definition same_position (p q : nat * nat) : bool :=
  (p.1 =? q.1)%nat && (p.2 =? q.2)%nat.

(** [A[rows, cols]] *)
Definition fancy_getitem (A : ndarray2) (rows : list nat) (cols : list Z)
    : outcome ndarray1 :=
  pairs ← broadcast_index rows cols;
  match resolve_all A pairs with
  | Some positions =>
      Ok {| len := length positions;
            item1 := λ t, let p := nth t positions (O, O) in item2 A p.1 p.2 |}
  | None => Raise IndexError
  end.

(** [A[rows, cols] -= c]: numpy reads [A[rows, cols]], subtracts and writes
    back, so a position listed twice is still decremented once. *)
Definition fancy_isub (A : ndarray2) (rows : list nat) (cols : list Z) (c : R)
    : outcome ndarray2 :=
  pairs ← broadcast_index rows cols;
  match resolve_all A pairs with
  | Some positions =>
      Ok {| shape0 := shape0 A; shape1 := shape1 A;
            item2 := λ i j, if existsb (same_position (i, j)) positions
                            then item2 A i j - c else item2 A i j |}
  | None => Raise IndexError
  end.

(** ** Assignment1/classifiers/softmax.py *)

(** Lines 41-42, the probabilities of one row of scores:
    [scores -= np.max(scores)] and then
    [softmax = np.exp(scores) / np.sum(np.exp(scores))]. *)
Definition stable_softmax (scores : ndarray1) : outcome ndarray1 :=
  m ← np_max scores;
  let scores := sub_scalar scores m in
  e ← np_exp scores;
  e' ← np_exp scores;
  div_scalar e (np_sum e').

(** Lines 86-87, the same for all rows at once:
    [scores -= np.max(scores, axis = 1).reshape(-1, 1)] and then
    [softmax = np.exp(scores) / np.sum(np.exp(scores), axis = 1).reshape(-1,1)]. *)
Definition stable_softmax_rows (scores : ndarray2) : outcome ndarray2 :=
  m ← np_max_axis1 scores;
  let scores := sub_column scores m in
  e ← np_exp2 scores;
  e' ← np_exp2 scores;
  div_column e (np_sum_axis1 e').

(** [softmax_loss_naive(W, X, y, reg)], lines 6-62. *)
Definition softmax_loss_naive (W X : ndarray2) (y : list Z) (reg : R)
    : outcome (xfloat * ndarray2) :=
  let loss := Finite 0 in
  let dW := np_zeros_like W in
  let num_classes := shape1 W in
  let num_train := shape0 X in
  '(loss, dW) ← for_range num_train (loss, dW) (λ i '(loss, dW),
      Xi ← getitem2 X i;
      scores ← dot1 Xi W;
      softmax ← stable_softmax scores;
      yi ← getlabel y i;
      p ← getitem1 softmax yi;
      let loss := x_sub loss (x_log p) in
      dW ← for_range num_classes dW (λ j dW,
          yi ← getlabel y i;
          sj ← getitem1 softmax (Z.of_nat j);
          Xi ← getitem2 X i;
          if (Z.of_nat j =? yi)%Z
          then Ok (column_iadd dW j (scale1 (sj - 1) Xi))
          else Ok (column_iadd dW j (scale1 sj Xi)));
      Ok (loss, dW));
  loss ← py_truediv loss num_train;
  let loss := x_add loss (Finite (0.5 * reg * np_sum2 (mul2 W W))) in
  dW ← np_truediv2 dW num_train;
  let dW := add2 dW (scale2 reg W) in
  Ok (loss, dW).

(** [softmax_loss_vectorized(W, X, y, reg)], lines 65-100.  For an empty
    batch line 90 divides a numpy scalar by zero and the function goes on
    with nan; line 95 then fills the gradient with nan, the outcome
    [NonFinite]. *)
Definition softmax_loss_vectorized (W X : ndarray2) (y : list Z) (reg : R)
    : outcome (xfloat * ndarray2) :=
  let loss := Finite 0 in
  let dW := np_zeros_like W in
  let num_classes := shape1 W in
  let num_train := shape0 X in
  scores ← dot2 X W;
  softmax ← stable_softmax_rows scores;
  picked ← fancy_getitem softmax (seq 0 num_train) y;
  let loss := x_sub loss (x_sum (np_log picked)) in
  let loss := np_truediv loss num_train in
  let loss := x_add loss (Finite (0.5 * reg * np_sum2 (mul2 W W))) in
  softmax ← fancy_isub softmax (seq 0 num_train) y 1;
  dW ← dot2 (transpose X) softmax;
  dW ← np_truediv2 dW num_train;
  let dW := add2 dW (scale2 reg W) in
  Ok (loss, dW).

(** *** The two functions without the max-subtraction step

    Line 41 (respectively line 86) deleted and nothing else changed: the
    functions against which the numerical-stability step is compared. *)
Definition plain_softmax (scores : ndarray1) : outcome ndarray1 :=
  e ← np_exp scores;
  e' ← np_exp scores;
  div_scalar e (np_sum e').

Definition plain_softmax_rows (scores : ndarray2) : outcome ndarray2 :=
  e ← np_exp2 scores;
  e' ← np_exp2 scores;
  div_column e (np_sum_axis1 e').

Definition softmax_loss_naive_unshifted (W X : ndarray2) (y : list Z) (reg : R)
    : outcome (xfloat * ndarray2) :=
  let loss := Finite 0 in
  let dW := np_zeros_like W in
  let num_classes := shape1 W in
  let num_train := shape0 X in
  '(loss, dW) ← for_range num_train (loss, dW) (λ i '(loss, dW),
      Xi ← getitem2 X i;
      scores ← dot1 Xi W;
      softmax ← plain_softmax scores;
      yi ← getlabel y i;
      p ← getitem1 softmax yi;
      let loss := x_sub loss (x_log p) in
      dW ← for_range num_classes dW (λ j dW,
          yi ← getlabel y i;
          sj ← getitem1 softmax (Z.of_nat j);
          Xi ← getitem2 X i;
          if (Z.of_nat j =? yi)%Z
          then Ok (column_iadd dW j (scale1 (sj - 1) Xi))
          else Ok (column_iadd dW j (scale1 sj Xi)));
      Ok (loss, dW));
  loss ← py_truediv loss num_train;
  let loss := x_add loss (Finite (0.5 * reg * np_sum2 (mul2 W W))) in
  dW ← np_truediv2 dW num_train;
  let dW := add2 dW (scale2 reg W) in
  Ok (loss, dW).

Definition softmax_loss_vectorized_unshifted (W X : ndarray2) (y : list Z)
    (reg : R) : outcome (xfloat * ndarray2) :=
  let loss := Finite 0 in
  let dW := np_zeros_like W in
  let num_classes := shape1 W in
  let num_train := shape0 X in
  scores ← dot2 X W;
  softmax ← plain_softmax_rows scores;
  picked ← fancy_getitem softmax (seq 0 num_train) y;
  let loss := x_sub loss (x_sum (np_log picked)) in
  let loss := np_truediv loss num_train in
  let loss := x_add loss (Finite (0.5 * reg * np_sum2 (mul2 W W))) in
  softmax ← fancy_isub softmax (seq 0 num_train) y 1;
  dW ← dot2 (transpose X) softmax;
  dW ← np_truediv2 dW num_train;
  let dW := add2 dW (scale2 reg W) in
  Ok (loss, dW).

(** *** The probability step with [np.exp] as a parameter

    Lines 41-42 and 86-87 with the exponential that they call made a
    parameter: [stable_softmax] is [stable_softmax_with np_exp] and
    [stable_softmax_rows] is [stable_softmax_rows_with np_exp2] by unfolding
    ([stable_softmax_exp], [stable_softmax_rows_exp] below), so that what
    holds for every exponential says which arguments the code passes to
    it. *)
Definition stable_softmax_with (exp_of : ndarray1 → outcome ndarray1)
    (scores : ndarray1) : outcome ndarray1 :=
  m ← np_max scores;
  let scores := sub_scalar scores m in
  e ← exp_of scores;
  e' ← exp_of scores;
  div_scalar e (np_sum e').

Definition stable_softmax_rows_with (exp_of : ndarray2 → outcome ndarray2)
    (scores : ndarray2) : outcome ndarray2 :=
  m ← np_max_axis1 scores;
  let scores := sub_column scores m in
  e ← exp_of scores;
  e' ← exp_of scores;
  div_column e (np_sum_axis1 e').

(** An exponential that checks its argument: it raises AssertionError on an
    array with a positive item and is [np.exp] on every other array.  The
    two functions run with it in the place of [np.exp] show which arguments
    they pass to the exponential. *)
Definition is_positive (x : R) : bool := if Rlt_dec 0 x then true else false.

Definition checked_exp (a : ndarray1) : outcome ndarray1 :=
  if exists_below (λ i, is_positive (item1 a i)) (len a)
  then Raise AssertionError
  else np_exp a.

Definition checked_exp2 (A : ndarray2) : outcome ndarray2 :=
  if exists_below (λ i, exists_below (λ j, is_positive (item2 A i j)) (shape1 A))
       (shape0 A)
  then Raise AssertionError
  else np_exp2 A.

(** *** The vocabulary of the specification *)

(** The inputs the docstring describes: [W] of shape (D, C), [X] of shape
    (N, D), [y] of length N with every label in [0, C). *)
Definition valid_input (W X : ndarray2) (y : list Z) : Prop :=
  shape1 X = shape0 W ∧ length y = shape0 X ∧
  Forall (λ c, (0 <= c < Z.of_nat (shape1 W))%Z) y.

(** The score of class [j] for sample [i]: item (i, j) of [X.dot(W)]. *)
Definition score (W X : ndarray2) (i j : nat) : R :=
  sum_n (λ k, item2 X i k * item2 W k j) (shape0 W).

(** The softmax probability of class [j] among the [C] scores [s], as the
    glossary defines it: exponentiation and normalisation. *)
Definition softmax_prob (s : nat → R) (C : nat) (j : nat) : R :=
  exp (s j) / sum_n (λ c, exp (s c)) C.

(** The true-class indicator. *)
Definition indicator (j c : nat) : R := if (j =? c)%nat then 1 else 0.

(** The label of sample [i], a class in [0, C) on a valid input. *)
Definition label (y : list Z) (i : nat) : nat := Z.to_nat (nth i y 0%Z).

(** The loss as section 4.1 words it: the mean over the samples of the
    negative log-probability of the true class, plus 0.5 reg sum(W^2). *)
Definition cross_entropy_loss (W X : ndarray2) (y : list Z) (reg : R) : R :=
  sum_n (λ i, - ln (softmax_prob (score W X i) (shape1 W) (label y i)))
        (shape0 X) / INR (shape0 X)
  + 0.5 * reg * np_sum2 (mul2 W W).

(** The gradient as section 4.1 words it: the input vectors scaled by
    (probability - 1) for the true class and by the probability for the
    others, summed over the samples, divided by N, plus reg W. *)
Definition cross_entropy_grad (W X : ndarray2) (y : list Z) (reg : R)
    (k j : nat) : R :=
  sum_n (λ i, (softmax_prob (score W X i) (shape1 W) j - indicator j (label y i))
              * item2 X i k) (shape0 X) / INR (shape0 X)
  + reg * item2 W k j.

(** The smallest positive normal float64, 2^-1022, and the bound 2^1024 of
    the finite ones. *)
Definition min_normal : R := Rpower 2 (-1022).
Definition float_bound : R := Rpower 2 1024.

(** Every softmax probability of the batch is a normal float64: none is so
    small that float64 would flush it, or the exponential it is made from,
    towards zero. *)
Definition normal_probabilities (W X : ndarray2) : Prop :=
  ∀ i j, (i < shape0 X)%nat → (j < shape1 W)%nat →
    min_normal <= softmax_prob (score W X i) (shape1 W) j.

(** The exponentials of the scores themselves, taken without subtracting the
    row maximum first, and their row sums are normal float64 numbers. *)
Definition plain_in_range (W X : ndarray2) : Prop :=
  ∀ i, (i < shape0 X)%nat →
    sum_n (λ c, exp (score W X i c)) (shape1 W) < float_bound ∧
    ∀ j, (j < shape1 W)%nat → min_normal <= exp (score W X i j).

(** No exponential of the batch underflows: every score is less than
    1075 ln 2 below the largest score of its row. *)
Definition no_underflow (W X : ndarray2) : Prop :=
  ∀ i j, (i < shape0 X)%nat → (j < shape1 W)%nat →
    exp_underflow < score W X i j - max_upto (score W X i) (shape1 W - 1).

(** Two calls agree: both return, with the same loss and with gradients of
    one shape that are equal item by item. *)
Definition agree (a b : outcome (xfloat * ndarray2)) : Prop :=
  ∃ loss1 dW1 loss2 dW2,
    a = Ok (loss1, dW1) ∧ b = Ok (loss2, dW2) ∧
    loss1 = loss2 ∧ array2_eq dW1 dW2.

(** [W] is a zero matrix. *)
Definition is_zero (W : ndarray2) : Prop :=
  ∀ k j, (k < shape0 W)%nat → (j < shape1 W)%nat → item2 W k j = 0.

(** Row [k] of [dW] sums to zero across the class columns. *)
Definition row_sums_to_zero (dW : ndarray2) (k : nat) : Prop :=
  sum_n (item2 dW k) (shape1 dW) = 0.

(** [a + c] on a row of scores, and [A + c.reshape(-1, 1)] with one constant
    per row: what the shift-invariance property adds to the scores. *)
Definition add_scalar (a : ndarray1) (c : R) : ndarray1 := map1 (λ x, x + c) a.

Definition add_column (A : ndarray2) (c : nat → R) : ndarray2 :=
  {| shape0 := shape0 A; shape1 := shape1 A;
     item2 := λ i j, item2 A i j + c i |}.

(** Two computations of a row (of a matrix) of probabilities have the same
    outcome: the same exception, or arrays of one shape with equal items. *)
Definition same_outcome1 (a b : outcome ndarray1) : Prop :=
  match a, b with
  | Ok p, Ok q => array1_eq p q
  | Raise e, Raise e' => e = e'
  | NonFinite, NonFinite => True
  | _, _ => False
  end.

Definition same_outcome2 (a b : outcome ndarray2) : Prop :=
  match a, b with
  | Ok p, Ok q => array2_eq p q
  | Raise e, Raise e' => e = e'
  | NonFinite, NonFinite => True
  | _, _ => False
  end.

(** [W] with its item (k, j) replaced by [t]: the loss as a function of one
    weight is [λ t, cross_entropy_loss (set_item W k j t) X y reg]. *)
Definition set_item (W : ndarray2) (k j : nat) (t : R) : ndarray2 :=
  {| shape0 := shape0 W; shape1 := shape1 W;
     item2 := λ k' j', if ((k' =? k) && (j' =? j))%nat then t else item2 W k' j' |}.

(** *** What the two functions compute

    The probability that lines 41-42 and 86-87 give class [j] among the [C]
    scores [s]: the exponentials are those of float64, taken after the
    maximum has been subtracted. *)
Definition computed_prob (s : nat → R) (C : nat) (j : nat) : R :=
  exp64 (s j - max_upto s (C - 1))
  / sum_n (λ c, exp64 (s c - max_upto s (C - 1))) C.

(** The class that the label [c] addresses in a row of [C] probabilities
    (a negative label counts from the end), 0 when it addresses none. *)
Definition class_of (C : nat) (c : Z) : nat := default O (py_index C c).

(** Whether a pair of indices addresses an item of [A], and the position it
    addresses then. *)
Definition in_bounds (A : ndarray2) (p : nat * Z) : bool :=
  match resolve A p with
  | Some _ => true
  | None => false
  end.

Definition position_of (A : ndarray2) (p : nat * Z) : nat * nat :=
  default (O, O) (resolve A p).

(** The negative logarithms of [p 0, ..., p (n-1)] subtracted from 0 one
    after the other, as line 43 does. *)
Fixpoint neg_log_sum (p : nat → R) (n : nat) : xfloat :=
  match n with
  | O => Finite 0
  | S n' => x_sub (neg_log_sum p n') (x_log (p n'))
  end.

(** The loss that both functions compute. *)
Definition computed_loss (W X : ndarray2) (y : list Z) (reg : R) : xfloat :=
  x_add
    (x_div_nat
       (neg_log_sum (λ i, computed_prob (score W X i) (shape1 W)
                            (class_of (shape1 W) (nth i y 0%Z)))
          (shape0 X))
       (shape0 X))
    (Finite (0.5 * reg * np_sum2 (mul2 W W))).

(** The gradient that the naive function computes: line 45 compares the
    class [j] with the label itself, which a negative label never equals. *)
Definition naive_grad (W X : ndarray2) (y : list Z) (reg : R) (k j : nat) : R :=
  sum_n (λ i, (computed_prob (score W X i) (shape1 W) j
               - (if (Z.of_nat j =? nth i y 0%Z)%Z then 1 else 0))
              * item2 X i k) (shape0 X) / INR (shape0 X)
  + reg * item2 W k j.

(** The gradient that the vectorized function computes: line 93 decrements
    the class that the label addresses. *)
Definition vectorized_grad (W X : ndarray2) (y : list Z) (reg : R)
    (k j : nat) : R :=
  sum_n (λ i, (computed_prob (score W X i) (shape1 W) j
               - indicator j (class_of (shape1 W) (nth i y 0%Z)))
              * item2 X i k) (shape0 X) / INR (shape0 X)
  + reg * item2 W k j.

(** *** Outcomes of two calls compared *)

(** The result of a call with regularisation strength [reg] against the
    result [a] of the same call with strength 0: the same failure, or the
    loss plus 0.5 reg sum(W^2) and the gradient plus reg W. *)
Definition regularised (W : ndarray2) (reg : R)
    (a b : outcome (xfloat * ndarray2)) : Prop :=
  match a, b with
  | Ok (loss0, dW0), Ok (loss, dW) =>
      loss = x_add loss0 (Finite (0.5 * reg * np_sum2 (mul2 W W))) ∧
      shape0 dW = shape0 dW0 ∧ shape1 dW = shape1 dW0 ∧
      ∀ k j, item2 dW k j = item2 dW0 k j + reg * item2 W k j
  | Raise e, Raise e' => e = e'
  | NonFinite, NonFinite => True
  | _, _ => False
  end.

(** Two calls have the same outcome: the same exception, or the same loss
    with gradients of one shape that are equal item by item. *)
Definition same_result (a b : outcome (xfloat * ndarray2)) : Prop :=
  match a, b with
  | Ok (loss1, dW1), Ok (loss2, dW2) => loss1 = loss2 ∧ array2_eq dW1 dW2
  | Raise e, Raise e' => e = e'
  | NonFinite, NonFinite => True
  | _, _ => False
  end.

(** The loss that a call returns when it is finite (0 otherwise): the
    quantity that a numerical gradient check differentiates. *)
Definition returned_loss (o : outcome (xfloat * ndarray2)) : R :=
  match o with
  | Ok (Finite loss, _) => loss
  | _ => 0
  end.

(** *** Concrete arrays for the examples *)

(** [np.array(rows)] for a list of rows of [ncols] items each. *)
Definition of_rows (ncols : nat) (rows : list (list R)) : ndarray2 :=
  {| shape0 := length rows; shape1 := ncols;
     item2 := λ i j, nth j (nth i rows []) 0 |}.

(** [np.array(items)] *)
Definition of_list (items : list R) : ndarray1 :=
  {| len := length items; item1 := λ i, nth i items 0 |}.

(** [np.zeros((D, C))] *)
Definition np_zeros (D C : nat) : ndarray2 :=
  {| shape0 := D; shape1 := C; item2 := λ _ _, 0 |}.

(** A batch of two samples with two features and two classes, a batch of
    one sample with one feature, an empty batch of shape (0, 1), and
    weights that send the second class 1000 below (above) the first. *)
Definition example_W : ndarray2 := of_rows 2 [[1; 2]; [3; 4]].
Definition example_X : ndarray2 := of_rows 2 [[1; 0]; [0; 1]].
Definition example_y : list Z := [0; 1]%Z.
Definition unit_X : ndarray2 := of_rows 1 [[1]].
Definition empty_X : ndarray2 := of_rows 1 [].
Definition low_W : ndarray2 := of_rows 2 [[0; -1000]].
Definition high_W : ndarray2 := of_rows 2 [[1000; 1000]].

(** *** The bodies of the two functions, with the row-probability step as a
    parameter

    [accumulate_sample] is the loop over the classes (lines 44-48),
    [naive_iteration] one pass of the loop over the samples (lines 40-48).
    [softmax_loss_naive] and [softmax_loss_naive_unshifted] differ in lines
    41-42 only, [softmax_loss_vectorized] and its unshifted companion in
    lines 86-87 only.  Each pair is, by unfolding, one body applied to two
    different steps ([naive_body_stable], [naive_body_plain],
    [vectorized_body_stable], [vectorized_body_plain] below), so that what
    is proved of the body holds of both. *)
Definition accumulate_sample (X : ndarray2) (y : list Z) (i : nat)
    (softmax : ndarray1) (num_classes : nat) (dW : ndarray2) : outcome ndarray2 :=
  for_range num_classes dW (λ j dW,
      yi ← getlabel y i;
      sj ← getitem1 softmax (Z.of_nat j);
      Xi ← getitem2 X i;
      if (Z.of_nat j =? yi)%Z
      then Ok (column_iadd dW j (scale1 (sj - 1) Xi))
      else Ok (column_iadd dW j (scale1 sj Xi))).
Arguments accumulate_sample : simpl never.

Definition naive_iteration (softmax_of : ndarray1 → outcome ndarray1)
    (W X : ndarray2) (y : list Z) (i : nat) (s : xfloat * ndarray2)
    : outcome (xfloat * ndarray2) :=
  let '(loss, dW) := s in
  Xi ← getitem2 X i;
  scores ← dot1 Xi W;
  softmax ← softmax_of scores;
  yi ← getlabel y i;
  p ← getitem1 softmax yi;
  dW ← accumulate_sample X y i softmax (shape1 W) dW;
  Ok (x_sub loss (x_log p), dW).

Definition naive_body (softmax_of : ndarray1 → outcome ndarray1)
    (W X : ndarray2) (y : list Z) (reg : R) : outcome (xfloat * ndarray2) :=
  '(loss, dW) ← for_range (shape0 X) (Finite 0, np_zeros_like W)
                  (naive_iteration softmax_of W X y);
  loss ← py_truediv loss (shape0 X);
  dW ← np_truediv2 dW (shape0 X);
  Ok (x_add loss (Finite (0.5 * reg * np_sum2 (mul2 W W))),
      add2 dW (scale2 reg W)).

Definition vectorized_body (softmax_rows_of : ndarray2 → outcome ndarray2)
    (W X : ndarray2) (y : list Z) (reg : R) : outcome (xfloat * ndarray2) :=
  scores ← dot2 X W;
  softmax ← softmax_rows_of scores;
  picked ← fancy_getitem softmax (seq 0 (shape0 X)) y;
  softmax ← fancy_isub softmax (seq 0 (shape0 X)) y 1;
  dW ← dot2 (transpose X) softmax;
  dW ← np_truediv2 dW (shape0 X);
  Ok (x_add (np_truediv (x_sub (Finite 0) (x_sum (np_log picked))) (shape0 X))
        (Finite (0.5 * reg * np_sum2 (mul2 W W))),
      add2 dW (scale2 reg W)).

(** ** Assignment2/daseCV/classifiers/cnn.py *)

Open Scope Z_scope.

(** *** Tensors

    A numpy array of any rank: its dtype, its shape and its items in row-major
    order.  As everywhere in this development the items are real numbers, so
    [astype] changes the dtype and leaves the (idealised) values alone. *)
Inductive np_dtype : Type := float16 | float32 | float64.

Record tensor : Type :=
  Tensor { dtype_of : np_dtype; shape_of : list Z; data_of : list R }.

(** [t.astype(d)] *)
Definition astype (d : np_dtype) (t : tensor) : tensor :=
  {| dtype_of := d; shape_of := shape_of t; data_of := data_of t |}.

(** [t.shape[i]] *)
Definition shape_index (t : tensor) (i : nat) : outcome Z :=
  match shape_of t !! i with
  | Some d => Ok d
  | None => Raise IndexError
  end.

(** [np.zeros(n)]: float64; a negative size raises ValueError. *)
Definition np_zeros1 (n : Z) : outcome tensor :=
  if 0 <=? n
  then Ok {| dtype_of := float64; shape_of := [n];
             data_of := repeat 0%R (Z.to_nat n) |}
  else Raise ValueError.

(** The state of numpy's global random generator: the stream of standard
    normal samples it will deliver and how many have been drawn. *)
Record rng_state : Type := Rng { samples : nat → R; position : nat }.

(** [np.random.randn(d0, d1, ...)]: a float64 array of fresh samples; a negative
    dimension raises ValueError. *)
Definition randn (dims : list Z) (g : rng_state) : outcome (tensor * rng_state) :=
  if forallb (Z.leb 0) dims
  then let n := Z.to_nat (fold_right Z.mul 1 dims) in
       Ok ({| dtype_of := float64; shape_of := dims;
              data_of := map (λ i, samples g (position g + i)%nat) (seq 0 n) |},
           {| samples := samples g; position := (position g + n)%nat |})
  else Raise ValueError.

(** [c * t] for a Python float [c], [np.sum(t ** 2)] *)
Definition scale (c : R) (t : tensor) : tensor :=
  {| dtype_of := dtype_of t; shape_of := shape_of t;
     data_of := map (Rmult c) (data_of t) |}.

Definition sum_squares (t : tensor) : R :=
  fold_left Rplus (map (λ x, (x * x)%R) (data_of t)) 0%R.

(** The dtype of the sum of two float arrays: the wider of the two. *)
Definition promote (a b : np_dtype) : np_dtype :=
  match a, b with
  | float64, _ | _, float64 => float64
  | float32, _ | _, float32 => float32
  | float16, float16 => float16
  end.

(** The number of items of an array of the given shape, and the shape as
    natural numbers. *)
Definition size_of (shape : list Z) : nat := Z.to_nat (fold_right Z.mul 1 shape).
Definition dims (shape : list Z) : list nat := map Z.to_nat shape.

(** numpy's broadcasting of two shapes, here on the shapes read from the
    last axis to the first: two axes go together when they have the same
    length or one of them has length 1, and the shorter shape is completed
    with axes of length 1. *)
Fixpoint broadcast_axes (s1 s2 : list Z) : option (list Z) :=
  match s1, s2 with
  | [], s | s, [] => Some s
  | d1 :: r1, d2 :: r2 =>
      match broadcast_axes r1 r2 with
      | Some r =>
          if decide (d1 = d2) then Some (d1 :: r)
          else if decide (d1 = 1) then Some (d2 :: r)
          else if decide (d2 = 1) then Some (d1 :: r)
          else None
      | None => None
      end
  end.

Definition broadcast_shape (s1 s2 : list Z) : option (list Z) :=
  match broadcast_axes (rev s1) (rev s2) with
  | Some r => Some (rev r)
  | None => None
  end.

(** Row-major positions, with the axes read from the last to the first.
    [unravel axes pos] is the index, axis by axis, of the item at the flat
    position [pos] of an array with these axes.  [ravel axes idx] is the flat
    position, in an array with the axes [axes], of the item that the index
    [idx] of the broadcast result reads: on an axis of length 1 it reads
    item 0, and the axes that the array does not have are ignored. *)
Fixpoint unravel (axes : list nat) (pos : nat) : list nat :=
  match axes with
  | [] => []
  | d :: rest => (pos mod d)%nat :: unravel rest (pos / d)%nat
  end.

Fixpoint ravel (axes idx : list nat) : nat :=
  match axes, idx with
  | d :: axes', i :: idx' =>
      ((if (d =? 1)%nat then O else i) + d * ravel axes' idx')%nat
  | _, _ => O
  end.

(** The item of [t] that position [pos] of a broadcast result with the axes
    [axes] reads. *)
Definition broadcast_item (t : tensor) (axes : list nat) (pos : nat) : R :=
  nth (ravel (rev (dims (shape_of t))) (unravel axes pos)) (data_of t) 0%R.

(** [a + b]: the two arrays are broadcast against each other; shapes that
    cannot be broadcast raise ValueError. *)
Definition tensor_add (a b : tensor) : outcome tensor :=
  match broadcast_shape (shape_of a) (shape_of b) with
  | Some shape =>
      let axes := rev (dims shape) in
      Ok {| dtype_of := promote (dtype_of a) (dtype_of b);
            shape_of := shape;
            data_of := map (λ pos, (broadcast_item a axes pos
                                    + broadcast_item b axes pos)%R)
                         (seq 0 (size_of shape)) |}
  | None => Raise ValueError
  end.

(** *** The layers

    [daseCV/layers.py], [daseCV/fast_layers.py] and [daseCV/layer_utils.py]
    are not among the sources: the functions that [loss] calls are taken as
    parameters, with their caches as abstract types. *)
Record conv_param : Type := ConvParam { stride : Z; pad : Z }.
Record pool_param : Type :=
  PoolParam { pool_height : Z; pool_width : Z; pool_stride : Z }.

Class Layers : Type := {
  conv_cache : Type;
  affine_cache : Type;
  relu_cache : Type;
  conv_relu_pool_forward :
    tensor → tensor → tensor → conv_param → pool_param →
    outcome (tensor * conv_cache);
  affine_forward : tensor → tensor → tensor → outcome (tensor * affine_cache);
  relu_forward : tensor → outcome (tensor * relu_cache);
  softmax_loss : tensor → list Z → outcome (R * tensor);
  affine_backward : tensor → affine_cache → outcome (tensor * tensor * tensor);
  relu_backward : tensor → relu_cache → outcome tensor;
  conv_relu_pool_backward :
    tensor → conv_cache → outcome (tensor * tensor * tensor);
}.

(** [d[k]] on a dictionary *)
Definition getkey (d : gmap string tensor) (k : string) : outcome tensor :=
  match d !! k with
  | Some v => Ok v
  | None => Raise KeyError
  end.

(** Line 83: [conv_param = {'stride': 1, 'pad': (filter_size - 1) // 2}] *)
Definition conv_param_of (filter_size : Z) : conv_param :=
  {| stride := 1; pad := (filter_size - 1) / 2 |}.

(** Line 86: [pool_param = {'pool_height': 2, 'pool_width': 2, 'stride': 2}] *)
Definition pool_param_2x2 : pool_param :=
  {| pool_height := 2; pool_width := 2; pool_stride := 2 |}.

(** The multiple of 2^k nearest to [n >= 0], the even one of two equally
    near. *)
Definition round_to_even (n k : Z) : Z :=
  let q := n / 2 ^ k in
  let r := n mod 2 ^ k in
  if 2 * r <? 2 ^ k then q * 2 ^ k
  else if 2 ^ k <? 2 * r then (q + 1) * 2 ^ k
  else if Z.even q then q * 2 ^ k else (q + 1) * 2 ^ k.

(** The float64 nearest to the integer [n], as an integer: [n] rounded to
    53 significant bits. *)
Definition float_of_int (n : Z) : Z :=
  Z.sgn n * round_to_even (Z.abs n) (Z.max 0 (Z.log2 (Z.abs n) + 1 - 53)).

(** [int(n / 4)] for a Python integer [n].  [n / 4] is the float64 nearest
    to the quotient, which is a quarter of the float64 nearest to [n];
    Python raises OverflowError when it is 2^1024 or more; [int] truncates
    towards zero. *)
Definition int_of_quarter (n : Z) : outcome Z :=
  let f := float_of_int n in
  if 2 ^ 1026 <=? Z.abs f then Raise OverflowError else Ok (Z.quot f 4).

(** Line 56: [int(H * W / 4) * num_filters]. *)
Definition hidden_input_width (H W num_filters : Z) : outcome Z :=
  q ← int_of_quarter (H * W);
  Ok (q * num_filters).

(** What [loss] returns: the scores, or the loss with the gradients. *)
Inductive loss_result : Type :=
| Scores (scores : tensor)
| LossAndGrads (loss : R) (grads : gmap string tensor).

Module ThreeLayerConvNet.

Record t : Type :=
  Net { params : gmap string tensor; reg : R; dtype : np_dtype }.

(** [__init__(self, input_dim=(C, H, W), num_filters, filter_size,
    hidden_dim, num_classes, weight_scale, reg, dtype)], lines 20-67, with
    the state of the random generator passed through. *)
Definition __init__ (input_dim : Z * Z * Z)
    (num_filters filter_size hidden_dim num_classes : Z)
    (weight_scale reg : R) (dtype : np_dtype) (g : rng_state)
    : outcome (t * rng_state) :=
  let params : gmap string tensor := ∅ in
  let '(C, H, W) := input_dim in
  '(r, g) ← randn [num_filters; C; filter_size; filter_size] g;
  let params := <["W1" := scale weight_scale r]> params in
  z ← np_zeros1 num_filters;
  let params := <["b1" := z]> params in
  rows ← hidden_input_width H W num_filters;
  '(r, g) ← randn [rows; hidden_dim] g;
  let params := <["W2" := scale weight_scale r]> params in
  z ← np_zeros1 hidden_dim;
  let params := <["b2" := z]> params in
  '(r, g) ← randn [hidden_dim; num_classes] g;
  let params := <["W3" := scale weight_scale r]> params in
  z ← np_zeros1 num_classes;
  let params := <["b3" := z]> params in
  let params :=
    map_fold (λ k v params, <[k := astype dtype v]> params) params params in
  Ok ({| params := params; reg := reg; dtype := dtype |}, g).

(** [loss(self, X, y=None)], lines 70-136. *)
Definition loss `{Layers} (self : t) (X : tensor) (y : option (list Z))
    : outcome loss_result :=
  W1 ← getkey (params self) "W1";
  b1 ← getkey (params self) "b1";
  W2 ← getkey (params self) "W2";
  b2 ← getkey (params self) "b2";
  W3 ← getkey (params self) "W3";
  b3 ← getkey (params self) "b3";
  filter_size ← shape_index W1 2;
  let conv_param := conv_param_of filter_size in
  let pool_param := pool_param_2x2 in
  '(out1, cache1) ← conv_relu_pool_forward X W1 b1 conv_param pool_param;
  '(out2, cache2) ← affine_forward out1 W2 b2;
  '(out2_relu, cache2_relu) ← relu_forward out2;
  '(scores, cache3) ← affine_forward out2_relu W3 b3;
  match y with
  | None => Ok (Scores scores)
  | Some y =>
      let grads : gmap string tensor := ∅ in
      '(loss, dout) ← softmax_loss scores y;
      let loss :=
        (loss + reg self * 0.5 *
                (sum_squares W1 + sum_squares W2 + sum_squares W3))%R in
      '(dout3, dW3, db3) ← affine_backward dout cache3;
      let grads := <["b3" := db3]> (<["W3" := dW3]> grads) in
      dout2_relu ← relu_backward dout3 cache2_relu;
      '(dout2, dW2, db2) ← affine_backward dout2_relu cache2;
      let grads := <["b2" := db2]> (<["W2" := dW2]> grads) in
      '(dout1, dW1, db1) ← conv_relu_pool_backward dout2 cache1;
      let grads := <["b1" := db1]> (<["W1" := dW1]> grads) in
      g ← getkey grads "W3";
      g ← tensor_add g (scale (reg self) W3);
      let grads := <["W3" := g]> grads in
      g ← getkey grads "W2";
      g ← tensor_add g (scale (reg self) W2);
      let grads := <["W2" := g]> grads in
      g ← getkey grads "W1";
      g ← tensor_add g (scale (reg self) W1);
      let grads := <["W1" := g]> grads in
      Ok (LossAndGrads loss grads)
  end.

End ThreeLayerConvNet.

(** The six parameter keys. *)
Definition parameter_keys : gset string :=
  {[ "W1"; "b1"; "W2"; "b2"; "W3"; "b3" ]}.

(** Modelled from the spec: the spatial output size of the convolution layer
    ([conv_forward] of daseCV/layers.py is not among the sources), by the
    conventional formula for a filter of size [filter] applied with zero
    padding [pad] on both sides and the given stride; it is the formula
    under which section 4.3's "padding chosen as (filterSize-1)/2 so spatial
    dimensions are preserved" holds. *)
Definition conv_out_size (n filter : Z) (p : conv_param) : Z :=
  1 + (n + 2 * pad p - filter) / stride p.

(** Modelled from the spec: the spatial output size of the max-pooling layer
    ([max_pool_forward] of daseCV/layers.py is not among the sources), by the
    conventional formula; for the 2x2 pool of stride 2 it is section 4.3's
    "pooling layer halving each spatial dimension". *)
Definition pool_out_size (n : Z) (p : Z) (s : Z) : Z := 1 + (n - p) / s.

(** Modelled from the spec: the flattened size of the output of the absent
    pooling layer for [num_filters] filters on an H x W input, "the pooling
    layer halving each spatial dimension": numFilters (H/2) (W/2). *)
Definition pooled_size (H W num_filters : Z) : Z :=
  num_filters * (H / 2) * (W / 2).

(** Modelled from the spec: the conventional shape contract of the layers
    that [loss] calls on its way to the scores (they are not among the
    sources).  The combined conv-relu-pool layer keeps the batch dimension,
    the affine layer maps [x] of shape (N, ...) and [w] of shape (D, M) to an
    output of shape (N, M), and the rectified-linear layer keeps the shape. *)
Record forward_contract `{Layers} : Prop := {
  conv_relu_pool_batch : ∀ x w b cp pp out cache,
    conv_relu_pool_forward x w b cp pp = Ok (out, cache) →
    shape_of out !! O = shape_of x !! O;
  affine_shape : ∀ x w b out cache N D M,
    affine_forward x w b = Ok (out, cache) →
    shape_of x !! O = Some N → shape_of w = [D; M] →
    shape_of out = [N; M];
  relu_shape : ∀ x out cache,
    relu_forward x = Ok (out, cache) → shape_of out = shape_of x;
}.

(** Layers for the examples.  They return zero-filled arrays of the shapes
    that the conventional layers return and check the shapes of their
    arguments as those do; their caches are the inputs. *)
Definition zeros_of (d : np_dtype) (shape : list Z) : tensor :=
  {| dtype_of := d; shape_of := shape;
     data_of := repeat 0%R (Z.to_nat (fold_right Z.mul 1 shape)) |}.

Definition example_affine_forward (x w b : tensor)
    : outcome (tensor * (tensor * tensor * tensor)) :=
  match shape_of x, shape_of w with
  | N :: rest, [D; M] =>
      if decide (fold_right Z.mul 1 rest = D ∧ shape_of b = [M])
      then Ok (zeros_of (dtype_of x) [N; M], (x, w, b))
      else Raise ValueError
  | _, _ => Raise ValueError
  end.

Definition example_conv_relu_pool_forward (x w b : tensor)
    (cp : conv_param) (pp : pool_param)
    : outcome (tensor * (tensor * tensor * tensor)) :=
  match shape_of x, shape_of w with
  | [N; C; H; W], [F; C'; HH; WW] =>
      if decide (C = C' ∧ shape_of b = [F])
      then Ok (zeros_of (dtype_of x)
                 [N; F;
                  pool_out_size (conv_out_size H HH cp) (pool_height pp) (pool_stride pp);
                  pool_out_size (conv_out_size W WW cp) (pool_width pp) (pool_stride pp)],
               (x, w, b))
      else Raise ValueError
  | _, _ => Raise ValueError
  end.

Definition example_layers : Layers := {|
  conv_cache := tensor * tensor * tensor;
  affine_cache := tensor * tensor * tensor;
  relu_cache := tensor;
  conv_relu_pool_forward := example_conv_relu_pool_forward;
  affine_forward := example_affine_forward;
  relu_forward := λ x, Ok (zeros_of (dtype_of x) (shape_of x), x);
  softmax_loss := λ scores y, Ok (0%R, zeros_of (dtype_of scores) (shape_of scores));
  affine_backward := λ dout '(x, w, b),
    Ok (zeros_of (dtype_of x) (shape_of x),
        zeros_of (dtype_of w) (shape_of w),
        zeros_of (dtype_of b) (shape_of b));
  relu_backward := λ dout x, Ok (zeros_of (dtype_of x) (shape_of x));
  conv_relu_pool_backward := λ dout '(x, w, b),
    Ok (zeros_of (dtype_of x) (shape_of x),
        zeros_of (dtype_of w) (shape_of w),
        zeros_of (dtype_of b) (shape_of b));
|}.

(** Layers for an example of a training call: the forward passes of
    [example_layers], a softmax layer that returns the loss 1 and backward
    passes that return gradients filled with ones. *)
Definition full_of (d : np_dtype) (shape : list Z) (x : R) : tensor :=
  {| dtype_of := d; shape_of := shape; data_of := repeat x (size_of shape) |}.

Definition training_layers : Layers := {|
  conv_cache := tensor * tensor * tensor;
  affine_cache := tensor * tensor * tensor;
  relu_cache := tensor;
  conv_relu_pool_forward := example_conv_relu_pool_forward;
  affine_forward := example_affine_forward;
  relu_forward := λ x, Ok (zeros_of (dtype_of x) (shape_of x), x);
  softmax_loss := λ scores y, Ok (1%R, full_of (dtype_of scores) (shape_of scores) 1);
  affine_backward := λ dout '(x, w, b),
    Ok (full_of (dtype_of x) (shape_of x) 1,
        full_of (dtype_of w) (shape_of w) 1,
        full_of (dtype_of b) (shape_of b) 1);
  relu_backward := λ dout x, Ok (full_of (dtype_of x) (shape_of x) 1);
  conv_relu_pool_backward := λ dout '(x, w, b),
    Ok (full_of (dtype_of x) (shape_of x) 1,
        full_of (dtype_of w) (shape_of w) 1,
        full_of (dtype_of b) (shape_of b) 1);
|}.

(** *** Runs of [loss]

    The values that the calls of the forward pass (lines 76-98) and of the
    backward pass (lines 118-125) return in one evaluation of [loss]. *)
Record forward_run `{Layers} : Type := {
  W1 : tensor; b1 : tensor; W2 : tensor; b2 : tensor; W3 : tensor; b3 : tensor;
  filter_size : Z;
  out1 : tensor; cache1 : conv_cache;
  out2 : tensor; cache2 : affine_cache;
  out2_relu : tensor; cache2_relu : relu_cache;
  scores : tensor; cache3 : affine_cache;
}.

Definition forward_returns `{Layers} (self : ThreeLayerConvNet.t) (X : tensor)
    (f : forward_run) : Prop :=
  ThreeLayerConvNet.params self !! "W1" = Some (W1 f) ∧
  ThreeLayerConvNet.params self !! "b1" = Some (b1 f) ∧
  ThreeLayerConvNet.params self !! "W2" = Some (W2 f) ∧
  ThreeLayerConvNet.params self !! "b2" = Some (b2 f) ∧
  ThreeLayerConvNet.params self !! "W3" = Some (W3 f) ∧
  ThreeLayerConvNet.params self !! "b3" = Some (b3 f) ∧
  shape_of (W1 f) !! 2%nat = Some (filter_size f) ∧
  conv_relu_pool_forward X (W1 f) (b1 f) (conv_param_of (filter_size f))
    pool_param_2x2 = Ok (out1 f, cache1 f) ∧
  affine_forward (out1 f) (W2 f) (b2 f) = Ok (out2 f, cache2 f) ∧
  relu_forward (out2 f) = Ok (out2_relu f, cache2_relu f) ∧
  affine_forward (out2_relu f) (W3 f) (b3 f) = Ok (scores f, cache3 f).

Record backward_run : Type := {
  data_loss : R; dout : tensor;
  dout3 : tensor; dW3 : tensor; db3 : tensor;
  dout2_relu : tensor;
  dout2 : tensor; dW2 : tensor; db2 : tensor;
  dout1 : tensor; dW1 : tensor; db1 : tensor;
}.

Definition backward_returns `{Layers} (f : forward_run) (y : list Z)
    (b : backward_run) : Prop :=
  softmax_loss (scores f) y = Ok (data_loss b, dout b) ∧
  affine_backward (dout b) (cache3 f) = Ok (dout3 b, dW3 b, db3 b) ∧
  relu_backward (dout3 b) (cache2_relu f) = Ok (dout2_relu b) ∧
  affine_backward (dout2_relu b) (cache2 f) = Ok (dout2 b, dW2 b, db2 b) ∧
  conv_relu_pool_backward (dout2 b) (cache1 f) = Ok (dout1 b, dW1 b, db1 b).

(** The gradient mapping that [loss] returns, from the gradients [g1], [g2],
    [g3] of the weights after regularisation and the run of the backward
    pass: the entries in the order in which lines 122-129 write them. *)
Definition gradient_mapping (b : backward_run) (g1 g2 g3 : tensor)
    : gmap string tensor :=
  <["W1" := g1]> (<["W2" := g2]> (<["W3" := g3]>
  (<["b1" := db1 b]> (<["W1" := dW1 b]>
  (<["b2" := db2 b]> (<["W2" := dW2 b]>
  (<["b3" := db3 b]> (<["W3" := dW3 b]> ∅)))))))).

(** The network of the gradient check of section 8 (two 3 x 3 filters on
    4 x 4 inputs with three channels, five hidden units, three classes) with
    zero parameters, a batch of two images, and the run of its forward and
    backward passes through [example_layers]. *)
Definition example_net : ThreeLayerConvNet.t :=
  {| ThreeLayerConvNet.params :=
       <["b3" := zeros_of float32 [3]]> (<["W3" := zeros_of float32 [5; 3]]>
       (<["b2" := zeros_of float32 [5]]> (<["W2" := zeros_of float32 [8; 5]]>
       (<["b1" := zeros_of float32 [2]]> (<["W1" := zeros_of float32 [2; 3; 3; 3]]>
        ∅)))));
     ThreeLayerConvNet.reg := 1;
     ThreeLayerConvNet.dtype := float32 |}.

(** [example_net] with a first weight of two dimensions only. *)
Definition flat_filter_net : ThreeLayerConvNet.t :=
  {| ThreeLayerConvNet.params :=
       <["W1" := zeros_of float32 [2; 3]]> (ThreeLayerConvNet.params example_net);
     ThreeLayerConvNet.reg := 1;
     ThreeLayerConvNet.dtype := float32 |}.

Definition example_batch : tensor := zeros_of float64 [2; 3; 4; 4].

Definition example_forward : @forward_run example_layers :=
  @Build_forward_run example_layers
    (zeros_of float32 [2; 3; 3; 3]) (zeros_of float32 [2])
    (zeros_of float32 [8; 5]) (zeros_of float32 [5])
    (zeros_of float32 [5; 3]) (zeros_of float32 [3])
    3
    (zeros_of float64 [2; 2; 2; 2])
    (example_batch, zeros_of float32 [2; 3; 3; 3], zeros_of float32 [2])
    (zeros_of float64 [2; 5])
    (zeros_of float64 [2; 2; 2; 2], zeros_of float32 [8; 5], zeros_of float32 [5])
    (zeros_of float64 [2; 5])
    (zeros_of float64 [2; 5])
    (zeros_of float64 [2; 3])
    (zeros_of float64 [2; 5], zeros_of float32 [5; 3], zeros_of float32 [3]).

Definition example_backward : backward_run :=
  {| data_loss := 0%R; dout := zeros_of float64 [2; 3];
     dout3 := zeros_of float64 [2; 5];
     dW3 := zeros_of float32 [5; 3]; db3 := zeros_of float32 [3];
     dout2_relu := zeros_of float64 [2; 5];
     dout2 := zeros_of float64 [2; 2; 2; 2];
     dW2 := zeros_of float32 [8; 5]; db2 := zeros_of float32 [5];
     dout1 := zeros_of float64 [2; 3; 4; 4];
     dW1 := zeros_of float32 [2; 3; 3; 3]; db1 := zeros_of float32 [2] |}.

(** A generator that delivers the samples 0, 1, 2, ... *)
Definition example_rng : rng_state := {| samples := INR; position := O |}.

(** A network with one 1 x 1 filter on one channel, two hidden units and two
    classes, whose weights are filled with 2, 3 and 1, with regularisation
    strength 2; a batch of one 2 x 2 image; and the run of its forward and
    backward passes through [training_layers]. *)
Definition small_net : ThreeLayerConvNet.t :=
  {| ThreeLayerConvNet.params :=
       <["b3" := zeros_of float32 [2]]> (<["W3" := full_of float32 [2; 2] 1]>
       (<["b2" := zeros_of float32 [2]]> (<["W2" := full_of float32 [1; 2] 3]>
       (<["b1" := zeros_of float32 [1]]> (<["W1" := full_of float32 [1; 1; 1; 1] 2]>
        ∅)))));
     ThreeLayerConvNet.reg := 2;
     ThreeLayerConvNet.dtype := float32 |}.

Definition small_batch : tensor := full_of float64 [1; 1; 2; 2] 1.

Definition small_forward : @forward_run training_layers :=
  @Build_forward_run training_layers
    (full_of float32 [1; 1; 1; 1] 2) (zeros_of float32 [1])
    (full_of float32 [1; 2] 3) (zeros_of float32 [2])
    (full_of float32 [2; 2] 1) (zeros_of float32 [2])
    1
    (zeros_of float64 [1; 1; 1; 1])
    (small_batch, full_of float32 [1; 1; 1; 1] 2, zeros_of float32 [1])
    (zeros_of float64 [1; 2])
    (zeros_of float64 [1; 1; 1; 1], full_of float32 [1; 2] 3, zeros_of float32 [2])
    (zeros_of float64 [1; 2])
    (zeros_of float64 [1; 2])
    (zeros_of float64 [1; 2])
    (zeros_of float64 [1; 2], full_of float32 [2; 2] 1, zeros_of float32 [2]).

Definition small_backward : backward_run :=
  {| data_loss := 1%R; dout := full_of float64 [1; 2] 1;
     dout3 := full_of float64 [1; 2] 1;
     dW3 := full_of float32 [2; 2] 1; db3 := full_of float32 [2] 1;
     dout2_relu := full_of float64 [1; 2] 1;
     dout2 := full_of float64 [1; 1; 1; 1] 1;
     dW2 := full_of float32 [1; 2] 1; db2 := full_of float32 [2] 1;
     dout1 := full_of float64 [1; 1; 2; 2] 1;
     dW1 := full_of float32 [1; 1; 1; 1] 1; db1 := full_of float32 [1] 1 |}.

(** The sum of the squares of the items of an array, as the L2 penalty of
    section 4.3 has it. *)
Definition sum_of_squares (t : tensor) : R :=
  sum_n (λ i, (nth i (data_of t) 0 ^ 2)%R) (length (data_of t)).

(** An array holds as many items as its shape says, no axis negative. *)
Definition well_formed (t : tensor) : Prop :=
  Forall (λ d, 0 <= d) (shape_of t) ∧
  length (data_of t) = size_of (shape_of t).

Close Scope Z_scope.


(** * Properties *)

(** ** Finite sums and maxima *)

Lemma sum_n_ext (f g : nat → R) (n : nat) :
  (∀ i, (i < n)%nat → f i = g i) → sum_n f n = sum_n g n.
Proof.
  induction n as [|n IH]; intros Hfg; simpl; [reflexivity|].
  rewrite IH, (Hfg n); auto with lia.
Qed.

Lemma sum_n_plus (f g : nat → R) (n : nat) :
  sum_n (λ i, f i + g i) n = sum_n f n + sum_n g n.
Proof. induction n as [|n IH]; simpl; [|rewrite IH]; ring. Qed.

Lemma sum_n_scal (c : R) (f : nat → R) (n : nat) :
  sum_n (λ i, c * f i) n = c * sum_n f n.
Proof. induction n as [|n IH]; simpl; [|rewrite IH]; ring. Qed.

Lemma sum_n_div (f : nat → R) (c : R) (n : nat) :
  sum_n (λ i, f i / c) n = sum_n f n / c.
Proof.
  unfold Rdiv. induction n as [|n IH]; simpl; [|rewrite IH]; ring.
Qed.

Lemma sum_n_zero (n : nat) : sum_n (λ _, 0) n = 0.
Proof. induction n as [|n IH]; simpl; [|rewrite IH]; ring. Qed.

Lemma sum_n_const (c : R) (n : nat) : sum_n (λ _, c) n = INR n * c.
Proof.
  induction n as [|n IH]; [simpl; ring|].
  rewrite S_INR. simpl. rewrite IH. ring.
Qed.

Lemma sum_n_pos (f : nat → R) (n : nat) :
  (0 < n)%nat → (∀ i, (i < n)%nat → 0 < f i) → 0 < sum_n f n.
Proof.
  induction n as [|n IH]; intros Hn Hf; [lia|]. simpl.
  destruct n as [|n].
  - simpl. specialize (Hf O ltac:(lia)). lra.
  - assert (0 < sum_n f (S n)) by (apply IH; auto with lia).
    assert (0 < f (S n)) by (apply Hf; lia). lra.
Qed.

Lemma sum_n_swap (f : nat → nat → R) (n m : nat) :
  sum_n (λ i, sum_n (λ j, f i j) m) n = sum_n (λ j, sum_n (λ i, f i j) n) m.
Proof.
  induction n as [|n IH]; simpl.
  - symmetry. apply sum_n_zero.
  - rewrite IH. symmetry. apply sum_n_plus.
Qed.

Lemma sum_n_indicator (c n : nat) :
  (c < n)%nat → sum_n (λ j, indicator j c) n = 1.
Proof.
  induction n as [|n IH]; intros Hc; [lia|]. simpl.
  destruct (Nat.eq_dec c n) as [->|Hne].
  - unfold indicator at 2. rewrite Nat.eqb_refl.
    rewrite (sum_n_ext _ (λ _, 0)), sum_n_zero; [ring|].
    intros j Hj. unfold indicator.
    destruct (Nat.eqb_spec j n); [lia|reflexivity].
  - rewrite IH by lia. unfold indicator.
    destruct (Nat.eqb_spec n c); [lia|ring].
Qed.

Lemma max_upto_ge (f : nat → R) (n j : nat) :
  (j <= n)%nat → f j <= max_upto f n.
Proof.
  induction n as [|n IH]; intros Hj; simpl.
  - replace j with O by lia. lra.
  - destruct (Nat.eq_dec j (S n)) as [->|Hne].
    + apply Rmax_r.
    + eapply Rle_trans; [apply IH; lia|apply Rmax_l].
Qed.

Lemma max_upto_shift (f : nat → R) (c : R) (n : nat) :
  max_upto (λ j, f j + c) n = max_upto f n + c.
Proof.
  induction n as [|n IH]; simpl; [reflexivity|].
  rewrite IH. unfold Rmax.
  destruct (Rle_dec (max_upto f n + c) (f (S n) + c)),
           (Rle_dec (max_upto f n) (f (S n))); lra.
Qed.

Lemma max_upto_ext (f g : nat → R) (n : nat) :
  (∀ j, (j <= n)%nat → f j = g j) → max_upto f n = max_upto g n.
Proof.
  induction n as [|n IH]; intros Hfg; simpl; [apply Hfg; lia|].
  rewrite IH, (Hfg (S n)); auto with lia.
Qed.

(** ** Loops *)

(** A loop over [range] that keeps an invariant runs to its end. *)
Lemma for_loop_invariant {S : Type} (P : nat → S → Prop)
    (body : nat → S → outcome S) (n start : nat) (s : S) :
  P start s →
  (∀ i s, (start <= i < start + n)%nat → P i s →
          ∃ s', body i s = Ok s' ∧ P (Datatypes.S i) s') →
  ∃ s', for_loop (seq start n) s body = Ok s' ∧ P (start + n)%nat s'.
Proof.
  revert start s. induction n as [|n IH]; intros start s Hs Hbody; simpl.
  - exists s. rewrite Nat.add_0_r. auto.
  - destruct (Hbody start s) as (s1 & Hrun & Hs1); [lia|assumption|].
    rewrite Hrun. cbn.
    destruct (IH (Datatypes.S start) s1) as (s2 & Hrun2 & Hs2); [assumption| |].
    + intros i s' Hi. apply Hbody. lia.
    + exists s2. split; [exact Hrun2|].
      replace (start + Datatypes.S n)%nat with (Datatypes.S start + n)%nat by lia.
      exact Hs2.
Qed.

Lemma for_range_invariant {S : Type} (P : nat → S → Prop)
    (body : nat → S → outcome S) (n : nat) (s : S) :
  P O s →
  (∀ i s, (i < n)%nat → P i s → ∃ s', body i s = Ok s' ∧ P (Datatypes.S i) s') →
  ∃ s', for_range n s body = Ok s' ∧ P n s'.
Proof.
  intros Hs Hbody.
  destruct (for_loop_invariant P body n O s Hs) as (s' & Hrun & Hs').
  - intros i s0 Hi. apply Hbody. lia.
  - exists s'. auto.
Qed.

Lemma bind_ok {A B : Type} (m : outcome A) (k : A → outcome B) (r : B) :
  m ≫= k = Ok r → ∃ a, m = Ok a ∧ k a = Ok r.
Proof. destruct m as [a| |]; cbn; [eauto|discriminate..]. Qed.

Lemma sum_n_opp (f : nat → R) (n : nat) :
  sum_n (λ i, - f i) n = - sum_n f n.
Proof. induction n as [|n IH]; simpl; [|rewrite IH]; ring. Qed.

Lemma sum_n_nonneg (f : nat → R) (n : nat) :
  (∀ i, (i < n)%nat → 0 <= f i) → 0 <= sum_n f n.
Proof.
  induction n as [|n IH]; intros Hf; simpl; [lra|].
  assert (0 <= sum_n f n) by (apply IH; auto with lia).
  assert (0 <= f n) by (apply Hf; lia). lra.
Qed.

Lemma sum_n_ge_term (f : nat → R) (n j : nat) :
  (∀ i, (i < n)%nat → 0 <= f i) → (j < n)%nat → f j <= sum_n f n.
Proof.
  induction n as [|n IH]; intros Hf Hj; [lia|]. simpl.
  assert (0 <= f n) by (apply Hf; lia).
  assert (0 <= sum_n f n) by (apply sum_n_nonneg; auto with lia).
  destruct (Nat.eq_dec j n) as [->|Hne]; [lra|].
  assert (f j <= sum_n f n) by (apply IH; auto with lia). lra.
Qed.

Lemma sum_n_single (f : nat → R) (j n : nat) :
  (j < n)%nat → sum_n (λ c, if (c =? j)%nat then f c else 0) n = f j.
Proof.
  induction n as [|n IH]; intros Hj; [lia|]. simpl.
  destruct (Nat.eq_dec j n) as [->|Hne].
  - rewrite Nat.eqb_refl.
    rewrite (sum_n_ext _ (λ _, 0)), sum_n_zero; [ring|].
    intros c Hc. destruct (Nat.eqb_spec c n); [lia|reflexivity].
  - rewrite IH by lia. destruct (Nat.eqb_spec n j); [lia|ring].
Qed.

Lemma for_loop_ext {S : Type} (b1 b2 : nat → S → outcome S) (idx : list nat) (s : S) :
  (∀ i s, b1 i s = b2 i s) → for_loop idx s b1 = for_loop idx s b2.
Proof.
  intros Hb. revert s. induction idx as [|i idx IH]; intros s; simpl.
  - reflexivity.
  - rewrite Hb. destruct (b2 i s); cbn; auto.
Qed.

(** A loop all of whose iterations return or raise [e], and one of whose
    iterations raises [e] whatever the state, raises [e]. *)
Lemma for_loop_raises_some {S : Type} (e : exn) (body : nat → S → outcome S)
    (idx : list nat) (k : nat) (s : S) :
  In k idx →
  (∀ i s, In i idx → (∃ s', body i s = Ok s') ∨ body i s = Raise e) →
  (∀ s, body k s = Raise e) →
  for_loop idx s body = Raise e.
Proof.
  intros Hk Hall Hraise. revert s.
  induction idx as [|a idx IH]; intros s; [destruct Hk|]. simpl.
  destruct (Hall a s) as [(s1 & Hs1)|Ha]; [left; reflexivity| |].
  - rewrite Hs1. cbn. destruct Hk as [->|Hk].
    + rewrite Hraise in Hs1. discriminate.
    + apply IH; [exact Hk|]. intros i s0 Hi. apply Hall. right. exact Hi.
  - rewrite Ha. reflexivity.
Qed.

(** Every iteration of a loop that returns has returned. *)
Lemma for_loop_returns_each {S : Type} (body : nat → S → outcome S)
    (idx : list nat) (s s' : S) :
  for_loop idx s body = Ok s' →
  ∀ i, In i idx → ∃ s1 s2, body i s1 = Ok s2.
Proof.
  revert s. induction idx as [|a idx IH]; intros s Hrun i Hi; [destruct Hi|].
  simpl in Hrun. apply bind_ok in Hrun as (s1 & Ha & Hrest).
  destruct Hi as [<-|Hi]; [eauto|]. exact (IH s1 Hrest i Hi).
Qed.

(** What every returning iteration preserves holds when the loop returns. *)
Lemma for_loop_preserves {S : Type} (P : S → Prop) (body : nat → S → outcome S)
    (idx : list nat) (s s' : S) :
  P s → (∀ i s s', body i s = Ok s' → P s → P s') →
  for_loop idx s body = Ok s' → P s'.
Proof.
  intros Hs Hbody. revert s Hs.
  induction idx as [|a idx IH]; intros s Hs Hrun; simpl in Hrun.
  - injection Hrun as <-. exact Hs.
  - apply bind_ok in Hrun as (s1 & Ha & Hrest).
    exact (IH s1 (Hbody a s s1 Ha Hs) Hrest).
Qed.

(** Two bodies that agree on the indices of the loop give the same loop. *)
Lemma for_loop_ext_in {S : Type} (b1 b2 : nat → S → outcome S)
    (idx : list nat) (s : S) :
  (∀ i s, In i idx → b1 i s = b2 i s) → for_loop idx s b1 = for_loop idx s b2.
Proof.
  revert s. induction idx as [|a idx IH]; intros s Hb; simpl; [reflexivity|].
  rewrite (Hb a s) by (left; reflexivity).
  destruct (b2 a s) as [s1| |]; cbn; try reflexivity.
  apply IH. intros i s0 Hi. apply Hb. right. exact Hi.
Qed.


(** ** Array primitives on inputs inside their domain *)

Lemma py_index_of_nat (n j : nat) :
  (j < n)%nat → py_index n (Z.of_nat j) = Some j.
Proof.
  intros Hj. unfold py_index.
  destruct (Z.leb_spec 0 (Z.of_nat j)); [|lia].
  destruct (Z.ltb_spec (Z.of_nat j) (Z.of_nat n)); [|lia].
  cbn. rewrite Nat2Z.id. reflexivity.
Qed.

Lemma py_index_nonneg (n : nat) (k : Z) :
  (0 <= k < Z.of_nat n)%Z → py_index n k = Some (Z.to_nat k).
Proof.
  intros Hk. unfold py_index.
  destruct (Z.leb_spec 0 k); [|lia].
  destruct (Z.ltb_spec k (Z.of_nat n)); [|lia]. reflexivity.
Qed.

Lemma py_index_negative (n : nat) (k : Z) :
  (- Z.of_nat n <= k < 0)%Z → py_index n k = Some (Z.to_nat (Z.of_nat n + k)).
Proof.
  intros Hk. unfold py_index.
  destruct (Z.leb_spec 0 k); [lia|]. cbn.
  destruct (Z.leb_spec (- Z.of_nat n) k); [|lia].
  destruct (Z.ltb_spec k 0); [|lia]. reflexivity.
Qed.

Lemma py_index_Some (n : nat) (k : Z) (i : nat) :
  py_index n k = Some i → (i < n)%nat ∧ (- Z.of_nat n <= k < Z.of_nat n)%Z.
Proof.
  unfold py_index.
  destruct (Z.leb_spec 0 k), (Z.ltb_spec k (Z.of_nat n)); cbn.
  1:{ intros [= <-]. lia. }
  all: destruct (Z.leb_spec (- Z.of_nat n) k), (Z.ltb_spec k 0); cbn;
    try discriminate; intros [= <-]; lia.
Qed.

Lemma py_index_None (n : nat) (k : Z) :
  py_index n k = None ↔ (k < - Z.of_nat n ∨ Z.of_nat n <= k)%Z.
Proof.
  unfold py_index.
  destruct (Z.leb_spec 0 k), (Z.ltb_spec k (Z.of_nat n)); cbn.
  1:{ split; [discriminate|lia]. }
  all: destruct (Z.leb_spec (- Z.of_nat n) k), (Z.ltb_spec k 0); cbn;
    split; try discriminate; try lia; reflexivity.
Qed.

Lemma py_index_in_range (n : nat) (k : Z) :
  (- Z.of_nat n <= k < Z.of_nat n)%Z →
  py_index n k = Some (class_of n k) ∧ (class_of n k < n)%nat.
Proof.
  intros Hk. unfold class_of.
  destruct (py_index n k) as [i|] eqn:Hi.
  - split; [reflexivity|]. exact (proj1 (py_index_Some n k i Hi)).
  - apply py_index_None in Hi. lia.
Qed.

Lemma class_of_nonneg (n : nat) (k : Z) :
  (0 <= k < Z.of_nat n)%Z → class_of n k = Z.to_nat k.
Proof. intros Hk. unfold class_of. rewrite py_index_nonneg by exact Hk. reflexivity. Qed.

Lemma getitem1_nat (a : ndarray1) (j : nat) :
  (j < len a)%nat → getitem1 a (Z.of_nat j) = Ok (item1 a j).
Proof. intros Hj. unfold getitem1. rewrite py_index_of_nat by exact Hj. reflexivity. Qed.

Lemma getitem1_class (a : ndarray1) (c : Z) :
  (- Z.of_nat (len a) <= c < Z.of_nat (len a))%Z →
  getitem1 a c = Ok (item1 a (class_of (len a) c)).
Proof.
  intros Hc. unfold getitem1.
  rewrite (proj1 (py_index_in_range (len a) c Hc)). reflexivity.
Qed.

Lemma getitem1_out (a : ndarray1) (c : Z) :
  (c < - Z.of_nat (len a) ∨ Z.of_nat (len a) <= c)%Z →
  getitem1 a c = Raise IndexError.
Proof.
  intros Hc. unfold getitem1.
  rewrite (proj2 (py_index_None (len a) c) Hc). reflexivity.
Qed.

Lemma getitem1_inv (a : ndarray1) (c : Z) (v : R) :
  getitem1 a c = Ok v → (- Z.of_nat (len a) <= c < Z.of_nat (len a))%Z.
Proof.
  unfold getitem1. destruct (py_index (len a) c) as [i|] eqn:Hi; [|discriminate].
  intros _. exact (proj2 (py_index_Some _ _ _ Hi)).
Qed.

Lemma getitem2_ok (A : ndarray2) (i : nat) :
  (i < shape0 A)%nat →
  getitem2 A i = Ok {| len := shape1 A; item1 := item2 A i |}.
Proof.
  intros Hi. unfold getitem2.
  destruct (Nat.ltb_spec i (shape0 A)); [reflexivity|lia].
Qed.

Lemma getitem2_inv (A : ndarray2) (i : nat) (r : ndarray1) :
  getitem2 A i = Ok r → (i < shape0 A)%nat ∧ len r = shape1 A.
Proof.
  unfold getitem2. destruct (Nat.ltb_spec i (shape0 A)); [|discriminate].
  intros [= <-]. split; [assumption|reflexivity].
Qed.

Lemma getlabel_some (y : list Z) (i : nat) (c : Z) :
  y !! i = Some c → getlabel y i = Ok c.
Proof. intros Hc. unfold getlabel. rewrite Hc. reflexivity. Qed.

Lemma getlabel_none (y : list Z) (i : nat) :
  y !! i = None → getlabel y i = Raise IndexError.
Proof. intros Hc. unfold getlabel. rewrite Hc. reflexivity. Qed.

Lemma getlabel_inv (y : list Z) (i : nat) (c : Z) :
  getlabel y i = Ok c → y !! i = Some c.
Proof. unfold getlabel. destruct (y !! i); [intros [= ->]; reflexivity|discriminate]. Qed.

Lemma getlabel_ok (y : list Z) (i : nat) :
  (i < length y)%nat → getlabel y i = Ok (nth i y 0%Z).
Proof.
  intros Hi. destruct (lookup_lt_is_Some_2 y i Hi) as [c Hc].
  rewrite (getlabel_some y i c Hc). f_equal. symmetry.
  exact (nth_lookup_Some y i 0%Z c Hc).
Qed.

(** On a valid input the label of a sample is a class, addressed as such. *)
Lemma label_in_range (y : list Z) (C i : nat) :
  Forall (λ c, (0 <= c < Z.of_nat C)%Z) y → (i < length y)%nat →
  (0 <= nth i y 0%Z < Z.of_nat C)%Z ∧ (label y i < C)%nat ∧
  class_of C (nth i y 0%Z) = label y i.
Proof.
  intros Hy Hi.
  destruct (lookup_lt_is_Some_2 y i Hi) as [c Hc].
  pose proof (proj1 (Forall_lookup _ y) Hy i c Hc) as Hrange. cbn in Hrange.
  unfold label. rewrite (nth_lookup_Some y i 0%Z c Hc).
  split; [exact Hrange|]. split; [lia|]. apply class_of_nonneg. exact Hrange.
Qed.

Lemma dot1_ok (x : ndarray1) (W : ndarray2) :
  len x = shape0 W →
  dot1 x W = Ok {| len := shape1 W;
                   item1 := λ j, sum_n (λ k, item1 x k * item2 W k j) (shape0 W) |}.
Proof. intros Hx. unfold dot1. rewrite Hx, Nat.eqb_refl. reflexivity. Qed.

Lemma dot1_inv (x : ndarray1) (W : ndarray2) (s : ndarray1) :
  dot1 x W = Ok s → len x = shape0 W ∧ len s = shape1 W.
Proof.
  unfold dot1. destruct (Nat.eqb_spec (len x) (shape0 W)); [|discriminate].
  intros [= <-]. split; [assumption|reflexivity].
Qed.

Lemma dot2_ok (A B : ndarray2) :
  shape1 A = shape0 B →
  dot2 A B = Ok {| shape0 := shape0 A; shape1 := shape1 B;
                   item2 := λ i j, sum_n (λ k, item2 A i k * item2 B k j) (shape0 B) |}.
Proof. intros HA. unfold dot2. rewrite HA, Nat.eqb_refl. reflexivity. Qed.

Lemma py_truediv_ok (x : xfloat) (n : nat) :
  (0 < n)%nat → py_truediv x n = Ok (x_div_nat x n).
Proof.
  intros Hn. unfold py_truediv. destruct (Nat.eqb_spec n 0); [lia|reflexivity].
Qed.

Lemma np_truediv2_ok (A : ndarray2) (n : nat) :
  (0 < n)%nat → np_truediv2 A n = Ok (map2 (λ x, x / INR n) A).
Proof.
  intros Hn. unfold np_truediv2. destruct (Nat.eqb_spec n 0); [lia|reflexivity].
Qed.

Lemma exists_below_false (P : nat → bool) (n : nat) :
  (∀ i, (i < n)%nat → P i = false) → exists_below P n = false.
Proof.
  induction n as [|n IH]; intros HP; cbn; [reflexivity|].
  rewrite IH by (intros; apply HP; lia). rewrite HP by lia. reflexivity.
Qed.

Lemma exists_below_true (P : nat → bool) (n i : nat) :
  (i < n)%nat → P i = true → exists_below P n = true.
Proof.
  induction n as [|n IH]; intros Hi HP; [lia|]. cbn.
  destruct (Nat.eq_dec i n) as [->|Hne].
  - rewrite HP. apply orb_true_r.
  - rewrite IH by (assumption || lia). reflexivity.
Qed.

Lemma exists_below_ext (P Q : nat → bool) (n : nat) :
  (∀ i, (i < n)%nat → P i = Q i) → exists_below P n = exists_below Q n.
Proof.
  induction n as [|n IH]; intros HP; cbn; [reflexivity|].
  rewrite IH by (intros; apply HP; lia). rewrite HP by lia. reflexivity.
Qed.

(** ** Floats: the range of the exponential, sums with infinities *)

Lemma ln2_pos : 0 < ln 2.
Proof. pose proof ln_lt_2. lra. Qed.

Lemma exp_underflow_neg : exp_underflow < 0.
Proof. unfold exp_underflow. pose proof ln2_pos. nra. Qed.

Lemma exp_overflow_pos : 0 < exp_overflow.
Proof. unfold exp_overflow. pose proof ln2_pos. nra. Qed.

Lemma exp64_above (x : R) : exp_underflow < x → exp64 x = exp x.
Proof. intros Hx. unfold exp64. destruct (Rle_dec x exp_underflow); [lra|reflexivity]. Qed.

Lemma exp64_below (x : R) : x <= exp_underflow → exp64 x = 0.
Proof. intros Hx. unfold exp64. destruct (Rle_dec x exp_underflow); [reflexivity|lra]. Qed.

Lemma exp64_zero : exp64 0 = 1.
Proof. rewrite exp64_above by exact exp_underflow_neg. exact exp_0. Qed.

Lemma exp64_nonneg (x : R) : 0 <= exp64 x.
Proof.
  unfold exp64. destruct (Rle_dec x exp_underflow); [lra|].
  left. apply exp_pos.
Qed.

Lemma exp_le_1 (x : R) : x <= 0 → exp x <= 1.
Proof.
  intros [Hx | ->]; [|rewrite exp_0; lra].
  left. rewrite <- exp_0. apply exp_increasing. exact Hx.
Qed.

Lemma exp64_le_1 (x : R) : x <= 0 → exp64 x <= 1.
Proof.
  intros Hx. unfold exp64. destruct (Rle_dec x exp_underflow); [lra|].
  apply exp_le_1. exact Hx.
Qed.

Lemma overflows_nonpos (x : R) : x <= 0 → overflows x = false.
Proof.
  intros Hx. unfold overflows. pose proof exp_overflow_pos.
  destruct (Rle_dec exp_overflow x); [lra|reflexivity].
Qed.

Lemma is_positive_nonpos (x : R) : x <= 0 → is_positive x = false.
Proof. intros Hx. unfold is_positive. destruct (Rlt_dec 0 x); [lra|reflexivity]. Qed.

Lemma x_add_zero_l (a : xfloat) : x_add (Finite 0) a = a.
Proof. destruct a; cbn; try reflexivity. f_equal. ring. Qed.

Lemma x_opp_add (a b : xfloat) : x_opp (x_add a b) = x_add (x_opp a) (x_opp b).
Proof. destruct a, b; cbn; try reflexivity. f_equal. ring. Qed.

Lemma x_add_assoc (a b c : xfloat) : x_add (x_add a b) c = x_add a (x_add b c).
Proof. destruct a, b, c; cbn; try reflexivity. f_equal. ring. Qed.

(** Line 89 subtracts the sum of the logarithms; line 43 subtracts them one
    after the other: the same float. *)
Lemma neg_log_sum_vectorized (p : nat → R) (n : nat) :
  x_sub (Finite 0) (x_sum_n (λ i, x_log (p i)) n) = neg_log_sum p n.
Proof.
  induction n as [|n IH]; cbn [x_sum_n neg_log_sum].
  - cbn. f_equal. ring.
  - rewrite <- IH. unfold x_sub. rewrite x_opp_add, x_add_assoc. reflexivity.
Qed.

Lemma neg_log_sum_ext (p q : nat → R) (n : nat) :
  (∀ i, (i < n)%nat → p i = q i) → neg_log_sum p n = neg_log_sum q n.
Proof.
  induction n as [|n IH]; intros Hpq; cbn; [reflexivity|].
  rewrite IH by (intros; apply Hpq; lia). rewrite Hpq by lia. reflexivity.
Qed.

Lemma x_log_pos (p : R) : 0 < p → x_log p = Finite (ln p).
Proof.
  intros Hp. unfold x_log.
  destruct (Req_dec_T p 0); [lra|]. destruct (Rlt_dec p 0); [lra|reflexivity].
Qed.

(** With positive probabilities the sum is the finite sum of the negative
    logarithms. *)
Lemma neg_log_sum_finite (p : nat → R) (n : nat) :
  (∀ i, (i < n)%nat → 0 < p i) →
  neg_log_sum p n = Finite (sum_n (λ i, - ln (p i)) n).
Proof.
  induction n as [|n IH]; intros Hp; cbn [neg_log_sum sum_n]; [reflexivity|].
  rewrite IH by (intros; apply Hp; lia). rewrite x_log_pos by (apply Hp; lia).
  cbn. f_equal.
Qed.

(** With probabilities that are not negative it is finite and not negative
    when they are at most 1, or [inf]. *)
Lemma neg_log_sum_nonneg (p : nat → R) (n : nat) :
  (∀ i, (i < n)%nat → 0 <= p i <= 1) →
  x_le (Finite 0) (neg_log_sum p n).
Proof.
  induction n as [|n IH]; intros Hp; cbn [neg_log_sum]; [cbn; lra|].
  specialize (IH ltac:(intros; apply Hp; lia)).
  destruct (Hp n ltac:(lia)) as [H0 H1]. unfold x_log.
  destruct (Req_dec_T (p n) 0) as [Hz|Hz].
  - destruct (neg_log_sum p n); cbn in *; tauto.
  - destruct (Rlt_dec (p n) 0); [lra|].
    assert (ln (p n) <= 0).
    { destruct H1 as [H1|H1].
      - left. rewrite <- ln_1. apply ln_increasing; lra.
      - rewrite H1, ln_1. lra. }
    destruct (neg_log_sum p n); cbn in *; try tauto. lra.
Qed.

Lemma max_upto_attained (f : nat → R) (n : nat) :
  ∃ j, (j <= n)%nat ∧ max_upto f n = f j.
Proof.
  induction n as [|n (j & Hj & IH)]; cbn.
  - exists O. split; [lia|reflexivity].
  - unfold Rmax. destruct (Rle_dec (max_upto f n) (f (S n))).
    + exists (S n). split; [lia|reflexivity].
    + exists j. split; [lia|exact IH].
Qed.


(** ** The probabilities of one row of scores *)

Lemma shifted_nonpos (s : nat → R) (n i : nat) :
  (i <= n)%nat → s i - max_upto s n <= 0.
Proof. intros Hi. pose proof (max_upto_ge s n i Hi). lra. Qed.

(** The sum of the exponentials holds the exponential of 0, which is 1. *)
Lemma sum_exp64_ge_1 (s : nat → R) (n : nat) :
  1 <= sum_n (λ c, exp64 (s c - max_upto s n)) (S n).
Proof.
  destruct (max_upto_attained s n) as (j & Hj & Hmax).
  apply Rle_trans with (exp64 (s j - max_upto s n)).
  - rewrite Hmax. replace (s j - s j) with 0 by ring. rewrite exp64_zero. lra.
  - apply (sum_n_ge_term (λ c, exp64 (s c - max_upto s n))); [|lia].
    intros; apply exp64_nonneg.
Qed.

Lemma sum_exp_ge_1 (s : nat → R) (n : nat) :
  1 <= sum_n (λ c, exp (s c - max_upto s n)) (S n).
Proof.
  destruct (max_upto_attained s n) as (j & Hj & Hmax).
  apply Rle_trans with (exp (s j - max_upto s n)).
  - rewrite Hmax. replace (s j - s j) with 0 by ring. rewrite exp_0. lra.
  - apply (sum_n_ge_term (λ c, exp (s c - max_upto s n))); [|lia].
    intros; left; apply exp_pos.
Qed.

Lemma sum_exp_pos (s : nat → R) (C : nat) :
  (0 < C)%nat → 0 < sum_n (λ c, exp (s c)) C.
Proof. intros HC. apply sum_n_pos; [exact HC|]. intros; apply exp_pos. Qed.

(** Softmax is shift invariant. *)
Lemma softmax_prob_shift (s : nat → R) (c : R) (C j : nat) :
  (0 < C)%nat → softmax_prob (λ j, s j + c) C j = softmax_prob s C j.
Proof.
  intros HC. unfold softmax_prob.
  rewrite (sum_n_ext _ (λ i, exp c * exp (s i))).
  2:{ intros i _. rewrite exp_plus. ring. }
  rewrite sum_n_scal, exp_plus.
  pose proof (sum_exp_pos s C HC). pose proof (exp_pos c).
  field. split; lra.
Qed.

(** An exponential that agrees with [np.exp] on the arrays without a
    positive item serves lines 41-42 as [np.exp] does. *)
Lemma np_exp_nonpos (a : ndarray1) :
  (∀ i, (i < len a)%nat → item1 a i <= 0) → np_exp a = Ok (map1 exp64 a).
Proof.
  intros Ha. unfold np_exp. rewrite exists_below_false; [reflexivity|].
  intros i Hi. apply overflows_nonpos, Ha, Hi.
Qed.

Lemma np_exp2_nonpos (A : ndarray2) :
  (∀ i j, (i < shape0 A)%nat → (j < shape1 A)%nat → item2 A i j <= 0) →
  np_exp2 A = Ok (map2 exp64 A).
Proof.
  intros HA. unfold np_exp2. rewrite exists_below_false; [reflexivity|].
  intros i Hi. apply exists_below_false.
  intros j Hj. apply overflows_nonpos, HA; assumption.
Qed.

Lemma checked_exp_nonpos (a : ndarray1) :
  (∀ i, (i < len a)%nat → item1 a i <= 0) → checked_exp a = np_exp a.
Proof.
  intros Ha. unfold checked_exp. rewrite exists_below_false; [reflexivity|].
  intros i Hi. apply is_positive_nonpos, Ha, Hi.
Qed.

Lemma checked_exp2_nonpos (A : ndarray2) :
  (∀ i j, (i < shape0 A)%nat → (j < shape1 A)%nat → item2 A i j <= 0) →
  checked_exp2 A = np_exp2 A.
Proof.
  intros HA. unfold checked_exp2. rewrite exists_below_false; [reflexivity|].
  intros i Hi. apply exists_below_false.
  intros j Hj. apply is_positive_nonpos, HA; assumption.
Qed.

Lemma stable_softmax_exp (scores : ndarray1) :
  stable_softmax scores = stable_softmax_with np_exp scores.
Proof. reflexivity. Qed.

Lemma stable_softmax_rows_exp (scores : ndarray2) :
  stable_softmax_rows scores = stable_softmax_rows_with np_exp2 scores.
Proof. reflexivity. Qed.

(** After the maximum has been subtracted no score is positive. *)
Lemma sub_scalar_max_nonpos (scores : ndarray1) (n : nat) :
  len scores = S n →
  ∀ i, (i < len (sub_scalar scores (max_upto (item1 scores) n)))%nat →
       item1 (sub_scalar scores (max_upto (item1 scores) n)) i <= 0.
Proof. intros Hlen i Hi. cbn in *. apply shifted_nonpos. lia. Qed.

Lemma sub_column_max_nonpos (scores : ndarray2) (n : nat) :
  shape1 scores = S n →
  let m := {| len := shape0 scores; item1 := λ i, max_upto (item2 scores i) n |} in
  ∀ i j, (i < shape0 (sub_column scores m))%nat →
         (j < shape1 (sub_column scores m))%nat →
         item2 (sub_column scores m) i j <= 0.
Proof. intros Hlen m i j Hi Hj. cbn in *. apply shifted_nonpos. lia. Qed.

(** Lines 41-42 run with an exponential that agrees with [np.exp] on the
    arrays without a positive item: the outcome is that of the lines as
    written. *)
Lemma stable_softmax_with_agree (exp_of : ndarray1 → outcome ndarray1)
    (scores : ndarray1) :
  (∀ a, (∀ i, (i < len a)%nat → item1 a i <= 0) → exp_of a = np_exp a) →
  stable_softmax_with exp_of scores = stable_softmax scores.
Proof.
  intros Hexp. rewrite stable_softmax_exp. unfold stable_softmax_with, np_max.
  destruct (len scores) as [|n] eqn:Hlen; [reflexivity|].
  cbn [mbind outcome_bind].
  rewrite Hexp by exact (sub_scalar_max_nonpos scores n Hlen). reflexivity.
Qed.

Lemma stable_softmax_rows_with_agree (exp_of : ndarray2 → outcome ndarray2)
    (scores : ndarray2) :
  (∀ A, (∀ i j, (i < shape0 A)%nat → (j < shape1 A)%nat → item2 A i j <= 0) →
        exp_of A = np_exp2 A) →
  stable_softmax_rows_with exp_of scores = stable_softmax_rows scores.
Proof.
  intros Hexp. rewrite stable_softmax_rows_exp.
  unfold stable_softmax_rows_with, np_max_axis1.
  destruct (shape1 scores) as [|n] eqn:Hlen; [reflexivity|].
  cbn [mbind outcome_bind].
  rewrite Hexp by exact (sub_column_max_nonpos scores n Hlen). reflexivity.
Qed.

(** Lines 41-42 on a row of at least one score: they return, and the
    probabilities they return. *)
Lemma stable_softmax_returns (scores : ndarray1) :
  (0 < len scores)%nat →
  ∃ p, stable_softmax scores = Ok p ∧ len p = len scores ∧
       ∀ j, item1 p j = computed_prob (item1 scores) (len scores) j.
Proof.
  intros HC. unfold stable_softmax, np_max.
  destruct (len scores) as [|n] eqn:Hlen; [lia|].
  cbn [mbind outcome_bind].
  rewrite np_exp_nonpos by exact (sub_scalar_max_nonpos scores n Hlen).
  cbn [mbind outcome_bind].
  unfold div_scalar, is_zero_real, np_sum. cbn [len map1 sub_scalar item1].
  rewrite Hlen.
  pose proof (sum_exp64_ge_1 (item1 scores) n).
  destruct (Req_dec_T _ 0) as [Hz|Hz]; [lra|].
  eexists. split; [reflexivity|]. split; [exact Hlen|].
  intros j. cbn. unfold computed_prob. replace (S n - 1)%nat with n by lia.
  reflexivity.
Qed.

Lemma stable_softmax_inv (scores p : ndarray1) :
  stable_softmax scores = Ok p → (0 < len scores)%nat ∧ len p = len scores.
Proof.
  intros Hp. destruct (len scores) as [|n] eqn:Hlen.
  - unfold stable_softmax, np_max in Hp. rewrite Hlen in Hp. discriminate.
  - destruct (stable_softmax_returns scores) as (q & Hq & Hlq & _); [lia|].
    rewrite Hq in Hp. injection Hp as <-. split; [lia|]. congruence.
Qed.

Lemma stable_softmax_rows_returns (scores : ndarray2) :
  (0 < shape1 scores)%nat →
  ∃ S, stable_softmax_rows scores = Ok S ∧
       shape0 S = shape0 scores ∧ shape1 S = shape1 scores ∧
       ∀ i j, item2 S i j = computed_prob (item2 scores i) (shape1 scores) j.
Proof.
  intros HC. unfold stable_softmax_rows, np_max_axis1.
  destruct (shape1 scores) as [|n] eqn:Hlen; [lia|].
  cbn [mbind outcome_bind].
  rewrite np_exp2_nonpos by exact (sub_column_max_nonpos scores n Hlen).
  cbn [mbind outcome_bind].
  unfold div_column. rewrite exists_below_false.
  2:{ intros i _. unfold is_zero_real, np_sum_axis1.
      cbn [len map2 sub_column item1 item2 shape0 shape1]. rewrite Hlen.
      pose proof (sum_exp64_ge_1 (item2 scores i) n).
      destruct (Req_dec_T _ 0) as [Hz|Hz]; [lra|reflexivity]. }
  eexists. split; [reflexivity|]. split; [reflexivity|]. split; [exact Hlen|].
  intros i j. cbn. rewrite Hlen. unfold computed_prob.
  replace (S n - 1)%nat with n by lia. reflexivity.
Qed.

(** The computed probabilities: a distribution, shift invariant, and the
    softmax probabilities when no exponential underflows. *)
Lemma computed_prob_sum (s : nat → R) (C : nat) :
  (0 < C)%nat → sum_n (computed_prob s C) C = 1.
Proof.
  intros HC. destruct C as [|n]; [lia|]. unfold computed_prob.
  replace (S n - 1)%nat with n by lia.
  rewrite (sum_n_div (λ j, exp64 (s j - max_upto s n))).
  pose proof (sum_exp64_ge_1 s n). field. lra.
Qed.

Lemma computed_prob_bounds (s : nat → R) (C j : nat) :
  (0 < C)%nat → (j < C)%nat → 0 <= computed_prob s C j <= 1.
Proof.
  intros HC Hj. destruct C as [|n]; [lia|]. unfold computed_prob.
  replace (S n - 1)%nat with n by lia.
  pose proof (sum_exp64_ge_1 s n) as Hsum.
  pose proof (exp64_nonneg (s j - max_upto s n)) as Hj0.
  pose proof (sum_n_ge_term (λ c, exp64 (s c - max_upto s n)) (S n) j
                ltac:(intros; apply exp64_nonneg) Hj) as Hle.
  cbn beta in Hle. split.
  - apply Rmult_le_pos; [exact Hj0|]. left. apply Rinv_0_lt_compat. lra.
  - apply Rmult_le_reg_r with (sum_n (λ c, exp64 (s c - max_upto s n)) (S n));
      [lra|].
    unfold Rdiv. rewrite Rmult_assoc, Rinv_l by lra. lra.
Qed.

Lemma computed_prob_shift (s : nat → R) (c : R) (C j : nat) :
  computed_prob (λ j, s j + c) C j = computed_prob s C j.
Proof.
  unfold computed_prob. rewrite max_upto_shift.
  replace (s j + c - (max_upto s (C - 1) + c)) with (s j - max_upto s (C - 1))
    by ring.
  f_equal. apply sum_n_ext. intros i _. f_equal. ring.
Qed.

Lemma computed_prob_ext (s t : nat → R) (C j : nat) :
  (0 < C)%nat → (∀ c, (c < C)%nat → s c = t c) → (j < C)%nat →
  computed_prob s C j = computed_prob t C j.
Proof.
  intros HC Hst Hj. unfold computed_prob.
  rewrite (max_upto_ext s t (C - 1)) by (intros; apply Hst; lia).
  rewrite (Hst j Hj). f_equal. apply sum_n_ext. intros c Hc.
  rewrite (Hst c Hc). reflexivity.
Qed.

Lemma computed_prob_softmax (s : nat → R) (C j : nat) :
  (0 < C)%nat →
  (∀ c, (c < C)%nat → exp_underflow < s c - max_upto s (C - 1)) →
  (j < C)%nat → computed_prob s C j = softmax_prob s C j.
Proof.
  intros HC Hs Hj.
  rewrite <- (softmax_prob_shift s (- max_upto s (C - 1)) C j HC).
  unfold computed_prob, softmax_prob.
  rewrite exp64_above by (apply Hs, Hj). f_equal.
  apply sum_n_ext. intros c Hc. apply exp64_above, Hs, Hc.
Qed.

(** A softmax probability is at most the exponential of its shifted score:
    probabilities in the normal range keep the exponentials clear of the
    underflow. *)
Lemma softmax_prob_le_shifted (s : nat → R) (C j : nat) :
  (0 < C)%nat → softmax_prob s C j <= exp (s j - max_upto s (C - 1)).
Proof.
  intros HC. destruct C as [|n]; [lia|].
  rewrite <- (softmax_prob_shift s (- max_upto s (S n - 1)) (S n) j HC).
  unfold softmax_prob. replace (S n - 1)%nat with n by lia.
  pose proof (sum_exp_ge_1 s n) as Hsum.
  pose proof (exp_pos (s j - max_upto s n)) as Hpos.
  apply Rmult_le_reg_r with (sum_n (λ c, exp (s c - max_upto s n)) (S n));
    [lra|].
  unfold Rdiv, Rminus. rewrite Rmult_assoc, Rinv_l by (unfold Rminus in Hsum; lra).
  unfold Rminus in *. nra.
Qed.

Lemma min_normal_exp : min_normal = exp (- 1022 * ln 2).
Proof. reflexivity. Qed.

Lemma min_normal_pos : 0 < min_normal.
Proof. rewrite min_normal_exp. apply exp_pos. Qed.

Lemma normal_above_underflow (x : R) : min_normal <= exp x → exp_underflow < x.
Proof.
  intros Hx. rewrite min_normal_exp in Hx. unfold exp_underflow.
  pose proof ln2_pos.
  destruct (Rlt_dec x (- 1022 * ln 2)) as [Hlt|Hge]; [|nra].
  apply exp_increasing in Hlt. lra.
Qed.

Lemma normal_prob_no_underflow (s : nat → R) (C j : nat) :
  (0 < C)%nat → min_normal <= softmax_prob s C j →
  exp_underflow < s j - max_upto s (C - 1).
Proof.
  intros HC Hp. apply normal_above_underflow.
  pose proof (softmax_prob_le_shifted s C j HC). lra.
Qed.

Lemma normal_no_underflow (W X : ndarray2) :
  normal_probabilities W X → no_underflow W X.
Proof.
  intros Hn i j Hi Hj. apply normal_prob_no_underflow; [lia|].
  apply Hn; assumption.
Qed.

Lemma softmax_prob_pos (s : nat → R) (C j : nat) :
  (0 < C)%nat → 0 < softmax_prob s C j.
Proof.
  intros HC. unfold softmax_prob. apply Rdiv_lt_0_compat.
  - apply exp_pos.
  - apply sum_exp_pos, HC.
Qed.

Lemma softmax_prob_sum (s : nat → R) (C : nat) :
  (0 < C)%nat → sum_n (softmax_prob s C) C = 1.
Proof.
  intros HC. unfold softmax_prob.
  rewrite (sum_n_div (λ j, exp (s j))).
  pose proof (sum_exp_pos s C HC). field. lra.
Qed.

Lemma softmax_prob_bounds (s : nat → R) (C j : nat) :
  (j < C)%nat → 0 < softmax_prob s C j <= 1.
Proof.
  intros Hj. split; [apply softmax_prob_pos; lia|].
  unfold softmax_prob.
  pose proof (sum_exp_pos s C ltac:(lia)) as Hsum.
  pose proof (sum_n_ge_term (λ c, exp (s c)) C j
                ltac:(intros; left; apply exp_pos) Hj) as Hle. cbn beta in Hle.
  apply Rmult_le_reg_r with (sum_n (λ c, exp (s c)) C); [lra|].
  unfold Rdiv. rewrite Rmult_assoc, Rinv_l by lra. lra.
Qed.


(** ** The two functions as instances of their bodies *)

Lemma naive_body_stable W X y reg :
  softmax_loss_naive W X y reg = naive_body stable_softmax W X y reg.
Proof. reflexivity. Qed.

Lemma naive_body_plain W X y reg :
  softmax_loss_naive_unshifted W X y reg = naive_body plain_softmax W X y reg.
Proof. reflexivity. Qed.

Lemma vectorized_body_stable W X y reg :
  softmax_loss_vectorized W X y reg = vectorized_body stable_softmax_rows W X y reg.
Proof. reflexivity. Qed.

Lemma vectorized_body_plain W X y reg :
  softmax_loss_vectorized_unshifted W X y reg
  = vectorized_body plain_softmax_rows W X y reg.
Proof. reflexivity. Qed.

(** ** The naive loop *)

(** State the invariant [P] of the outermost loop of the goal. *)
Ltac loop_invariant P H :=
  match goal with
  | |- context [for_range ?n ?s ?body] =>
      pose proof (for_range_invariant P body n s) as H
  end.

(** The loop over the classes adds to column [c] of [dW] the sample scaled
    by the probability of [c], less 1 where [c] is the label itself. *)
Lemma naive_classes_loop (X dW : ndarray2) (y : list Z) (p : ndarray1)
    (i C : nat) :
  (i < shape0 X)%nat → (i < length y)%nat → (C <= len p)%nat →
  ∃ dW', accumulate_sample X y i p C dW = Ok dW' ∧
        shape0 dW' = shape0 dW ∧ shape1 dW' = shape1 dW ∧
        ∀ k c, item2 dW' k c =
               if (c <? C)%nat
               then item2 dW k c
                    + (item1 p c - (if (Z.of_nat c =? nth i y 0%Z)%Z then 1 else 0))
                      * item2 X i k
               else item2 dW k c.
Proof.
  intros Hi Hy Hp. unfold accumulate_sample.
  loop_invariant (λ (j : nat) (dW' : ndarray2),
    (j <= C)%nat ∧ shape0 dW' = shape0 dW ∧ shape1 dW' = shape1 dW ∧
    ∀ k c, item2 dW' k c =
           if (c <? j)%nat
           then item2 dW k c
                + (item1 p c - (if (Z.of_nat c =? nth i y 0%Z)%Z then 1 else 0))
                  * item2 X i k
           else item2 dW k c) Hloop.
  destruct Hloop as (dW' & Hrun & _ & H0 & H1 & Hitems).
  - split; [lia|]. repeat split; intros; reflexivity.
  - intros j dWj Hj (_ & H0 & H1 & Hitems).
    rewrite (getlabel_ok y i Hy), (getitem1_nat p j) by lia.
    rewrite (getitem2_ok X i Hi). cbn [mbind outcome_bind].
    assert (Hstep : ∀ k c,
      (if (c =? j)%nat
       then item2 dWj k c
            + (item1 p j - (if (Z.of_nat j =? nth i y 0%Z)%Z then 1 else 0))
              * item2 X i k
       else item2 dWj k c) =
      if (c <? S j)%nat
      then item2 dW k c
           + (item1 p c - (if (Z.of_nat c =? nth i y 0%Z)%Z then 1 else 0))
             * item2 X i k
      else item2 dW k c).
    { intros k c. rewrite Hitems.
      destruct (Nat.eqb_spec c j) as [->|Hne].
      - destruct (Nat.ltb_spec j j); [lia|].
        destruct (Nat.ltb_spec j (S j)); [reflexivity|lia].
      - destruct (Nat.ltb_spec c j), (Nat.ltb_spec c (S j));
          try lia; reflexivity. }
    destruct (Z.of_nat j =? nth i y 0%Z)%Z; eexists; (split; [reflexivity|]);
      (split; [lia|]); (split; [exact H0|]); (split; [exact H1|]);
      intros k c; cbn; (etransitivity; [|exact (Hstep k c)]);
      destruct (c =? j)%nat; try reflexivity; ring.
  - eauto.
Qed.

Lemma accumulate_sample_shape (X : ndarray2) (y : list Z) (i : nat)
    (p : ndarray1) (C : nat) (dW dW' : ndarray2) :
  accumulate_sample X y i p C dW = Ok dW' →
  shape0 dW' = shape0 dW ∧ shape1 dW' = shape1 dW.
Proof.
  unfold accumulate_sample, for_range. intros Hrun.
  apply (for_loop_preserves
           (λ d, shape0 d = shape0 dW ∧ shape1 d = shape1 dW)) in Hrun;
    [exact Hrun|split; reflexivity|].
  intros j d d' Hstep (H0 & H1).
  apply bind_ok in Hstep as (c & _ & Hstep).
  apply bind_ok in Hstep as (v & _ & Hstep).
  apply bind_ok in Hstep as (Xi & _ & Hstep).
  destruct (Z.of_nat j =? c)%Z; injection Hstep as <-; cbn; auto.
Qed.

Section NaiveBody.
Variable softmax_of : ndarray1 → outcome ndarray1.
Variables W X : ndarray2.
Variable prob : nat → nat → R.
Hypothesis softmax_of_returns : ∀ i, (i < shape0 X)%nat →
  ∃ p, softmax_of {| len := shape1 W; item1 := score W X i |} = Ok p ∧
       len p = shape1 W ∧ ∀ j, (j < shape1 W)%nat → item1 p j = prob i j.

(** The body on a non-empty batch that fits the weights and whose samples
    have a label that addresses a class. *)
Lemma naive_body_returns (y : list Z) (reg : R) :
  shape1 X = shape0 W → (0 < shape0 X)%nat →
  (∀ i, (i < shape0 X)%nat →
     ∃ c, y !! i = Some c ∧ (- Z.of_nat (shape1 W) <= c < Z.of_nat (shape1 W))%Z) →
  ∃ dW, naive_body softmax_of W X y reg =
          Ok (x_add (x_div_nat
                       (neg_log_sum (λ i, prob i (class_of (shape1 W) (nth i y 0%Z)))
                          (shape0 X)) (shape0 X))
                (Finite (0.5 * reg * np_sum2 (mul2 W W))), dW) ∧
    shape0 dW = shape0 W ∧ shape1 dW = shape1 W ∧
    ∀ k j, (j < shape1 W)%nat →
      item2 dW k j =
      sum_n (λ i, (prob i j - (if (Z.of_nat j =? nth i y 0%Z)%Z then 1 else 0))
                  * item2 X i k) (shape0 X) / INR (shape0 X)
      + reg * item2 W k j.
Proof.
  intros HD Hpos Hy. unfold naive_body.
  loop_invariant (λ (i : nat) (s : xfloat * ndarray2),
    s.1 = neg_log_sum (λ i', prob i' (class_of (shape1 W) (nth i' y 0%Z))) i ∧
    shape0 s.2 = shape0 W ∧ shape1 s.2 = shape1 W ∧
    ∀ k j, (j < shape1 W)%nat →
      item2 s.2 k j =
      sum_n (λ i', (prob i' j - (if (Z.of_nat j =? nth i' y 0%Z)%Z then 1 else 0))
                   * item2 X i' k) i) Hloop.
  destruct Hloop as ([loss dW] & Hrun & Hloss & H0 & H1 & Hitems).
  - cbn. repeat split; reflexivity.
  - intros i [loss dW] Hi (Hloss & H0 & H1 & Hitems). cbn in Hloss, H0, H1, Hitems.
    unfold naive_iteration.
    rewrite (getitem2_ok X i Hi). cbn [mbind outcome_bind].
    rewrite dot1_ok by exact HD. cbn [mbind outcome_bind].
    destruct (softmax_of_returns i Hi) as (p & Hp & Hlen & Hprob).
    unfold score in Hp. cbn [item1]. rewrite Hp. cbn [mbind outcome_bind].
    destruct (Hy i Hi) as (c & Hc & Hrange).
    rewrite (getlabel_some y i c Hc). cbn [mbind outcome_bind].
    rewrite getitem1_class by (rewrite Hlen; exact Hrange).
    cbn [mbind outcome_bind].
    destruct (naive_classes_loop X dW y p i (shape1 W))
      as (dW' & Hinner & H0' & H1' & Hitems');
      [exact Hi|exact (lookup_lt_Some y i c Hc)|lia|].
    rewrite Hinner. cbn [mbind outcome_bind].
    eexists. split; [reflexivity|]. cbn [fst snd].
    split; [|split; [congruence|split; [congruence|]]].
    + cbn [neg_log_sum]. rewrite <- Hloss, Hlen.
      rewrite Hprob by (apply py_index_in_range; exact Hrange).
      rewrite (nth_lookup_Some y i 0%Z c Hc). reflexivity.
    + intros k j Hj. rewrite Hitems', Hitems by exact Hj.
      destruct (Nat.ltb_spec j (shape1 W)); [|lia].
      rewrite Hprob by exact Hj. reflexivity.
  - rewrite Hrun. cbn in Hloss, H0, H1, Hitems. cbn [mbind outcome_bind].
    rewrite py_truediv_ok by exact Hpos. cbn [mbind outcome_bind].
    rewrite np_truediv2_ok by exact Hpos. cbn [mbind outcome_bind].
    exists (add2 (map2 (λ x, x / INR (shape0 X)) dW) (scale2 reg W)).
    split; [rewrite Hloss; reflexivity|].
    split; [exact H0|]. split; [exact H1|].
    intros k j Hj. cbn. rewrite Hitems by exact Hj. reflexivity.
Qed.
End NaiveBody.


(** ** Integer-array indexing with [range(N)] and the labels *)

Lemma resolve_all_spec (A : ndarray2) (pairs : list (nat * Z)) :
  resolve_all A pairs =
  if forallb (in_bounds A) pairs then Some (map (position_of A) pairs) else None.
Proof.
  induction pairs as [|p pairs IH]; [reflexivity|].
  cbn [resolve_all forallb map]. rewrite IH.
  assert (Hp : in_bounds A p = match resolve A p with Some _ => true | None => false end)
    by reflexivity.
  assert (Hq : position_of A p = default (O, O) (resolve A p)) by reflexivity.
  rewrite Hp, Hq.
  destruct (resolve A p) as [q|]; [|reflexivity].
  destruct (forallb (in_bounds A) pairs); reflexivity.
Qed.

Lemma in_bounds_spec (A : ndarray2) (r : nat) (c : Z) :
  in_bounds A (r, c) = true ↔
  (r < shape0 A)%nat ∧ (- Z.of_nat (shape1 A) <= c < Z.of_nat (shape1 A))%Z.
Proof.
  unfold in_bounds, resolve. cbn [fst snd].
  destruct (Nat.ltb_spec r (shape0 A)) as [Hr|Hr].
  - destruct (py_index (shape1 A) c) as [j|] eqn:Hj.
    + apply py_index_Some in Hj. split; [intros _; split; [exact Hr|tauto]|reflexivity].
    + apply py_index_None in Hj. split; [discriminate|lia].
  - split; [discriminate|lia].
Qed.

Lemma position_of_in_bounds (A : ndarray2) (r : nat) (c : Z) :
  (r < shape0 A)%nat → (- Z.of_nat (shape1 A) <= c < Z.of_nat (shape1 A))%Z →
  position_of A (r, c) = (r, class_of (shape1 A) c).
Proof.
  intros Hr Hc. unfold position_of, resolve. cbn [fst snd].
  destruct (Nat.ltb_spec r (shape0 A)); [|lia].
  rewrite (proj1 (py_index_in_range (shape1 A) c Hc)). reflexivity.
Qed.

Lemma fancy_getitem_spec (A : ndarray2) (rows : list nat) (cols : list Z) :
  fancy_getitem A rows cols =
  pairs ← broadcast_index rows cols;
  if forallb (in_bounds A) pairs
  then Ok {| len := length (map (position_of A) pairs);
             item1 := λ t, let p := nth t (map (position_of A) pairs) (O, O) in
                           item2 A p.1 p.2 |}
  else Raise IndexError.
Proof.
  unfold fancy_getitem. destruct (broadcast_index rows cols) as [pairs| |];
    cbn [mbind outcome_bind]; try reflexivity.
  rewrite resolve_all_spec. destruct (forallb (in_bounds A) pairs); reflexivity.
Qed.

Lemma fancy_isub_spec (A : ndarray2) (rows : list nat) (cols : list Z) (c : R) :
  fancy_isub A rows cols c =
  pairs ← broadcast_index rows cols;
  if forallb (in_bounds A) pairs
  then Ok {| shape0 := shape0 A; shape1 := shape1 A;
             item2 := λ i j,
               if existsb (same_position (i, j)) (map (position_of A) pairs)
               then item2 A i j - c else item2 A i j |}
  else Raise IndexError.
Proof.
  unfold fancy_isub. destruct (broadcast_index rows cols) as [pairs| |];
    cbn [mbind outcome_bind]; try reflexivity.
  rewrite resolve_all_spec. destruct (forallb (in_bounds A) pairs); reflexivity.
Qed.

Lemma zip_seq_length (y : list Z) (a : nat) :
  length (zip (seq a (length y)) y) = length y.
Proof. rewrite length_zip_with, length_seq. lia. Qed.

Lemma zip_seq_in_bounds (A : ndarray2) (y : list Z) (a : nat) :
  (a + length y <= shape0 A)%nat →
  Forall (λ c, (- Z.of_nat (shape1 A) <= c < Z.of_nat (shape1 A))%Z) y →
  forallb (in_bounds A) (zip (seq a (length y)) y) = true.
Proof.
  revert a. induction y as [|c y IH]; intros a Ha Hy; simpl in *; [reflexivity|].
  inversion Hy as [|? ? Hc Hy']; subst.
  rewrite IH by (auto; lia).
  rewrite (proj2 (in_bounds_spec A a c)); [reflexivity|]. split; [lia|exact Hc].
Qed.

Lemma zip_seq_in_bounds_inv (A : ndarray2) (y : list Z) (a : nat) :
  forallb (in_bounds A) (zip (seq a (length y)) y) = true →
  Forall (λ c, (- Z.of_nat (shape1 A) <= c < Z.of_nat (shape1 A))%Z) y.
Proof.
  revert a. induction y as [|c y IH]; intros a Hb; [constructor|].
  cbn [length seq zip zip_with forallb] in Hb.
  apply andb_prop in Hb as (Hc & Hrest). constructor.
  - apply in_bounds_spec in Hc. tauto.
  - exact (IH (S a) Hrest).
Qed.

Lemma zip_seq_nth (A : ndarray2) (y : list Z) (a t : nat) :
  (a + length y <= shape0 A)%nat →
  Forall (λ c, (- Z.of_nat (shape1 A) <= c < Z.of_nat (shape1 A))%Z) y →
  (t < length y)%nat →
  nth t (map (position_of A) (zip (seq a (length y)) y)) (O, O)
  = ((a + t)%nat, class_of (shape1 A) (nth t y 0%Z)).
Proof.
  revert a t. induction y as [|c y IH]; intros a t Ha Hy Ht; simpl in *; [lia|].
  inversion Hy as [|? ? Hc Hy']; subst.
  destruct t as [|t].
  - rewrite position_of_in_bounds by (lia || exact Hc).
    rewrite Nat.add_0_r. reflexivity.
  - rewrite IH by (auto; lia). f_equal. lia.
Qed.

Lemma zip_seq_position (A : ndarray2) (y : list Z) (a i j : nat) :
  (a + length y <= shape0 A)%nat →
  Forall (λ c, (- Z.of_nat (shape1 A) <= c < Z.of_nat (shape1 A))%Z) y →
  existsb (same_position (i, j)) (map (position_of A) (zip (seq a (length y)) y))
  = (a <=? i)%nat && (i <? a + length y)%nat
    && (j =? class_of (shape1 A) (nth (i - a) y 0%Z))%nat.
Proof.
  revert a. induction y as [|c y IH]; intros a Ha Hy.
  - cbn [length seq zip zip_with map existsb].
    destruct (Nat.leb_spec a i), (Nat.ltb_spec i (a + 0)); try lia; reflexivity.
  - inversion Hy as [|? ? Hc Hy']; subst. cbn [length] in Ha.
    cbn [length seq zip zip_with map existsb].
    fold (zip (seq (S a) (length y)) y).
    rewrite IH by (auto; lia).
    rewrite position_of_in_bounds by (lia || exact Hc).
    unfold same_position. cbn [fst snd].
    destruct (Nat.eqb_spec i a) as [->|Hne].
    + replace (a - a)%nat with O by lia. cbn [nth].
      destruct (Nat.leb_spec (S a) a); [lia|].
      destruct (Nat.leb_spec a a); [|lia].
      destruct (Nat.ltb_spec a (a + S (length y))); [|lia].
      cbn [andb orb]. apply orb_false_r.
    + cbn [andb orb].
      destruct (Nat.leb_spec (S a) i), (Nat.leb_spec a i);
        try lia; try reflexivity.
      destruct (Nat.ltb_spec i (S a + length y)),
               (Nat.ltb_spec i (a + S (length y))); try lia; try reflexivity.
      cbn [andb]. replace (i - a)%nat with (S (i - S a)) by lia. reflexivity.
Qed.

Lemma x_sum_n_ext (f g : nat → xfloat) (n : nat) :
  (∀ i, (i < n)%nat → f i = g i) → x_sum_n f n = x_sum_n g n.
Proof.
  induction n as [|n IH]; intros Hfg; cbn; [reflexivity|].
  rewrite IH by (intros; apply Hfg; lia). rewrite Hfg by lia. reflexivity.
Qed.

(** ** The vectorized computation *)

Section VectorizedBody.
Variable softmax_rows_of : ndarray2 → outcome ndarray2.
Variables W X : ndarray2.
Variable prob : nat → nat → R.
Hypothesis softmax_rows_of_returns :
  ∃ S, softmax_rows_of {| shape0 := shape0 X; shape1 := shape1 W;
                          item2 := score W X |} = Ok S ∧
       shape0 S = shape0 X ∧ shape1 S = shape1 W ∧
       ∀ i j, (i < shape0 X)%nat → (j < shape1 W)%nat → item2 S i j = prob i j.

(** The body on a non-empty batch that fits the weights, with one label per
    sample, each addressing a class. *)
Lemma vectorized_body_returns (y : list Z) (reg : R) :
  shape1 X = shape0 W → (0 < shape0 X)%nat → length y = shape0 X →
  Forall (λ c, (- Z.of_nat (shape1 W) <= c < Z.of_nat (shape1 W))%Z) y →
  ∃ dW, vectorized_body softmax_rows_of W X y reg =
          Ok (x_add (x_div_nat
                       (neg_log_sum (λ i, prob i (class_of (shape1 W) (nth i y 0%Z)))
                          (shape0 X)) (shape0 X))
                (Finite (0.5 * reg * np_sum2 (mul2 W W))), dW) ∧
    shape0 dW = shape0 W ∧ shape1 dW = shape1 W ∧
    ∀ k j, (j < shape1 W)%nat → item2 dW k j =
      sum_n (λ i, (prob i j - indicator j (class_of (shape1 W) (nth i y 0%Z)))
                  * item2 X i k) (shape0 X) / INR (shape0 X)
      + reg * item2 W k j.
Proof.
  intros HD Hpos HN Hy. unfold vectorized_body.
  rewrite dot2_ok by exact HD. cbn [mbind outcome_bind].
  destruct softmax_rows_of_returns as (S & HS & H0 & H1 & Hprob).
  unfold score in HS. rewrite HS. cbn [mbind outcome_bind].
  rewrite fancy_getitem_spec, fancy_isub_spec. unfold broadcast_index.
  rewrite length_seq, <- HN, Nat.eqb_refl. cbn [mbind outcome_bind].
  rewrite <- H1 in Hy.
  rewrite zip_seq_in_bounds by (rewrite ?H0; auto; simpl; lia).
  cbn [mbind outcome_bind].
  rewrite dot2_ok by (cbn; lia). cbn [mbind outcome_bind].
  rewrite np_truediv2_ok by lia. cbn [mbind outcome_bind].
  eexists. split.
  { apply f_equal. apply (f_equal2 pair); [|reflexivity].
    apply (f_equal2 x_add); [|reflexivity]. unfold np_truediv.
    apply (f_equal2 x_div_nat); [|reflexivity].
    unfold x_sum, np_log. cbn [xlen xitem len item1].
    rewrite length_map, zip_seq_length.
    rewrite <- neg_log_sum_vectorized. f_equal.
    apply x_sum_n_ext. intros t Ht.
    rewrite zip_seq_nth by (rewrite ?H0; auto; simpl; lia).
    cbn [fst snd]. rewrite H1. apply f_equal, Hprob; [lia|].
    apply py_index_in_range. rewrite <- H1.
    exact (proj1 (Forall_nth _ 0%Z y) Hy t Ht). }
  split; [exact HD|split; [exact H1|]].
  - intros k j Hj. cbn. rewrite H0, <- HN.
    f_equal. f_equal. apply sum_n_ext. intros i Hi.
    rewrite zip_seq_position by (rewrite ?H0; auto; simpl; lia).
    rewrite Hprob, H1 by lia. rewrite Nat.sub_0_r. cbn [Nat.leb andb].
    destruct (Nat.ltb_spec i (0 + length y)); [|lia]. cbn [andb].
    unfold indicator.
    destruct (j =? class_of (shape1 W) (nth i y 0%Z))%nat; ring.
Qed.
End VectorizedBody.


(** ** The two functions on batches whose labels address classes *)

Lemma naive_returns_computed (W X : ndarray2) (y : list Z) (reg : R) :
  shape1 X = shape0 W → (0 < shape0 X)%nat →
  (∀ i, (i < shape0 X)%nat →
     ∃ c, y !! i = Some c ∧ (- Z.of_nat (shape1 W) <= c < Z.of_nat (shape1 W))%Z) →
  ∃ dW, softmax_loss_naive W X y reg = Ok (computed_loss W X y reg, dW) ∧
    shape0 dW = shape0 W ∧ shape1 dW = shape1 W ∧
    ∀ k j, (j < shape1 W)%nat → item2 dW k j = naive_grad W X y reg k j.
Proof.
  intros HD Hpos Hy. rewrite naive_body_stable.
  apply (naive_body_returns stable_softmax W X
           (λ i, computed_prob (score W X i) (shape1 W))); try assumption.
  intros i Hi.
  destruct (stable_softmax_returns {| len := shape1 W; item1 := score W X i |})
    as (p & Hp & Hlen & Hprob).
  - cbn. destruct (Hy O Hpos) as (c & _ & Hc). lia.
  - exists p. split; [exact Hp|]. split; [exact Hlen|]. intros j _. apply Hprob.
Qed.

Lemma vectorized_returns_computed (W X : ndarray2) (y : list Z) (reg : R) :
  shape1 X = shape0 W → (0 < shape0 X)%nat → length y = shape0 X →
  Forall (λ c, (- Z.of_nat (shape1 W) <= c < Z.of_nat (shape1 W))%Z) y →
  ∃ dW, softmax_loss_vectorized W X y reg = Ok (computed_loss W X y reg, dW) ∧
    shape0 dW = shape0 W ∧ shape1 dW = shape1 W ∧
    ∀ k j, (j < shape1 W)%nat → item2 dW k j = vectorized_grad W X y reg k j.
Proof.
  intros HD Hpos HN Hy. rewrite vectorized_body_stable.
  apply (vectorized_body_returns stable_softmax_rows W X
           (λ i, computed_prob (score W X i) (shape1 W))); try assumption.
  destruct (stable_softmax_rows_returns
              {| shape0 := shape0 X; shape1 := shape1 W; item2 := score W X |})
    as (S & HS & H0 & H1 & Hprob).
  - cbn. destruct y as [|c y]; [cbn in HN; lia|].
    inversion Hy as [|? ? Hc _]; subst. lia.
  - exists S. split; [exact HS|]. split; [exact H0|]. split; [exact H1|].
    intros i j _ _. apply Hprob.
Qed.

(** ** Valid inputs *)

Lemma valid_input_classes (W X : ndarray2) (y : list Z) :
  valid_input W X y → (0 < shape0 X)%nat → (0 < shape1 W)%nat.
Proof.
  intros (_ & HN & Hy) Hpos.
  pose proof (label_in_range y (shape1 W) O Hy). lia.
Qed.

Lemma valid_input_range (W X : ndarray2) (y : list Z) :
  valid_input W X y →
  Forall (λ c, (- Z.of_nat (shape1 W) <= c < Z.of_nat (shape1 W))%Z) y.
Proof.
  intros (_ & _ & Hy). eapply Forall_impl; [exact Hy|]. cbn. intros c Hc. lia.
Qed.

Lemma valid_input_labels (W X : ndarray2) (y : list Z) :
  valid_input W X y →
  ∀ i, (i < shape0 X)%nat →
    ∃ c, y !! i = Some c ∧ (- Z.of_nat (shape1 W) <= c < Z.of_nat (shape1 W))%Z.
Proof.
  intros Hvalid i Hi. pose proof (valid_input_range W X y Hvalid) as Hy.
  destruct Hvalid as (_ & HN & _).
  destruct (lookup_lt_is_Some_2 y i ltac:(lia)) as [c Hc].
  exists c. split; [exact Hc|].
  exact (proj1 (Forall_lookup _ y) Hy i c Hc).
Qed.

(** On a valid input line 45 and line 93 single out the same class. *)
Lemma valid_indicator (W X : ndarray2) (y : list Z) (i j : nat) :
  valid_input W X y → (i < shape0 X)%nat →
  (if (Z.of_nat j =? nth i y 0%Z)%Z then 1 else 0) = indicator j (label y i) ∧
  indicator j (class_of (shape1 W) (nth i y 0%Z)) = indicator j (label y i).
Proof.
  intros (_ & HN & Hy) Hi.
  destruct (label_in_range y (shape1 W) i Hy ltac:(lia)) as (Hrange & _ & Hclass).
  rewrite Hclass. split; [|reflexivity]. unfold indicator, label.
  destruct (Z.eqb_spec (Z.of_nat j) (nth i y 0%Z)) as [E|E].
  - rewrite <- E, Nat2Z.id, Nat.eqb_refl. reflexivity.
  - destruct (Nat.eqb_spec j (Z.to_nat (nth i y 0%Z))) as [E'|E']; [|reflexivity].
    exfalso. apply E. rewrite E'. lia.
Qed.

Lemma valid_grads_agree (W X : ndarray2) (y : list Z) (reg : R) (k j : nat) :
  valid_input W X y →
  naive_grad W X y reg k j = vectorized_grad W X y reg k j.
Proof.
  intros Hvalid. unfold naive_grad, vectorized_grad. f_equal. f_equal.
  apply sum_n_ext. intros i Hi.
  destruct (valid_indicator W X y i j Hvalid Hi) as (-> & ->). reflexivity.
Qed.

(** Both functions return on a valid, non-empty batch: the loss and the
    gradient that they compute. *)
Lemma naive_returns (W X : ndarray2) (y : list Z) (reg : R) :
  valid_input W X y → (0 < shape0 X)%nat →
  ∃ dW, softmax_loss_naive W X y reg = Ok (computed_loss W X y reg, dW) ∧
    shape0 dW = shape0 W ∧ shape1 dW = shape1 W ∧
    ∀ k j, (j < shape1 W)%nat → item2 dW k j = vectorized_grad W X y reg k j.
Proof.
  intros Hvalid Hpos.
  destruct (naive_returns_computed W X y reg) as (dW & Hrun & H0 & H1 & Hd).
  - exact (proj1 Hvalid).
  - exact Hpos.
  - exact (valid_input_labels W X y Hvalid).
  - exists dW. repeat split; try assumption.
    intros k j Hj. rewrite Hd by exact Hj. apply valid_grads_agree, Hvalid.
Qed.

Lemma vectorized_returns (W X : ndarray2) (y : list Z) (reg : R) :
  valid_input W X y → (0 < shape0 X)%nat →
  ∃ dW, softmax_loss_vectorized W X y reg = Ok (computed_loss W X y reg, dW) ∧
    shape0 dW = shape0 W ∧ shape1 dW = shape1 W ∧
    ∀ k j, (j < shape1 W)%nat → item2 dW k j = vectorized_grad W X y reg k j.
Proof.
  intros Hvalid Hpos. apply vectorized_returns_computed.
  - exact (proj1 Hvalid).
  - exact Hpos.
  - exact (proj1 (proj2 Hvalid)).
  - exact (valid_input_range W X y Hvalid).
Qed.

(** ** The computed loss and gradient against the formulas of section 4.1 *)

Lemma computed_loss_exact (W X : ndarray2) (y : list Z) (reg : R) :
  valid_input W X y → (0 < shape0 X)%nat → no_underflow W X →
  computed_loss W X y reg = Finite (cross_entropy_loss W X y reg).
Proof.
  intros Hvalid Hpos Hno.
  pose proof (valid_input_classes W X y Hvalid Hpos) as HC.
  destruct Hvalid as (HD & HN & Hy).
  unfold computed_loss, cross_entropy_loss.
  rewrite (neg_log_sum_ext _
    (λ i, softmax_prob (score W X i) (shape1 W) (label y i))).
  2:{ intros i Hi.
      destruct (label_in_range y (shape1 W) i Hy ltac:(lia)) as (_ & Hl & ->).
      apply computed_prob_softmax; [exact HC| |exact Hl].
      intros c Hc. apply Hno; assumption. }
  rewrite neg_log_sum_finite by (intros; apply softmax_prob_pos; exact HC).
  destruct (shape0 X) as [|n]; [lia|]. reflexivity.
Qed.

Lemma vectorized_grad_exact (W X : ndarray2) (y : list Z) (reg : R) (k j : nat) :
  valid_input W X y → no_underflow W X → (j < shape1 W)%nat →
  vectorized_grad W X y reg k j = cross_entropy_grad W X y reg k j.
Proof.
  intros Hvalid Hno Hj. unfold vectorized_grad, cross_entropy_grad.
  f_equal. f_equal. apply sum_n_ext. intros i Hi.
  rewrite (proj2 (valid_indicator W X y i j Hvalid Hi)).
  rewrite computed_prob_softmax; [reflexivity|lia| |exact Hj].
  intros c Hc. apply Hno; assumption.
Qed.

Lemma naive_returns_exact (W X : ndarray2) (y : list Z) (reg : R) :
  valid_input W X y → (0 < shape0 X)%nat → no_underflow W X →
  ∃ dW, softmax_loss_naive W X y reg = Ok (Finite (cross_entropy_loss W X y reg), dW) ∧
    shape0 dW = shape0 W ∧ shape1 dW = shape1 W ∧
    ∀ k j, (j < shape1 W)%nat → item2 dW k j = cross_entropy_grad W X y reg k j.
Proof.
  intros Hvalid Hpos Hno.
  destruct (naive_returns W X y reg Hvalid Hpos) as (dW & Hrun & H0 & H1 & Hd).
  rewrite computed_loss_exact in Hrun by assumption.
  exists dW. repeat split; try assumption.
  intros k j Hj. rewrite Hd by exact Hj. apply vectorized_grad_exact; assumption.
Qed.

Lemma vectorized_returns_exact (W X : ndarray2) (y : list Z) (reg : R) :
  valid_input W X y → (0 < shape0 X)%nat → no_underflow W X →
  ∃ dW, softmax_loss_vectorized W X y reg
        = Ok (Finite (cross_entropy_loss W X y reg), dW) ∧
    shape0 dW = shape0 W ∧ shape1 dW = shape1 W ∧
    ∀ k j, (j < shape1 W)%nat → item2 dW k j = cross_entropy_grad W X y reg k j.
Proof.
  intros Hvalid Hpos Hno.
  destruct (vectorized_returns W X y reg Hvalid Hpos) as (dW & Hrun & H0 & H1 & Hd).
  rewrite computed_loss_exact in Hrun by assumption.
  exists dW. repeat split; try assumption.
  intros k j Hj. rewrite Hd by exact Hj. apply vectorized_grad_exact; assumption.
Qed.

(** ** The two functions on an empty batch *)

Lemma naive_empty_batch (W X : ndarray2) (y : list Z) (reg : R) :
  shape0 X = O → softmax_loss_naive W X y reg = Raise ZeroDivisionError.
Proof. intros HN. unfold softmax_loss_naive. rewrite HN. reflexivity. Qed.

Lemma vectorized_empty_batch (W X : ndarray2) (reg : R) :
  shape1 X = shape0 W → shape0 X = O → (0 < shape1 W)%nat →
  softmax_loss_vectorized W X [] reg = NonFinite.
Proof.
  intros HD HX HC. unfold softmax_loss_vectorized.
  rewrite dot2_ok by exact HD. cbn [mbind outcome_bind].
  destruct (stable_softmax_rows_returns
    {| shape0 := shape0 X; shape1 := shape1 W;
       item2 := λ i j, sum_n (λ k, item2 X i k * item2 W k j) (shape0 W) |})
    as (S & HS & H0 & _); [exact HC|].
  rewrite HS. cbn [mbind outcome_bind]. cbn in H0. rewrite HX in *.
  unfold fancy_getitem, fancy_isub. cbn.
  rewrite dot2_ok by (cbn; lia). reflexivity.
Qed.


(** ** Probabilities sum to one; zero weights give uniform probabilities *)

Lemma grad_row_sum (W X : ndarray2) (y : list Z) (k : nat) :
  valid_input W X y → (0 < shape0 X)%nat →
  sum_n (vectorized_grad W X y 0 k) (shape1 W) = 0.
Proof.
  intros Hvalid Hpos.
  pose proof (valid_input_classes W X y Hvalid Hpos) as HC.
  unfold vectorized_grad.
  rewrite sum_n_plus, sum_n_div, sum_n_swap.
  rewrite (sum_n_ext _ (λ _, 0)).
  - rewrite sum_n_zero, sum_n_scal. unfold Rdiv. ring.
  - intros i Hi.
    rewrite (sum_n_ext _ (λ j, item2 X i k *
      (computed_prob (score W X i) (shape1 W) j
       + - indicator j (class_of (shape1 W) (nth i y 0%Z)))))
      by (intros; ring).
    rewrite sum_n_scal, sum_n_plus, sum_n_opp, computed_prob_sum by exact HC.
    rewrite sum_n_indicator; [ring|].
    destruct Hvalid as (_ & HN & Hy).
    destruct (label_in_range y (shape1 W) i Hy ltac:(lia)) as (_ & Hl & ->).
    exact Hl.
Qed.

Lemma max_upto_const (c : R) (n : nat) : max_upto (λ _, c) n = c.
Proof.
  induction n as [|n IH]; cbn; [reflexivity|]. rewrite IH.
  unfold Rmax. destruct (Rle_dec c c); reflexivity.
Qed.

Lemma zero_weights_score (W X : ndarray2) (i c : nat) :
  is_zero W → (c < shape1 W)%nat → score W X i c = 0.
Proof.
  intros HW Hc. unfold score.
  rewrite (sum_n_ext _ (λ _, 0)); [apply sum_n_zero|].
  intros k Hk. rewrite HW by assumption. ring.
Qed.

Lemma zero_weights_no_underflow (W X : ndarray2) :
  is_zero W → no_underflow W X.
Proof.
  intros HW i j Hi Hj.
  rewrite zero_weights_score by assumption.
  rewrite (max_upto_ext _ (λ _, 0))
    by (intros c Hc; apply zero_weights_score; [exact HW|lia]).
  rewrite max_upto_const. pose proof exp_underflow_neg. lra.
Qed.

Lemma zero_weights_prob (W X : ndarray2) (i j : nat) :
  is_zero W → (j < shape1 W)%nat →
  softmax_prob (score W X i) (shape1 W) j = / INR (shape1 W).
Proof.
  intros HW Hj. unfold softmax_prob.
  rewrite (sum_n_ext _ (λ _, 1)).
  - rewrite sum_n_const, zero_weights_score by assumption. rewrite exp_0.
    assert (INR (shape1 W) <> 0) by (apply not_0_INR; lia).
    field. assumption.
  - intros c Hc. rewrite zero_weights_score by assumption. apply exp_0.
Qed.

Lemma zero_weights_loss (W X : ndarray2) (y : list Z) :
  valid_input W X y → (0 < shape0 X)%nat → is_zero W →
  cross_entropy_loss W X y 0 = ln (INR (shape1 W)).
Proof.
  intros Hvalid Hpos HW.
  pose proof (valid_input_classes W X y Hvalid Hpos) as HC.
  destruct Hvalid as (_ & HN & Hy).
  unfold cross_entropy_loss.
  rewrite (sum_n_ext _ (λ _, ln (INR (shape1 W)))).
  - rewrite sum_n_const.
    assert (INR (shape0 X) <> 0) by (apply not_0_INR; lia).
    field. assumption.
  - intros i Hi. rewrite zero_weights_prob.
    + rewrite ln_Rinv by (apply lt_0_INR; exact HC). ring.
    + exact HW.
    + apply label_in_range; [exact Hy|lia].
Qed.

Lemma zero_weights_grad (W X : ndarray2) (y : list Z) (k j : nat) :
  is_zero W → (j < shape1 W)%nat →
  cross_entropy_grad W X y 0 k j =
  sum_n (λ i, (/ INR (shape1 W) - indicator j (label y i)) * item2 X i k)
        (shape0 X) / INR (shape0 X).
Proof.
  intros HW Hj. unfold cross_entropy_grad.
  rewrite (sum_n_ext _
    (λ i, (/ INR (shape1 W) - indicator j (label y i)) * item2 X i k)).
  - ring.
  - intros i _. rewrite zero_weights_prob by assumption. reflexivity.
Qed.

(** ** Naive and vectorized agree (C1) *)

Lemma example_valid : valid_input example_W example_X example_y.
Proof.
  unfold valid_input. cbn. split; [reflexivity|]. split; [reflexivity|].
  repeat constructor; lia.
Qed.

Lemma empty_valid (D C : nat) :
  D = 1%nat → valid_input (np_zeros D C) empty_X [].
Proof. intros ->. unfold valid_input. cbn. repeat split; constructor. Qed.

(** C1, as amended: for every valid input with at least one sample (W of
    shape D x C, X of shape N x D with N >= 1, y of length N with labels in
    [0, C), any reg), softmax_loss_naive and softmax_loss_vectorized both
    return, with the same loss and with gradients of the same shape that are
    equal item by item (the arithmetic on finite floats being exact). *)
Theorem naive_vectorized_agree (W X : ndarray2) (y : list Z) (reg : R) :
  valid_input W X y → (0 < shape0 X)%nat →
  agree (softmax_loss_naive W X y reg) (softmax_loss_vectorized W X y reg).
Proof.
  intros Hvalid Hpos.
  destruct (naive_returns W X y reg Hvalid Hpos)
    as (d1 & Hrun1 & Hs1 & Hc1 & Hd1).
  destruct (vectorized_returns W X y reg Hvalid Hpos)
    as (d2 & Hrun2 & Hs2 & Hc2 & Hd2).
  exists (computed_loss W X y reg), d1, (computed_loss W X y reg), d2.
  repeat split; try assumption; try congruence.
  intros k j _ Hj. rewrite Hd1, Hd2; [reflexivity|congruence|congruence].
Qed.

Lemma naive_vectorized_agree_witness :
  valid_input example_W example_X example_y ∧ (0 < shape0 example_X)%nat ∧
  agree (softmax_loss_naive example_W example_X example_y 1)
        (softmax_loss_vectorized example_W example_X example_y 1).
Proof.
  split; [exact example_valid|]. split; [cbn; lia|].
  apply naive_vectorized_agree; [exact example_valid|cbn; lia].
Defined.

(** C1 as stated fails on the empty batch: the naive function raises
    ZeroDivisionError at line 52, the vectorized one returns nan. *)
Lemma naive_vectorized_differ_on_empty_batch :
  valid_input (np_zeros 1 1) empty_X [] ∧
  softmax_loss_naive (np_zeros 1 1) empty_X [] 0 = Raise ZeroDivisionError ∧
  softmax_loss_vectorized (np_zeros 1 1) empty_X [] 0 = NonFinite ∧
  ¬ agree (softmax_loss_naive (np_zeros 1 1) empty_X [] 0)
          (softmax_loss_vectorized (np_zeros 1 1) empty_X [] 0).
Proof.
  assert (Hnaive : softmax_loss_naive (np_zeros 1 1) empty_X [] 0
                   = Raise ZeroDivisionError)
    by (apply naive_empty_batch; reflexivity).
  split; [exact (empty_valid 1 1 eq_refl)|]. split; [exact Hnaive|]. split.
  - apply vectorized_empty_batch; [reflexivity|reflexivity|cbn; lia].
  - intros (l1 & d1 & l2 & d2 & Hrun & _). rewrite Hnaive in Hrun. discriminate.
Qed.

(** ** The rows of the gradient sum to zero (C9) *)




(** ** Zero weights (C8) *)

(** C8, as amended: for every X of shape N x D with N >= 1 and every valid
    label vector, with W the zero matrix of shape D x C and reg = 0, both
    functions return the loss ln(C) and a gradient of shape D x C whose item
    (k, j) is the mean over the samples of X[i][k] (1/C - [j = y[i]]). *)
Theorem zero_weights_result (W X : ndarray2) (y : list Z) :
  valid_input W X y → (0 < shape0 X)%nat → is_zero W →
  ∃ dW1 dW2,
    softmax_loss_naive W X y 0 = Ok (Finite (ln (INR (shape1 W))), dW1) ∧
    softmax_loss_vectorized W X y 0 = Ok (Finite (ln (INR (shape1 W))), dW2) ∧
    (shape0 dW1 = shape0 W ∧ shape1 dW1 = shape1 W) ∧
    (shape0 dW2 = shape0 W ∧ shape1 dW2 = shape1 W) ∧
    ∀ k j, (k < shape0 W)%nat → (j < shape1 W)%nat →
      item2 dW1 k j =
        sum_n (λ i, (/ INR (shape1 W) - indicator j (label y i)) * item2 X i k)
              (shape0 X) / INR (shape0 X) ∧
      item2 dW2 k j = item2 dW1 k j.
Proof.
  intros Hvalid Hpos HW.
  pose proof (zero_weights_no_underflow W X HW) as Hno.
  destruct (naive_returns_exact W X y 0 Hvalid Hpos Hno)
    as (d1 & Hrun1 & Hs1 & Hc1 & Hd1).
  destruct (vectorized_returns_exact W X y 0 Hvalid Hpos Hno)
    as (d2 & Hrun2 & Hs2 & Hc2 & Hd2).
  rewrite zero_weights_loss in Hrun1, Hrun2 by assumption.
  exists d1, d2. repeat split; try assumption.
  - rewrite Hd1 by assumption. apply zero_weights_grad; assumption.
  - rewrite Hd1, Hd2 by assumption. reflexivity.
Qed.

Lemma unit_valid : valid_input (np_zeros 1 2) unit_X [0%Z].
Proof. unfold valid_input. cbn. repeat split; repeat constructor; lia. Qed.

Lemma zeros_is_zero (D C : nat) : is_zero (np_zeros D C).
Proof. intros k j _ _. reflexivity. Qed.

Lemma zero_weights_result_witness :
  valid_input (np_zeros 1 2) unit_X [0%Z] ∧ (0 < shape0 unit_X)%nat ∧
  is_zero (np_zeros 1 2) ∧
  ∃ dW1 dW2,
    softmax_loss_naive (np_zeros 1 2) unit_X [0%Z] 0 = Ok (Finite (ln (INR 2)), dW1) ∧
    softmax_loss_vectorized (np_zeros 1 2) unit_X [0%Z] 0
    = Ok (Finite (ln (INR 2)), dW2).
Proof.
  split; [exact unit_valid|]. split; [cbn; lia|].
  split; [exact (zeros_is_zero 1 2)|].
  destruct (zero_weights_result (np_zeros 1 2) unit_X [0%Z])
    as (d1 & d2 & H1 & H2 & _);
    [exact unit_valid|cbn; lia|exact (zeros_is_zero 1 2)|].
  exists d1, d2. split; [exact H1|exact H2].
Defined.

(** C8 as stated fails: with zero weights the gradient is not the zero
    matrix.  For one sample X = [[1]] of class 0 among two classes the
    gradient is [[-1/2, 1/2]].  And on an empty batch no loss is returned. *)
Lemma zero_weights_gradient_not_zero :
  softmax_loss_naive (np_zeros 1 2) empty_X [] 0 = Raise ZeroDivisionError ∧
  valid_input (np_zeros 1 2) unit_X [0%Z] ∧ is_zero (np_zeros 1 2) ∧
  (∃ loss dW, softmax_loss_naive (np_zeros 1 2) unit_X [0%Z] 0 = Ok (loss, dW) ∧
     item2 dW 0 0 = - / 2 ∧ item2 dW 0 0 <> 0) ∧
  (∃ loss dW, softmax_loss_vectorized (np_zeros 1 2) unit_X [0%Z] 0 = Ok (loss, dW) ∧
     item2 dW 0 0 = - / 2 ∧ item2 dW 0 0 <> 0).
Proof.
  assert (Hgrad : cross_entropy_grad (np_zeros 1 2) unit_X [0%Z] 0 0 0 = - / 2).
  { rewrite zero_weights_grad by (try apply zeros_is_zero; cbn; lia).
    cbn. unfold indicator, label. cbn. change (Z.to_nat 0) with O. cbn. field. }
  pose proof (zero_weights_no_underflow (np_zeros 1 2) unit_X (zeros_is_zero 1 2))
    as Hno.
  split; [apply naive_empty_batch; reflexivity|].
  split; [exact unit_valid|]. split; [exact (zeros_is_zero 1 2)|]. split.
  - destruct (naive_returns_exact (np_zeros 1 2) unit_X [0%Z] 0 unit_valid)
      as (d & Hrun & _ & _ & Hd); [cbn; lia|exact Hno|].
    eexists _, d. split; [exact Hrun|].
    rewrite Hd by (cbn; lia). rewrite Hgrad. split; [reflexivity|lra].
  - destruct (vectorized_returns_exact (np_zeros 1 2) unit_X [0%Z] 0 unit_valid)
      as (d & Hrun & _ & _ & Hd); [cbn; lia|exact Hno|].
    eexists _, d. split; [exact Hrun|].
    rewrite Hd by (cbn; lia). rewrite Hgrad. split; [reflexivity|lra].
Qed.


(** ** The max-subtraction step (C7) *)

Lemma ln2_lt : ln 2 < 0.93.
Proof.
  apply exp_lt_inv. rewrite exp_ln by lra.
  replace 0.93 with (0.465 + 0.465) by lra. rewrite exp_plus.
  pose proof (exp_ineq1 0.465 ltac:(lra)). nra.
Qed.

(** A score of 1000 overflows the exponential, a score 1000 below the
    maximum underflows it. *)
Lemma overflows_1000 (x : R) : 1000 <= x → overflows x = true.
Proof.
  intros Hx. unfold overflows, exp_overflow. pose proof ln2_lt.
  destruct (Rle_dec (1024 * ln 2) x); [reflexivity|lra].
Qed.

Lemma exp64_1000 (x : R) : x <= - 1000 → exp64 x = 0.
Proof.
  intros Hx. apply exp64_below. unfold exp_underflow. pose proof ln2_lt. lra.
Qed.

Lemma float_bound_exp : float_bound = exp exp_overflow.
Proof. reflexivity. Qed.

(** Lines 42 and 87 without the max-subtraction, on scores whose
    exponentials neither overflow nor underflow. *)
Lemma plain_softmax_returns (scores : ndarray1) :
  (0 < len scores)%nat →
  (∀ j, (j < len scores)%nat →
        exp_underflow < item1 scores j ∧ item1 scores j < exp_overflow) →
  ∃ p, plain_softmax scores = Ok p ∧ len p = len scores ∧
       ∀ j, (j < len scores)%nat →
            item1 p j = softmax_prob (item1 scores) (len scores) j.
Proof.
  intros HC Hrange. unfold plain_softmax, np_exp.
  rewrite exists_below_false.
  2:{ intros i Hi. unfold overflows.
      destruct (Rle_dec exp_overflow (item1 scores i)); [|reflexivity].
      destruct (Hrange i Hi). lra. }
  cbn [mbind outcome_bind]. unfold div_scalar, is_zero_real, np_sum.
  cbn [len map1 item1].
  assert (Hsum : sum_n (λ i, exp64 (item1 scores i)) (len scores)
                 = sum_n (λ c, exp (item1 scores c)) (len scores)).
  { apply sum_n_ext. intros i Hi. apply exp64_above, Hrange, Hi. }
  rewrite Hsum. pose proof (sum_exp_pos (item1 scores) (len scores) HC).
  destruct (Req_dec_T _ 0) as [Hz|Hz]; [lra|].
  eexists. split; [reflexivity|]. split; [reflexivity|].
  intros j Hj. cbn. unfold softmax_prob.
  rewrite exp64_above by (apply Hrange, Hj). reflexivity.
Qed.

Lemma plain_softmax_rows_returns (scores : ndarray2) :
  (0 < shape1 scores)%nat →
  (∀ i j, (i < shape0 scores)%nat → (j < shape1 scores)%nat →
          exp_underflow < item2 scores i j ∧ item2 scores i j < exp_overflow) →
  ∃ S, plain_softmax_rows scores = Ok S ∧
       shape0 S = shape0 scores ∧ shape1 S = shape1 scores ∧
       ∀ i j, (i < shape0 scores)%nat → (j < shape1 scores)%nat →
              item2 S i j = softmax_prob (item2 scores i) (shape1 scores) j.
Proof.
  intros HC Hrange. unfold plain_softmax_rows, np_exp2.
  rewrite exists_below_false.
  2:{ intros i Hi. apply exists_below_false. intros j Hj. unfold overflows.
      destruct (Rle_dec exp_overflow (item2 scores i j)); [|reflexivity].
      destruct (Hrange i j Hi Hj). lra. }
  cbn [mbind outcome_bind]. unfold div_column.
  assert (Hsum : ∀ i, (i < shape0 scores)%nat →
    sum_n (λ j, exp64 (item2 scores i j)) (shape1 scores)
    = sum_n (λ c, exp (item2 scores i c)) (shape1 scores)).
  { intros i Hi. apply sum_n_ext. intros j Hj. apply exp64_above, Hrange; assumption. }
  rewrite exists_below_false.
  2:{ intros i Hi. unfold is_zero_real, np_sum_axis1.
      cbn [len map2 item1 item2 shape0 shape1]. rewrite (Hsum i Hi).
      pose proof (sum_exp_pos (item2 scores i) (shape1 scores) HC).
      destruct (Req_dec_T _ 0) as [Hz|Hz]; [lra|reflexivity]. }
  eexists. split; [reflexivity|]. split; [reflexivity|]. split; [reflexivity|].
  intros i j Hi Hj. cbn. rewrite (Hsum i Hi). unfold softmax_prob.
  rewrite exp64_above by (apply Hrange; assumption). reflexivity.
Qed.

(** The probabilities that lines 41-42 and 86-87 compute do not change when
    a constant is added to the scores of a row. *)
Lemma stable_softmax_shift (scores : ndarray1) (c : R) :
  stable_softmax (add_scalar scores c) = stable_softmax scores.
Proof.
  destruct (len scores) as [|n] eqn:Hlen.
  { unfold stable_softmax, np_max. cbn [len add_scalar map1]. rewrite Hlen.
    reflexivity. }
  destruct (stable_softmax_returns scores) as (p & Hp & Hlp & Hitems); [lia|].
  destruct (stable_softmax_returns (add_scalar scores c))
    as (q & Hq & Hlq & Hitems'); [cbn; lia|].
  rewrite Hp, Hq. f_equal.
  destruct p as [n1 f], q as [n2 g]. cbn in *. subst n1 n2. f_equal.
  apply functional_extensionality. intros j. rewrite Hitems, Hitems'.
  rewrite Hlen. apply (computed_prob_shift (item1 scores) c).
Qed.

Lemma stable_softmax_rows_shift (scores : ndarray2) (c : nat → R) :
  stable_softmax_rows (add_column scores c) = stable_softmax_rows scores.
Proof.
  destruct (shape1 scores) as [|n] eqn:Hlen.
  { unfold stable_softmax_rows, np_max_axis1. cbn [shape1 add_column].
    rewrite Hlen. reflexivity. }
  destruct (stable_softmax_rows_returns scores)
    as (p & Hp & H0 & H1 & Hitems); [lia|].
  destruct (stable_softmax_rows_returns (add_column scores c))
    as (q & Hq & H0' & H1' & Hitems'); [cbn; lia|].
  rewrite Hp, Hq. f_equal.
  destruct p as [n1 n2 f], q as [m1 m2 g]. cbn in *. subst n1 n2 m1 m2. f_equal.
  apply functional_extensionality. intros i.
  apply functional_extensionality. intros j. rewrite Hitems, Hitems'.
  rewrite Hlen. apply (computed_prob_shift (item2 scores i) (c i)).
Qed.

Lemma same_outcome1_refl (a : outcome ndarray1) : same_outcome1 a a.
Proof. destruct a; cbn; auto. split; auto. Qed.

Lemma same_outcome2_refl (a : outcome ndarray2) : same_outcome2 a a.
Proof. destruct a; cbn; auto. repeat split; auto. Qed.

(** In the normal range the scores themselves neither overflow nor
    underflow the exponential. *)
Lemma plain_in_range_scores (W X : ndarray2) (i j : nat) :
  plain_in_range W X → (i < shape0 X)%nat → (j < shape1 W)%nat →
  exp_underflow < score W X i j ∧ score W X i j < exp_overflow.
Proof.
  intros Hrange Hi Hj. destruct (Hrange i Hi) as (Hsum & Hmin). split.
  - apply normal_above_underflow, Hmin, Hj.
  - apply exp_lt_inv. rewrite <- float_bound_exp.
    pose proof (sum_n_ge_term (λ c, exp (score W X i c)) (shape1 W) j
                  ltac:(intros; left; apply exp_pos) Hj) as Hle.
    cbn beta in Hle. lra.
Qed.

(** With all numbers in the normal range the two functions return the same
    with and without the max-subtraction. *)
Lemma naive_unshifted_same (W X : ndarray2) (y : list Z) (reg : R) :
  valid_input W X y → (0 < shape0 X)%nat →
  normal_probabilities W X → plain_in_range W X →
  same_result (softmax_loss_naive_unshifted W X y reg)
              (softmax_loss_naive W X y reg).
Proof.
  intros Hvalid Hpos Hnormal Hrange.
  pose proof (valid_input_classes W X y Hvalid Hpos) as HC.
  pose proof (normal_no_underflow W X Hnormal) as Hno.
  destruct (naive_returns_computed W X y reg (proj1 Hvalid) Hpos
              (valid_input_labels W X y Hvalid)) as (d & Hrun & H0 & H1 & Hd).
  destruct (naive_body_returns plain_softmax W X
              (λ i, softmax_prob (score W X i) (shape1 W))) with (y := y) (reg := reg)
    as (d' & Hrun' & H0' & H1' & Hd').
  - intros i Hi.
    destruct (plain_softmax_returns {| len := shape1 W; item1 := score W X i |})
      as (p & Hp & Hlen & Hprob); [exact HC| |eauto].
    intros j Hj. apply plain_in_range_scores; assumption.
  - exact (proj1 Hvalid).
  - exact Hpos.
  - exact (valid_input_labels W X y Hvalid).
  - rewrite naive_body_plain, Hrun', Hrun. cbn. split.
    + unfold computed_loss. f_equal. f_equal. apply neg_log_sum_ext.
      intros i Hi. symmetry. apply computed_prob_softmax; [exact HC| |].
      * intros c Hc. apply Hno; assumption.
      * destruct Hvalid as (_ & HN & Hy).
        destruct (label_in_range y (shape1 W) i Hy ltac:(lia)) as (_ & Hl & ->).
        exact Hl.
    + split; [congruence|]. split; [congruence|].
      intros k j _ Hj. rewrite H1' in Hj.
      rewrite Hd', Hd by exact Hj. unfold naive_grad. f_equal. f_equal.
      apply sum_n_ext. intros i Hi.
      rewrite computed_prob_softmax; [reflexivity|exact HC| |exact Hj].
      intros c Hc. apply Hno; assumption.
Qed.

Lemma vectorized_unshifted_same (W X : ndarray2) (y : list Z) (reg : R) :
  valid_input W X y → (0 < shape0 X)%nat →
  normal_probabilities W X → plain_in_range W X →
  same_result (softmax_loss_vectorized_unshifted W X y reg)
              (softmax_loss_vectorized W X y reg).
Proof.
  intros Hvalid Hpos Hnormal Hrange.
  pose proof (valid_input_classes W X y Hvalid Hpos) as HC.
  pose proof (normal_no_underflow W X Hnormal) as Hno.
  destruct (vectorized_returns_computed W X y reg (proj1 Hvalid) Hpos
              (proj1 (proj2 Hvalid)) (valid_input_range W X y Hvalid))
    as (d & Hrun & H0 & H1 & Hd).
  destruct (vectorized_body_returns plain_softmax_rows W X
              (λ i, softmax_prob (score W X i) (shape1 W))) with (y := y) (reg := reg)
    as (d' & Hrun' & H0' & H1' & Hd').
  - destruct (plain_softmax_rows_returns
                {| shape0 := shape0 X; shape1 := shape1 W; item2 := score W X |})
      as (S & HS & HS0 & HS1 & Hprob); [exact HC| |eauto].
    intros i j Hi Hj. apply plain_in_range_scores; assumption.
  - exact (proj1 Hvalid).
  - exact Hpos.
  - exact (proj1 (proj2 Hvalid)).
  - exact (valid_input_range W X y Hvalid).
  - rewrite vectorized_body_plain, Hrun', Hrun. cbn. split.
    + unfold computed_loss. f_equal. f_equal. apply neg_log_sum_ext.
      intros i Hi. symmetry. apply computed_prob_softmax; [exact HC| |].
      * intros c Hc. apply Hno; assumption.
      * destruct Hvalid as (_ & HN & Hy).
        destruct (label_in_range y (shape1 W) i Hy ltac:(lia)) as (_ & Hl & ->).
        exact Hl.
    + split; [congruence|]. split; [congruence|].
      intros k j _ Hj. rewrite H1' in Hj.
      rewrite Hd', Hd by exact Hj. unfold vectorized_grad. f_equal. f_equal.
      apply sum_n_ext. intros i Hi.
      rewrite computed_prob_softmax; [reflexivity|exact HC| |exact Hj].
      intros c Hc. apply Hno; assumption.
Qed.

(** The two functions pass to the exponential arrays without a positive
    item only: run with the checked exponential they have the outcome they
    have as written. *)
Lemma naive_checked (W X : ndarray2) (y : list Z) (reg : R) :
  naive_body (stable_softmax_with checked_exp) W X y reg
  = softmax_loss_naive W X y reg.
Proof.
  rewrite naive_body_stable. f_equal.
  apply functional_extensionality. intros scores.
  apply stable_softmax_with_agree. exact checked_exp_nonpos.
Qed.

Lemma vectorized_checked (W X : ndarray2) (y : list Z) (reg : R) :
  vectorized_body (stable_softmax_rows_with checked_exp2) W X y reg
  = softmax_loss_vectorized W X y reg.
Proof.
  rewrite vectorized_body_stable. f_equal.
  apply functional_extensionality. intros scores.
  apply stable_softmax_rows_with_agree. exact checked_exp2_nonpos.
Qed.


(** The examples: the scores of [example_W] on [example_X] lie between 1
    and 4, so that every number of the computation is a normal float64. *)
Lemma exp_le (x y : R) : x <= y → exp x <= exp y.
Proof.
  intros [Hlt | ->]; [left; apply exp_increasing, Hlt|lra].
Qed.

Lemma exp_between_1_and_4 (x : R) : 1 <= x <= 4 → 2 <= exp x <= 81.
Proof.
  intros [H1 H4]. pose proof (exp_le 1 x H1). pose proof (exp_le x 4 H4).
  pose proof (exp_ineq1 1 ltac:(lra)). pose proof exp_le_3.
  assert (exp 4 <= 81).
  { replace 4 with (1 + 1 + (1 + 1)) by lra. rewrite !exp_plus.
    pose proof (exp_pos 1).
    assert (exp 1 * exp 1 <= 9) by nra.
    assert (0 < exp 1 * exp 1) by nra.
    generalize dependent (exp 1 * exp 1). intros e2 ? ?. nra. }
  lra.
Qed.

Lemma min_normal_small : min_normal < / 512.
Proof.
  rewrite min_normal_exp. pose proof ln_lt_2.
  replace (- 1022 * ln 2) with (- (1022 * ln 2)) by ring.
  rewrite exp_Ropp.
  pose proof (exp_ineq1 511 ltac:(lra)).
  pose proof (exp_increasing 511 (1022 * ln 2) ltac:(lra)).
  apply Rinv_lt_contravar; [|lra].
  apply Rmult_lt_0_compat; lra.
Qed.

Lemma float_bound_large : 513 < float_bound.
Proof.
  rewrite float_bound_exp. unfold exp_overflow. pose proof ln_lt_2.
  apply Rlt_trans with (exp 512).
  - pose proof (exp_ineq1 512 ltac:(lra)). lra.
  - apply exp_increasing. lra.
Qed.

Lemma example_scores (i j : nat) :
  (i < 2)%nat → (j < 2)%nat → 1 <= score example_W example_X i j <= 4.
Proof.
  intros Hi Hj. destruct i as [|[|i]], j as [|[|j]]; try lia;
    unfold score; cbn; lra.
Qed.

Lemma example_normal : normal_probabilities example_W example_X.
Proof.
  intros i j Hi Hj. cbn in Hi, Hj.
  unfold softmax_prob. cbn [shape1 example_W of_rows sum_n].
  pose proof (exp_between_1_and_4 _ (example_scores i 0 Hi ltac:(lia))).
  pose proof (exp_between_1_and_4 _ (example_scores i 1 Hi ltac:(lia))).
  pose proof (exp_between_1_and_4 _ (example_scores i j Hi Hj)).
  pose proof min_normal_small.
  apply Rle_trans with (/ 512); [lra|].
  apply Rle_trans with (2 / 162); [lra|].
  set (d := 0 + exp (score example_W example_X i 0)
            + exp (score example_W example_X i 1)) in *.
  assert (Hd : / 162 <= / d) by (apply Rinv_le_contravar; unfold d; lra).
  assert (0 < / d) by (apply Rinv_0_lt_compat; unfold d; lra).
  unfold Rdiv. nra.
Qed.

Lemma example_plain_in_range : plain_in_range example_W example_X.
Proof.
  intros i Hi. cbn in Hi. cbn [shape1 example_W of_rows sum_n].
  pose proof (exp_between_1_and_4 _ (example_scores i 0 Hi ltac:(lia))).
  pose proof (exp_between_1_and_4 _ (example_scores i 1 Hi ltac:(lia))).
  pose proof float_bound_large. pose proof min_normal_small. split; [lra|].
  intros j Hj.
  pose proof (exp_between_1_and_4 _ (example_scores i j Hi Hj)).
  assert (/ 512 <= 1) by lra. lra.
Qed.



Lemma high_valid : valid_input high_W unit_X [0%Z].
Proof. unfold valid_input. cbn. repeat split; repeat constructor; lia. Qed.

Lemma high_scores (j : nat) : (j < 2)%nat → score high_W unit_X 0 j = 1000.
Proof. intros Hj. destruct j as [|[|j]]; try lia; unfold score; cbn; lra. Qed.

Lemma high_no_underflow : no_underflow high_W unit_X.
Proof.
  intros i j Hi Hj. cbn in Hi, Hj. assert (i = O) as -> by lia.
  cbn [shape1 high_W of_rows].
  rewrite (max_upto_ext _ (λ _, 1000)) by (intros c Hc; apply high_scores; cbn; lia).
  rewrite max_upto_const, high_scores by exact Hj.
  pose proof exp_underflow_neg. lra.
Qed.

Lemma high_loss : cross_entropy_loss high_W unit_X [0%Z] 0 = ln 2.
Proof.
  unfold cross_entropy_loss, softmax_prob, label.
  cbn [shape0 shape1 unit_X high_W of_rows length sum_n nth].
  change (Z.to_nat 0) with O.
  rewrite !high_scores by lia. cbn [INR].
  replace (exp 1000 / (0 + exp 1000 + exp 1000)) with (/ 2)
    by (pose proof (exp_pos 1000); field; lra).
  rewrite ln_Rinv by lra. lra.
Qed.



(** ** The gradient formula is the derivative of the loss *)

Lemma score_set_item (W X : ndarray2) (k j : nat) (t : R) (i c : nat) :
  (k < shape0 W)%nat →
  score (set_item W k j t) X i c =
  score W X i c + (if (c =? j)%nat then item2 X i k * (t - item2 W k j) else 0).
Proof.
  intros Hk. unfold score. cbn.
  rewrite (sum_n_ext _ (λ k', item2 X i k' * item2 W k' c +
    (if (k' =? k)%nat
     then (if (c =? j)%nat then item2 X i k' * (t - item2 W k' c) else 0)
     else 0))).
  - rewrite sum_n_plus, (sum_n_single
      (λ k', if (c =? j)%nat then item2 X i k' * (t - item2 W k' c) else 0)) by exact Hk.
    destruct (Nat.eqb_spec c j) as [->|]; reflexivity.
  - intros k' _. destruct (k' =? k)%nat, (c =? j)%nat; cbn; ring.
Qed.

Lemma squares_set_item (W : ndarray2) (k j : nat) (t : R) :
  (k < shape0 W)%nat → (j < shape1 W)%nat →
  np_sum2 (mul2 (set_item W k j t) (set_item W k j t)) =
  np_sum2 (mul2 W W) + (t * t - item2 W k j * item2 W k j).
Proof.
  intros Hk Hj. unfold np_sum2. cbn.
  rewrite (sum_n_ext _ (λ k',
    sum_n (λ j', item2 W k' j' * item2 W k' j') (shape1 W) +
    (if (k' =? k)%nat then t * t - item2 W k' j * item2 W k' j else 0))).
  - rewrite sum_n_plus, (sum_n_single
      (λ k', t * t - item2 W k' j * item2 W k' j)) by exact Hk. reflexivity.
  - intros k' _.
    rewrite (sum_n_ext _ (λ j', item2 W k' j' * item2 W k' j' +
      (if (j' =? j)%nat
       then (if (k' =? k)%nat then t * t - item2 W k' j' * item2 W k' j' else 0)
       else 0))).
    + rewrite sum_n_plus, (sum_n_single
        (λ j', if (k' =? k)%nat then t * t - item2 W k' j' * item2 W k' j' else 0))
        by exact Hj. reflexivity.
    + intros j' _. destruct (k' =? k)%nat, (j' =? j)%nat; cbn; ring.
Qed.

(** Derivatives of the functions the loss is made of. *)
Lemma dlim_ext (f g : R → R) (x l l' : R) :
  (∀ t, f t = g t) → l = l' → derivable_pt_lim f x l → derivable_pt_lim g x l'.
Proof. intros Hfg <-. apply derivable_pt_lim_ext. exact Hfg. Qed.

Lemma dlim_sum_n (f : nat → R → R) (l : nat → R) (x : R) (n : nat) :
  (∀ i, (i < n)%nat → derivable_pt_lim (f i) x (l i)) →
  derivable_pt_lim (λ t, sum_n (λ i, f i t) n) x (sum_n l n).
Proof.
  induction n as [|n IH]; intros Hf; simpl.
  - apply (derivable_pt_lim_const 0).
  - apply (dlim_ext ((λ t, sum_n (λ i, f i t) n) + f n)%F _ x
             (sum_n l n + l n)); [reflexivity..|].
    apply derivable_pt_lim_plus; [apply IH|apply Hf]; auto with lia.
Qed.

Lemma dlim_affine (a b w x : R) :
  derivable_pt_lim (λ t, a + b * (t - w)) x b.
Proof.
  apply (dlim_ext (fct_cte (a - b * w) + mult_real_fct b id)%F _ x (0 + b * 1)).
  - intros t. unfold plus_fct, fct_cte, mult_real_fct, id. ring.
  - ring.
  - apply derivable_pt_lim_plus;
      [apply derivable_pt_lim_const
      |apply derivable_pt_lim_scal, derivable_pt_lim_id].
Qed.

Lemma dlim_exp (f : R → R) (x l : R) :
  derivable_pt_lim f x l → derivable_pt_lim (λ t, exp (f t)) x (exp (f x) * l).
Proof.
  intros Hf. apply (dlim_ext (comp exp f) _ x (exp (f x) * l)); [reflexivity..|].
  apply derivable_pt_lim_comp; [exact Hf|apply derivable_pt_lim_exp].
Qed.

Lemma dlim_ln (f : R → R) (x l : R) :
  0 < f x → derivable_pt_lim f x l →
  derivable_pt_lim (λ t, ln (f t)) x (/ f x * l).
Proof.
  intros Hpos Hf. apply (dlim_ext (comp ln f) _ x (/ f x * l)); [reflexivity..|].
  apply derivable_pt_lim_comp; [exact Hf|apply derivable_pt_lim_ln; exact Hpos].
Qed.

Lemma dlim_plus (f g : R → R) (x l1 l2 : R) :
  derivable_pt_lim f x l1 → derivable_pt_lim g x l2 →
  derivable_pt_lim (λ t, f t + g t) x (l1 + l2).
Proof. intros Hf Hg. exact (derivable_pt_lim_plus f g x l1 l2 Hf Hg). Qed.

Lemma dlim_scal (c : R) (f : R → R) (x l : R) :
  derivable_pt_lim f x l → derivable_pt_lim (λ t, c * f t) x (c * l).
Proof. intros Hf. exact (derivable_pt_lim_scal f c x l Hf). Qed.

Lemma dlim_square (q w x : R) :
  derivable_pt_lim (λ t, q + (t * t - w * w)) x (2 * x).
Proof.
  apply (dlim_ext (fct_cte (q - w * w) + id * id)%F _ x (0 + (1 * x + x * 1))).
  - intros t. unfold plus_fct, mult_fct, fct_cte, id. ring.
  - ring.
  - apply derivable_pt_lim_plus; [apply derivable_pt_lim_const|].
    apply (derivable_pt_lim_mult id id x 1 1); apply derivable_pt_lim_id.
Qed.

(** The loss of one sample as a function of one weight. *)
Lemma sample_loss_derivative (s : nat → R) (x w : R) (C j yi : nat) :
  (j < C)%nat → (yi < C)%nat →
  derivable_pt_lim
    (λ t, - ln (softmax_prob
                  (λ c, s c + (if (c =? j)%nat then x * (t - w) else 0)) C yi))
    w ((softmax_prob s C j - indicator j yi) * x).
Proof.
  intros Hj Hy.
  set (d := λ c : nat, if (c =? j)%nat then x else 0).
  assert (Hshift : ∀ t c,
    s c + (if (c =? j)%nat then x * (t - w) else 0) = s c + d c * (t - w)).
  { intros t c. unfold d. destruct (c =? j)%nat; ring. }
  assert (Hsum : sum_n (λ c, exp (s c + d c * (w - w))) C = sum_n (λ c, exp (s c)) C).
  { apply sum_n_ext. intros c _. f_equal. ring. }
  pose proof (sum_exp_pos s C ltac:(lia)) as Hpos.
  apply (dlim_ext
    (λ t, (- s yi + (- d yi) * (t - w)) + ln (sum_n (λ c, exp (s c + d c * (t - w))) C))
    _ w
    (- d yi + / sum_n (λ c, exp (s c + d c * (w - w))) C
              * sum_n (λ c, exp (s c + d c * (w - w)) * d c) C)).
  - intros t. unfold softmax_prob.
    rewrite (sum_n_ext (λ c, exp (s c + (if (c =? j)%nat then x * (t - w) else 0)))
               (λ c, exp (s c + d c * (t - w))))
      by (intros c _; rewrite Hshift; reflexivity).
    rewrite Hshift.
    pose proof (sum_exp_pos (λ c, s c + d c * (t - w)) C ltac:(lia)) as Hpos_t.
    unfold Rdiv. rewrite ln_mult, ln_exp, ln_Rinv;
      [ring|assumption|apply exp_pos|apply Rinv_0_lt_compat; assumption].
  - rewrite Hsum.
    rewrite (sum_n_ext (λ c, exp (s c + d c * (w - w)) * d c)
               (λ c, if (c =? j)%nat then exp (s c) * x else 0)).
    + rewrite (sum_n_single (λ c, exp (s c) * x)) by exact Hj.
      unfold softmax_prob, indicator, d.
      rewrite (Nat.eqb_sym yi j). destruct (j =? yi)%nat; field; lra.
    + intros c _. unfold d. destruct (c =? j)%nat; [|ring].
      f_equal. f_equal. ring.
  - apply dlim_plus; [apply dlim_affine|].
    apply (dlim_ln (λ t, sum_n (λ c, exp (s c + d c * (t - w))) C));
      [rewrite Hsum; exact Hpos|].
    apply (dlim_sum_n (λ c t, exp (s c + d c * (t - w)))
             (λ c, exp (s c + d c * (w - w)) * d c)).
    intros c _. apply (dlim_exp (λ t, s c + d c * (t - w))). apply dlim_affine.
Qed.

(** The gradient that the two functions return is the gradient of the
    loss: its item (k, j) is the derivative of the loss in the weight
    W[k, j]. *)
Lemma cross_entropy_grad_is_derivative (W X : ndarray2) (y : list Z) (reg : R)
    (k j : nat) :
  valid_input W X y → (0 < shape0 X)%nat →
  (k < shape0 W)%nat → (j < shape1 W)%nat →
  derivable_pt_lim (λ t, cross_entropy_loss (set_item W k j t) X y reg)
    (item2 W k j) (cross_entropy_grad W X y reg k j).
Proof.
  intros (_ & HN & Hy) Hpos Hk Hj.
  apply (dlim_ext
    (λ t, / INR (shape0 X) *
          sum_n (λ i, - ln (softmax_prob
                    (λ c, score W X i c +
                          (if (c =? j)%nat
                           then item2 X i k * (t - item2 W k j) else 0))
                    (shape1 W) (label y i))) (shape0 X)
          + 0.5 * reg * (np_sum2 (mul2 W W)
                         + (t * t - item2 W k j * item2 W k j)))
    _ (item2 W k j)
    (/ INR (shape0 X) *
       sum_n (λ i, (softmax_prob (score W X i) (shape1 W) j
                    - indicator j (label y i)) * item2 X i k) (shape0 X)
     + 0.5 * reg * (2 * item2 W k j))).
  - intros t. unfold cross_entropy_loss.
    rewrite squares_set_item by assumption. cbn [shape1 set_item].
    assert (Hs : ∀ i,
      softmax_prob (score (set_item W k j t) X i) (shape1 W) (label y i) =
      softmax_prob
        (λ c, score W X i c +
              (if (c =? j)%nat then item2 X i k * (t - item2 W k j) else 0))
        (shape1 W) (label y i)).
    { intros i. unfold softmax_prob.
      rewrite score_set_item by exact Hk. f_equal.
      apply sum_n_ext. intros c _. rewrite score_set_item by exact Hk. reflexivity. }
    rewrite (sum_n_ext
      (λ i, - ln (softmax_prob (score (set_item W k j t) X i) (shape1 W) (label y i)))
      (λ i, - ln (softmax_prob
        (λ c, score W X i c +
              (if (c =? j)%nat then item2 X i k * (t - item2 W k j) else 0))
        (shape1 W) (label y i))))
      by (intros i _; rewrite Hs; reflexivity).
    unfold Rdiv. ring.
  - unfold cross_entropy_grad, Rdiv.
    replace (0.5 * reg * (2 * item2 W k j)) with (reg * item2 W k j) by lra. ring.
  - apply dlim_plus.
    + apply dlim_scal.
      apply (dlim_sum_n
        (λ i t, - ln (softmax_prob
                   (λ c, score W X i c +
                         (if (c =? j)%nat
                          then item2 X i k * (t - item2 W k j) else 0))
                   (shape1 W) (label y i)))
        (λ i, (softmax_prob (score W X i) (shape1 W) j
               - indicator j (label y i)) * item2 X i k)).
      intros i Hi. apply sample_loss_derivative; [exact Hj|].
      apply label_in_range; [exact Hy|lia].
    + apply dlim_scal. apply dlim_square.
Qed.


(** ** The naive function computes the cross-entropy loss and its gradient (C2) *)



Lemma low_valid : valid_input low_W unit_X [1%Z].
Proof. unfold valid_input. cbn. repeat split; repeat constructor; lia. Qed.

(** With the weights [[0, -1000]] the exponential of the second class
    underflows: its computed probability is 0. *)
Lemma low_prob : computed_prob (score low_W unit_X 0) 2 1 = 0.
Proof.
  unfold computed_prob. cbn [Nat.sub max_upto].
  assert (H0 : score low_W unit_X 0 0 = 0) by (unfold score; cbn; lra).
  assert (H1 : score low_W unit_X 0 1 = - 1000) by (unfold score; cbn; lra).
  rewrite H0, H1. rewrite Rmax_left by lra.
  rewrite (exp64_1000 (- 1000 - 0)) by lra. unfold Rdiv. ring.
Qed.

Lemma low_loss : computed_loss low_W unit_X [1%Z] 0 = PosInf.
Proof.
  unfold computed_loss.
  cbn [shape0 shape1 unit_X low_W of_rows length neg_log_sum nth].
  change (class_of 2 1) with 1%nat. rewrite low_prob.
  unfold x_log. destruct (Req_dec_T 0 0) as [_|Hne]; [reflexivity|].
  exfalso. apply Hne. reflexivity.
Qed.



(** * Outcomes on arbitrary arguments *)

(** ** The labels that the naive function reads *)

Lemma naive_labels_agree (W X : ndarray2) (y y' : list Z) (reg : R) :
  (∀ i, (i < shape0 X)%nat → y !! i = y' !! i) →
  softmax_loss_naive W X y reg = softmax_loss_naive W X y' reg.
Proof.
  intros Hy. rewrite (naive_body_stable W X y), (naive_body_stable W X y').
  unfold naive_body. f_equal.
  unfold for_range. apply for_loop_ext_in. intros i [loss dW] Hi.
  apply in_seq in Hi.
  assert (Hl : getlabel y i = getlabel y' i).
  { unfold getlabel. rewrite Hy by lia. reflexivity. }
  assert (Hacc : ∀ p d, accumulate_sample X y i p (shape1 W) d
                        = accumulate_sample X y' i p (shape1 W) d).
  { intros p d. unfold accumulate_sample, for_range. apply for_loop_ext.
    intros j d'. rewrite Hl. reflexivity. }
  unfold naive_iteration. rewrite Hl.
  destruct (getitem2 X i) as [Xi| |]; cbn; try reflexivity.
  destruct (dot1 Xi W) as [sc| |]; cbn; try reflexivity.
  destruct (stable_softmax sc) as [p| |]; cbn; try reflexivity.
  destruct (getlabel y' i) as [c| |]; cbn; try reflexivity.
  destruct (getitem1 p c) as [v| |]; cbn; try reflexivity.
  rewrite Hacc. reflexivity.
Qed.

Lemma naive_body_loop (softmax_of : ndarray1 → outcome ndarray1)
    (W X : ndarray2) (y : list Z) (reg : R) :
  naive_body softmax_of W X y reg =
  '(loss, dW) ← for_range (shape0 X) (Finite 0, np_zeros_like W)
                  (naive_iteration softmax_of W X y);
  loss ← py_truediv loss (shape0 X);
  dW ← np_truediv2 dW (shape0 X);
  Ok (x_add loss (Finite (0.5 * reg * np_sum2 (mul2 W W))), add2 dW (scale2 reg W)).
Proof. reflexivity. Qed.

(** One pass on a sample of a batch whose width fits the weights: it
    returns when the label of the sample exists and addresses a class, and
    raises IndexError otherwise. *)
Lemma naive_iteration_cases (W X : ndarray2) (y : list Z) (i : nat)
    (s : xfloat * ndarray2) :
  shape1 X = shape0 W → (0 < shape1 W)%nat → (i < shape0 X)%nat →
  match y !! i with
  | Some c =>
      if decide (- Z.of_nat (shape1 W) <= c < Z.of_nat (shape1 W))%Z
      then ∃ s', naive_iteration stable_softmax W X y i s = Ok s'
      else naive_iteration stable_softmax W X y i s = Raise IndexError
  | None => naive_iteration stable_softmax W X y i s = Raise IndexError
  end.
Proof.
  intros HD HC Hi. destruct s as [loss dW].
  assert (Hstep : ∃ p, len p = shape1 W ∧
    naive_iteration stable_softmax W X y i (loss, dW) =
    (yi ← getlabel y i; v ← getitem1 p yi;
     dW ← accumulate_sample X y i p (shape1 W) dW;
     Ok (x_sub loss (x_log v), dW))).
  { unfold naive_iteration.
    rewrite (getitem2_ok X i Hi). cbn [mbind outcome_bind].
    rewrite dot1_ok by exact HD. cbn [mbind outcome_bind].
    destruct (stable_softmax_returns
      {| len := shape1 W;
         item1 := λ j, sum_n (λ k, item1 {| len := shape1 X; item1 := item2 X i |} k
                                   * item2 W k j) (shape0 W) |})
      as (p & Hp & Hlen & _); [exact HC|].
    cbn in Hlen. rewrite Hp. exists p. split; [exact Hlen|reflexivity]. }
  destruct Hstep as (p & Hlen & ->).
  destruct (y !! i) as [c|] eqn:Hc.
  2:{ rewrite (getlabel_none y i Hc). reflexivity. }
  rewrite (getlabel_some y i c Hc). cbn [mbind outcome_bind].
  destruct (decide (- Z.of_nat (shape1 W) <= c < Z.of_nat (shape1 W))%Z)
    as [Hin|Hout].
  2:{ rewrite getitem1_out by (rewrite Hlen; lia). reflexivity. }
  rewrite getitem1_class by (rewrite Hlen; exact Hin). cbn [mbind outcome_bind].
  destruct (naive_classes_loop X dW y p i (shape1 W)) as (dW' & Hrun & _).
  - exact Hi.
  - exact (lookup_lt_Some y i c Hc).
  - lia.
  - rewrite Hrun. cbn. eauto.
Qed.

(** X1: the naive function returns, a loss that can be inf and a gradient,
    exactly on the non-empty batches whose width is the number of rows of
    the weights and whose samples all have a label that addresses a class:
    a label from -C to C-1, a negative one counting from the end as a
    Python index does. *)
Theorem naive_returns_exactly (W X : ndarray2) (y : list Z) (reg : R) :
  (∃ r, softmax_loss_naive W X y reg = Ok r) ↔
  (0 < shape0 X)%nat ∧ shape1 X = shape0 W ∧
  ∀ i, (i < shape0 X)%nat →
    ∃ c, y !! i = Some c ∧ (- Z.of_nat (shape1 W) <= c < Z.of_nat (shape1 W))%Z.
Proof.
  split.
  - intros (r & Hrun). rewrite naive_body_stable, naive_body_loop in Hrun.
    apply bind_ok in Hrun as ([loss dW] & Hloop & Hrest).
    apply bind_ok in Hrest as (l & Hdiv & _).
    assert (HN : (0 < shape0 X)%nat).
    { unfold py_truediv in Hdiv.
      destruct (Nat.eqb_spec (shape0 X) 0); [discriminate|lia]. }
    assert (Heach : ∀ i, (i < shape0 X)%nat →
      shape1 X = shape0 W ∧
      ∃ c, y !! i = Some c ∧
           (- Z.of_nat (shape1 W) <= c < Z.of_nat (shape1 W))%Z).
    { intros i Hi.
      destruct (for_loop_returns_each _ _ _ _ Hloop i) as ([l1 d1] & s2 & Hstep).
      { apply in_seq. lia. }
      unfold naive_iteration in Hstep.
      apply bind_ok in Hstep as (Xi & HXi & Hstep).
      apply bind_ok in Hstep as (sc & Hsc & Hstep).
      apply bind_ok in Hstep as (p & Hp & Hstep).
      apply bind_ok in Hstep as (c & Hc & Hstep).
      apply bind_ok in Hstep as (v & Hv & _).
      apply getitem2_inv in HXi as (_ & HXi).
      apply dot1_inv in Hsc as (Hsc & Hlen).
      apply stable_softmax_inv in Hp as (_ & Hp).
      apply getlabel_inv in Hc. apply getitem1_inv in Hv.
      split; [congruence|]. exists c. split; [exact Hc|].
      rewrite Hp, Hlen in Hv. exact Hv. }
    split; [exact HN|]. split; [exact (proj1 (Heach O HN))|].
    intros i Hi. exact (proj2 (Heach i Hi)).
  - intros (HN & HD & Hy).
    destruct (naive_returns_computed W X y reg HD HN Hy) as (d & Hrun & _).
    eauto.
Qed.

Lemma naive_returns_exactly_witness :
  (∃ r, softmax_loss_naive example_W example_X [0; -1; 7]%Z 1 = Ok r) ∧
  ¬ (∃ r, softmax_loss_naive example_W example_X [0; 2]%Z 1 = Ok r) ∧
  ¬ (∃ r, softmax_loss_naive example_W example_X [0; -3]%Z 1 = Ok r).
Proof.
  split; [|split].
  - apply (proj2 (naive_returns_exactly example_W example_X [0; -1; 7]%Z 1)).
    cbn. split; [lia|]. split; [reflexivity|].
    intros [|[|i]] Hi; [exists 0%Z; split; [reflexivity|lia]
                       |exists (-1)%Z; split; [reflexivity|lia]|lia].
  - intros Hrun.
    apply (proj1 (naive_returns_exactly example_W example_X [0; 2]%Z 1)) in Hrun
      as (_ & _ & Hy).
    destruct (Hy 1%nat) as (c & Hc & Hlt); [cbn; lia|].
    cbn in Hc, Hlt. injection Hc as <-. lia.
  - intros Hrun.
    apply (proj1 (naive_returns_exactly example_W example_X [0; -3]%Z 1)) in Hrun
      as (_ & _ & Hy).
    destruct (Hy 1%nat) as (c & Hc & Hlt); [cbn; lia|].
    cbn in Hc, Hlt. injection Hc as <-. lia.
Defined.

(** X2: the naive function reads the labels of the samples of the batch and no
    other: labels past the batch are ignored. *)
Theorem naive_reads_first_labels (W X : ndarray2) (y : list Z) (reg : R) :
  softmax_loss_naive W X y reg
  = softmax_loss_naive W X (take (shape0 X) y) reg.
Proof.
  apply naive_labels_agree. intros i Hi. symmetry. apply lookup_take_lt. exact Hi.
Qed.

(** ** The index arrays of the vectorized function *)

(** [range(N)] against the labels: the three ways in which numpy broadcasts
    the two index arrays, and the failure. *)
Lemma broadcast_range (N : nat) (y : list Z) :
  (length y = N → broadcast_index (seq 0 N) y = Ok (zip (seq 0 N) y)) ∧
  (length y ≠ N → N = 1%nat →
   broadcast_index (seq 0 N) y = Ok (map (λ c, (O, c)) y)) ∧
  (length y ≠ N → N ≠ 1%nat → length y = 1%nat →
   broadcast_index (seq 0 N) y = Ok (map (λ r, (r, hd 0%Z y)) (seq 0 N))) ∧
  (length y ≠ N → N ≠ 1%nat → length y ≠ 1%nat →
   broadcast_index (seq 0 N) y = Raise IndexError).
Proof.
  unfold broadcast_index. rewrite length_seq.
  destruct (Nat.eqb_spec N (length y)) as [HN|HN].
  { split; [reflexivity|]. repeat split; intros; lia. }
  split; [intros; lia|].
  destruct (Nat.eqb_spec N 1) as [->|H1].
  { split; [reflexivity|]. split; intros; lia. }
  split; [intros; lia|].
  destruct (Nat.eqb_spec (length y) 1) as [Hy|Hy].
  { split; [reflexivity|]. intros; lia. }
  split; [intros; lia|reflexivity].
Qed.

Lemma broadcast_in_bounds (A : ndarray2) (y : list Z)
    (pairs : list (nat * Z)) :
  (0 < shape0 A)%nat →
  broadcast_index (seq 0 (shape0 A)) y = Ok pairs →
  forallb (in_bounds A) pairs = true ↔
  Forall (λ c, (- Z.of_nat (shape1 A) <= c < Z.of_nat (shape1 A))%Z) y.
Proof.
  intros HN Hb.
  destruct (broadcast_range (shape0 A) y) as (Hzip & Hrow & Hcol & Hnone).
  destruct (Nat.eq_dec (length y) (shape0 A)) as [Hlen|Hlen].
  { rewrite (Hzip Hlen) in Hb. injection Hb as <-. rewrite <- Hlen. split.
    - apply zip_seq_in_bounds_inv.
    - apply zip_seq_in_bounds. lia. }
  destruct (Nat.eq_dec (shape0 A) 1%nat) as [H1|H1].
  { rewrite (Hrow Hlen H1) in Hb. injection Hb as <-.
    rewrite forallb_forall, Forall_forall. split.
    - intros Hall c Hc. apply list_elem_of_In in Hc.
      specialize (Hall (O, c) (in_map _ _ _ Hc)).
      apply in_bounds_spec in Hall. tauto.
    - intros Hall p Hp. apply in_map_iff in Hp as (c & <- & Hc).
      apply list_elem_of_In in Hc. specialize (Hall c Hc).
      apply in_bounds_spec. split; [lia|exact Hall]. }
  destruct (Nat.eq_dec (length y) 1%nat) as [Hy|Hy].
  2:{ rewrite (Hnone Hlen H1 Hy) in Hb. discriminate. }
  rewrite (Hcol Hlen H1 Hy) in Hb. injection Hb as <-.
  destruct y as [|c [|c' y]]; try discriminate. cbn [hd].
  rewrite forallb_forall. split.
  - intros Hall. constructor; [|constructor].
    specialize (Hall (O, c)).
    assert (Hin : In (O, c) (map (λ r, (r, c)) (seq 0 (shape0 A)))).
    { apply in_map_iff. exists O. split; [reflexivity|]. apply in_seq. lia. }
    apply Hall in Hin. apply in_bounds_spec in Hin. tauto.
  - intros Hall p Hp. apply in_map_iff in Hp as (r & <- & Hr).
    apply in_seq in Hr. inversion Hall as [|? ? Hc _]; subst.
    apply in_bounds_spec. split; [lia|exact Hc].
Qed.

(** ** The outcomes of the vectorized function *)

(** Behind the scores (line 85) and the probabilities (lines 86-87) the
    outcome is decided by the two index arrays of lines 89 and 93 and by the
    division of line 95. *)
Lemma vectorized_cases (W X : ndarray2) (y : list Z) (reg : R) :
  shape1 X = shape0 W → (0 < shape1 W)%nat →
  ∃ S, shape0 S = shape0 X ∧ shape1 S = shape1 W ∧
    match broadcast_index (seq 0 (shape0 X)) y with
    | Ok pairs =>
        if forallb (in_bounds S) pairs
        then match shape0 X with
             | O => softmax_loss_vectorized W X y reg = NonFinite
             | Datatypes.S _ => ∃ r, softmax_loss_vectorized W X y reg = Ok r
             end
        else softmax_loss_vectorized W X y reg = Raise IndexError
    | Raise e => softmax_loss_vectorized W X y reg = Raise e
    | NonFinite => softmax_loss_vectorized W X y reg = NonFinite
    end.
Proof.
  intros HD HC.
  destruct (stable_softmax_rows_returns
    {| shape0 := shape0 X; shape1 := shape1 W;
       item2 := λ i j, sum_n (λ k, item2 X i k * item2 W k j) (shape0 W) |})
    as (S & HS & H0 & H1 & _); [exact HC|].
  cbn in H0, H1. exists S. split; [exact H0|]. split; [exact H1|].
  assert (Hrun : softmax_loss_vectorized W X y reg =
    (picked ← fancy_getitem S (seq 0 (shape0 X)) y;
     softmax ← fancy_isub S (seq 0 (shape0 X)) y 1;
     dW ← dot2 (transpose X) softmax;
     dW ← np_truediv2 dW (shape0 X);
     Ok (x_add (np_truediv (x_sub (Finite 0) (x_sum (np_log picked))) (shape0 X))
           (Finite (0.5 * reg * np_sum2 (mul2 W W))),
         add2 dW (scale2 reg W)))).
  { rewrite vectorized_body_stable. unfold vectorized_body.
    rewrite dot2_ok by exact HD. cbn [mbind outcome_bind]. rewrite HS. reflexivity. }
  rewrite Hrun. clear Hrun. rewrite fancy_getitem_spec, fancy_isub_spec.
  destruct (broadcast_index (seq 0 (shape0 X)) y) as [pairs|e|];
    [|reflexivity..].
  cbn [mbind outcome_bind].
  destruct (forallb (in_bounds S) pairs); [|cbn; reflexivity].
  cbn [mbind outcome_bind].
  rewrite dot2_ok by (cbn; lia). cbn [mbind outcome_bind].
  destruct (shape0 X) as [|n] eqn:HN; [reflexivity|].
  rewrite np_truediv2_ok by lia. cbn [mbind outcome_bind]. eauto.
Qed.

Lemma vectorized_labels_agree (W X : ndarray2) (y y' : list Z) (reg : R) :
  broadcast_index (seq 0 (shape0 X)) y = broadcast_index (seq 0 (shape0 X)) y' →
  softmax_loss_vectorized W X y reg = softmax_loss_vectorized W X y' reg.
Proof.
  intros Hb. unfold softmax_loss_vectorized, fancy_getitem, fancy_isub.
  rewrite Hb. reflexivity.
Qed.

(** On a non-empty batch that fits the weights the label vector decides:
    the call returns when the labels can be broadcast against the batch and
    address classes, and raises IndexError otherwise. *)
Lemma vectorized_labels_decide (W X : ndarray2) (y : list Z) (reg : R) :
  shape1 X = shape0 W → (0 < shape1 W)%nat → (0 < shape0 X)%nat →
  ((length y = shape0 X ∨ length y = 1%nat ∨ shape0 X = 1%nat) ∧
   Forall (λ c, (- Z.of_nat (shape1 W) <= c < Z.of_nat (shape1 W))%Z) y →
   ∃ r, softmax_loss_vectorized W X y reg = Ok r) ∧
  (¬ ((length y = shape0 X ∨ length y = 1%nat ∨ shape0 X = 1%nat) ∧
      Forall (λ c, (- Z.of_nat (shape1 W) <= c < Z.of_nat (shape1 W))%Z) y) →
   softmax_loss_vectorized W X y reg = Raise IndexError).
Proof.
  intros HD HC HN.
  destruct (vectorized_cases W X y reg HD HC) as (S & H0 & H1 & Hcases).
  destruct (broadcast_index (seq 0 (shape0 X)) y) as [pairs|e|] eqn:Hb.
  all: destruct (broadcast_range (shape0 X) y) as (Hzip & Hrow & Hcol & Hnone).
  - assert (Hlen : length y = shape0 X ∨ length y = 1%nat ∨ shape0 X = 1%nat).
    { destruct (Nat.eq_dec (length y) (shape0 X)); [lia|].
      destruct (Nat.eq_dec (shape0 X) 1%nat); [lia|].
      destruct (Nat.eq_dec (length y) 1%nat); [lia|].
      rewrite Hnone in Hb by assumption. discriminate. }
    rewrite <- H0 in Hb.
    pose proof (broadcast_in_bounds S y pairs ltac:(lia) Hb) as Hbounds.
    rewrite H1 in Hbounds.
    destruct (forallb (in_bounds S) pairs).
    + split; [|intros Hbad; exfalso; apply Hbad; split;
                 [exact Hlen|apply Hbounds; reflexivity]].
      intros _. destruct (shape0 X); [lia|exact Hcases].
    + split; [|intros _; exact Hcases].
      intros (_ & Hy). apply (proj2 Hbounds) in Hy. discriminate.
  - assert (He : e = IndexError).
    { unfold broadcast_index in Hb.
      repeat destruct (_ =? _)%nat; try discriminate. congruence. }
    subst e. split; [|intros _; exact Hcases].
    intros (Hlen & _). exfalso.
    destruct (Nat.eq_dec (length y) (shape0 X)) as [E|E];
      [rewrite (Hzip E) in Hb; discriminate|].
    destruct (Nat.eq_dec (shape0 X) 1%nat) as [E1|E1];
      [rewrite (Hrow E E1) in Hb; discriminate|].
    destruct (Nat.eq_dec (length y) 1%nat) as [E2|E2];
      [rewrite (Hcol E E1 E2) in Hb; discriminate|].
    lia.
  - exfalso. unfold broadcast_index in Hb.
    repeat destruct (_ =? _)%nat; discriminate.
Qed.

(** Without classes neither function returns. *)
Lemma vectorized_no_classes (W X : ndarray2) (y : list Z) (reg : R)
    (r : xfloat * ndarray2) :
  shape1 W = O → softmax_loss_vectorized W X y reg <> Ok r.
Proof.
  intros HC. unfold softmax_loss_vectorized, dot2.
  destruct (shape1 X =? shape0 W)%nat; cbn [mbind outcome_bind]; [|discriminate].
  unfold stable_softmax_rows, np_max_axis1. cbn [shape1]. rewrite HC.
  cbn. discriminate.
Qed.

(** X3: on a non-empty batch the vectorized function returns, a loss that
    can be inf and a gradient, exactly when the width of the batch is the
    number of rows of the weights, there is at least one class, the label
    vector can be broadcast against the batch (one label per sample, or a
    single label, or a single sample) and every label addresses a class
    (from -C to C-1). *)
Theorem vectorized_returns_exactly (W X : ndarray2) (y : list Z) (reg : R) :
  (0 < shape0 X)%nat →
  ((∃ r, softmax_loss_vectorized W X y reg = Ok r) ↔
   shape1 X = shape0 W ∧ (0 < shape1 W)%nat ∧
   (length y = shape0 X ∨ length y = 1%nat ∨ shape0 X = 1%nat) ∧
   Forall (λ c, (- Z.of_nat (shape1 W) <= c < Z.of_nat (shape1 W))%Z) y).
Proof.
  intros HN. split.
  - intros (r & Hrun).
    assert (HD : shape1 X = shape0 W).
    { unfold softmax_loss_vectorized in Hrun.
      apply bind_ok in Hrun as (sc & Hsc & _). unfold dot2 in Hsc.
      destruct (Nat.eqb_spec (shape1 X) (shape0 W)); [assumption|discriminate]. }
    assert (HC : (0 < shape1 W)%nat).
    { destruct (shape1 W) as [|n] eqn:HC; [|lia].
      exfalso. exact (vectorized_no_classes W X y reg r HC Hrun). }
    split; [exact HD|]. split; [exact HC|].
    destruct (vectorized_labels_decide W X y reg HD HC HN) as (_ & Hbad).
    destruct (decide ((length y = shape0 X ∨ length y = 1%nat ∨ shape0 X = 1%nat) ∧
                      Forall (λ c, (- Z.of_nat (shape1 W) <= c
                                    < Z.of_nat (shape1 W))%Z) y)) as [Hgood|Hno];
      [exact Hgood|].
    rewrite (Hbad Hno) in Hrun. discriminate.
  - intros (HD & HC & Hlen & Hy).
    apply (vectorized_labels_decide W X y reg HD HC HN). split; assumption.
Qed.

Lemma vectorized_returns_exactly_witness :
  (0 < shape0 example_X)%nat ∧
  (∃ r, softmax_loss_vectorized example_W example_X [-1]%Z 1 = Ok r) ∧
  ¬ (∃ r, softmax_loss_vectorized example_W example_X [0; 1; 7]%Z 1 = Ok r).
Proof.
  assert (HN : (0 < shape0 example_X)%nat) by (cbn; lia).
  split; [exact HN|]. split.
  - apply (proj2 (vectorized_returns_exactly example_W example_X [-1]%Z 1 HN)).
    cbn. split; [reflexivity|]. split; [lia|].
    split; [right; left; reflexivity|]. repeat constructor; lia.
  - intros Hrun.
    apply (proj1 (vectorized_returns_exactly example_W example_X
                    [0; 1; 7]%Z 1 HN)) in Hrun as (_ & _ & Hlen & _).
    cbn in Hlen. lia.
Defined.


(** ** The exceptions of the two functions *)

Lemma naive_loop_raises (W X : ndarray2) (y : list Z) (reg : R) (e : exn)
    (k : nat) :
  (k < shape0 X)%nat →
  (∀ i s, (i < shape0 X)%nat →
     (∃ s', naive_iteration stable_softmax W X y i s = Ok s') ∨
     naive_iteration stable_softmax W X y i s = Raise e) →
  (∀ s, naive_iteration stable_softmax W X y k s = Raise e) →
  softmax_loss_naive W X y reg = Raise e.
Proof.
  intros Hk Hall Hraise. rewrite naive_body_stable, naive_body_loop.
  unfold for_range.
  rewrite (for_loop_raises_some e _ (seq 0 (shape0 X)) k).
  - reflexivity.
  - apply in_seq. lia.
  - intros i s Hi. apply Hall. apply in_seq in Hi. lia.
  - exact Hraise.
Qed.

Lemma naive_iteration_mismatch (W X : ndarray2) (y : list Z) (i : nat)
    (s : xfloat * ndarray2) :
  (i < shape0 X)%nat → shape1 X ≠ shape0 W ∨ shape1 W = O →
  naive_iteration stable_softmax W X y i s = Raise ValueError.
Proof.
  intros Hi Hbad. destruct s as [loss dW]. unfold naive_iteration.
  rewrite (getitem2_ok X i Hi). cbn [mbind outcome_bind].
  destruct (Nat.eq_dec (shape1 X) (shape0 W)) as [HD|HD].
  - destruct Hbad as [Hbad|HC]; [contradiction|].
    rewrite dot1_ok by exact HD. cbn [mbind outcome_bind].
    unfold stable_softmax, np_max. cbn [len]. rewrite HC. reflexivity.
  - unfold dot1. cbn [len]. destruct (Nat.eqb_spec (shape1 X) (shape0 W)); [lia|].
    reflexivity.
Qed.

Lemma naive_value_error (W X : ndarray2) (y : list Z) (reg : R) :
  (0 < shape0 X)%nat → shape1 X ≠ shape0 W ∨ shape1 W = O →
  softmax_loss_naive W X y reg = Raise ValueError.
Proof.
  intros HN Hbad. apply (naive_loop_raises W X y reg ValueError O HN).
  - intros i s Hi. right. apply naive_iteration_mismatch; assumption.
  - intros s. apply naive_iteration_mismatch; assumption.
Qed.

Lemma vectorized_value_error (W X : ndarray2) (y : list Z) (reg : R) :
  shape1 X ≠ shape0 W ∨ shape1 W = O →
  softmax_loss_vectorized W X y reg = Raise ValueError.
Proof.
  intros Hbad. unfold softmax_loss_vectorized.
  destruct (Nat.eq_dec (shape1 X) (shape0 W)) as [HD|HD].
  - destruct Hbad as [Hbad|HC]; [contradiction|].
    rewrite dot2_ok by exact HD. cbn [mbind outcome_bind].
    unfold stable_softmax_rows, np_max_axis1. cbn [shape1]. rewrite HC. reflexivity.
  - unfold dot2. destruct (Nat.eqb_spec (shape1 X) (shape0 W)); [lia|].
    reflexivity.
Qed.

(** X4: a batch that does not fit the weights (its width is not the number of
    rows of W), or weights without a class column: on a non-empty batch both
    functions raise ValueError, from the product of line 40 (line 85) or from
    the maximum of line 41 (line 86). *)
Theorem mismatch_raises_value_error (W X : ndarray2) (y : list Z) (reg : R) :
  (0 < shape0 X)%nat → shape1 X ≠ shape0 W ∨ shape1 W = O →
  softmax_loss_naive W X y reg = Raise ValueError ∧
  softmax_loss_vectorized W X y reg = Raise ValueError.
Proof.
  intros HN Hbad. split.
  - exact (naive_value_error W X y reg HN Hbad).
  - exact (vectorized_value_error W X y reg Hbad).
Qed.

Lemma mismatch_raises_value_error_witness :
  (0 < shape0 unit_X)%nat ∧ shape1 unit_X ≠ shape0 (np_zeros 2 2) ∧
  softmax_loss_naive (np_zeros 2 2) unit_X [0%Z] 0 = Raise ValueError ∧
  softmax_loss_vectorized (np_zeros 2 2) unit_X [0%Z] 0 = Raise ValueError.
Proof.
  assert (HN : (0 < shape0 unit_X)%nat) by (cbn; lia).
  assert (HD : shape1 unit_X ≠ shape0 (np_zeros 2 2)) by (cbn; lia).
  split; [exact HN|]. split; [exact HD|].
  exact (mismatch_raises_value_error (np_zeros 2 2) unit_X [0%Z] 0 HN (or_introl HD)).
Defined.

Lemma naive_bad_label (W X : ndarray2) (y : list Z) (reg : R) (k : nat) :
  shape1 X = shape0 W → (0 < shape1 W)%nat → (k < shape0 X)%nat →
  (∀ c, y !! k = Some c →
        (c < - Z.of_nat (shape1 W) ∨ Z.of_nat (shape1 W) <= c)%Z) →
  softmax_loss_naive W X y reg = Raise IndexError.
Proof.
  intros HD HC Hk Hbad.
  apply (naive_loop_raises W X y reg IndexError k Hk).
  - intros i s Hi.
    pose proof (naive_iteration_cases W X y i s HD HC Hi) as Hcase.
    destruct (y !! i) as [c|]; [|right; exact Hcase].
    destruct (decide _); [left|right]; exact Hcase.
  - intros s.
    pose proof (naive_iteration_cases W X y k s HD HC Hk) as Hcase.
    destruct (y !! k) as [c|] eqn:Hc; [|exact Hcase].
    specialize (Hbad c eq_refl).
    destruct (decide _); [lia|exact Hcase].
Qed.

(** X5: on a non-empty batch that fits the weights, a sample without a label
    or with a label that addresses no class (one below -C or from C on)
    makes the naive function raise IndexError (line 43); a label vector that
    cannot be broadcast against the batch or that holds a label that
    addresses no class makes the vectorized function raise IndexError
    (line 89). *)
Theorem bad_labels_raise_index_error (W X : ndarray2) (y : list Z) (reg : R) :
  shape1 X = shape0 W → (0 < shape1 W)%nat → (0 < shape0 X)%nat →
  ((∃ k, (k < shape0 X)%nat ∧
         ∀ c, y !! k = Some c →
              (c < - Z.of_nat (shape1 W) ∨ Z.of_nat (shape1 W) <= c)%Z) →
   softmax_loss_naive W X y reg = Raise IndexError) ∧
  (¬ ((length y = shape0 X ∨ length y = 1%nat ∨ shape0 X = 1%nat) ∧
      Forall (λ c, (- Z.of_nat (shape1 W) <= c < Z.of_nat (shape1 W))%Z) y) →
   softmax_loss_vectorized W X y reg = Raise IndexError).
Proof.
  intros HD HC HN. split.
  - intros (k & Hk & Hbad). exact (naive_bad_label W X y reg k HD HC Hk Hbad).
  - exact (proj2 (vectorized_labels_decide W X y reg HD HC HN)).
Qed.

Lemma bad_labels_raise_index_error_witness :
  shape1 unit_X = shape0 (np_zeros 1 2) ∧ (0 < shape1 (np_zeros 1 2))%nat ∧
  (0 < shape0 unit_X)%nat ∧
  softmax_loss_naive (np_zeros 1 2) unit_X [-3]%Z 0 = Raise IndexError ∧
  softmax_loss_vectorized (np_zeros 1 2) unit_X [-3]%Z 0 = Raise IndexError.
Proof.
  assert (HC : (0 < shape1 (np_zeros 1 2))%nat) by (cbn; lia).
  assert (HN : (0 < shape0 unit_X)%nat) by (cbn; lia).
  split; [reflexivity|]. split; [exact HC|]. split; [exact HN|].
  destruct (bad_labels_raise_index_error (np_zeros 1 2) unit_X [-3]%Z 0
              eq_refl HC HN) as (Hnaive & Hvec).
  split.
  - apply Hnaive. exists O. split; [exact HN|].
    intros c Hc. cbn in Hc. injection Hc as <-. cbn. lia.
  - apply Hvec. intros (_ & Hy). inversion Hy as [|? ? Hc _]; subst.
    cbn in Hc. lia.
Defined.

(** X6: on an empty batch the naive function raises ZeroDivisionError at line
    52 whatever its other arguments are, and the vectorized function, given
    weights that fit and no label, goes on with nan. *)
Theorem empty_batch_outcomes (W X : ndarray2) (y : list Z) (reg : R) :
  shape0 X = O →
  softmax_loss_naive W X y reg = Raise ZeroDivisionError ∧
  (shape1 X = shape0 W → (0 < shape1 W)%nat → y = [] →
   softmax_loss_vectorized W X y reg = NonFinite).
Proof.
  intros HN. split; [exact (naive_empty_batch W X y reg HN)|].
  intros HD HC ->. apply vectorized_empty_batch; assumption.
Qed.

Lemma empty_batch_outcomes_witness :
  shape0 empty_X = O ∧
  softmax_loss_naive (np_zeros 1 3) empty_X [] 1 = Raise ZeroDivisionError ∧
  softmax_loss_vectorized (np_zeros 1 3) empty_X [] 1 = NonFinite.
Proof.
  split; [reflexivity|].
  destruct (empty_batch_outcomes (np_zeros 1 3) empty_X [] 1 eq_refl)
    as (Hnaive & Hvec).
  split; [exact Hnaive|]. apply Hvec; [reflexivity|cbn; lia|reflexivity].
Defined.

(** ** A single label for the whole batch *)

Lemma zip_seq_repeat (c : Z) (a n : nat) :
  zip (seq a n) (repeat c n) = map (λ r, (r, c)) (seq a n).
Proof.
  revert a. induction n as [|n IH]; intros a; [reflexivity|].
  cbn [seq repeat map]. cbn [zip zip_with]. fold (zip (seq (S a) n) (repeat c n)).
  rewrite IH. reflexivity.
Qed.

(** X7: the vectorized function broadcasts a label vector of length one: on a
    non-empty batch it treats [c] as the label of every sample. The naive
    function, which reads y[i], raises IndexError on the same call as soon as
    the batch has a second sample. *)
Theorem vectorized_broadcasts_single_label (W X : ndarray2) (c : Z) (reg : R) :
  (0 < shape0 X)%nat →
  softmax_loss_vectorized W X [c] reg
  = softmax_loss_vectorized W X (repeat c (shape0 X)) reg ∧
  (shape1 X = shape0 W → (0 < shape1 W)%nat → (2 <= shape0 X)%nat →
   softmax_loss_naive W X [c] reg = Raise IndexError).
Proof.
  intros HN. split.
  - apply vectorized_labels_agree.
    destruct (broadcast_range (shape0 X) [c]) as (Hzip & _ & Hcol & _).
    destruct (broadcast_range (shape0 X) (repeat c (shape0 X))) as (Hzip' & _).
    rewrite Hzip' by apply repeat_length. rewrite zip_seq_repeat.
    destruct (Nat.eq_dec (shape0 X) 1%nat) as [H1|H1].
    + rewrite Hzip by (cbn; lia). rewrite H1. reflexivity.
    + rewrite Hcol by (cbn; lia). reflexivity.
  - intros HD HC H2.
    apply (naive_bad_label W X [c] reg 1%nat HD); [lia|lia|].
    intros c' Hc'. discriminate.
Qed.

Lemma vectorized_broadcasts_single_label_witness :
  (0 < shape0 example_X)%nat ∧
  softmax_loss_vectorized example_W example_X [1]%Z 1
  = softmax_loss_vectorized example_W example_X [1; 1]%Z 1 ∧
  softmax_loss_naive example_W example_X [1]%Z 1 = Raise IndexError.
Proof.
  assert (HN : (0 < shape0 example_X)%nat) by (cbn; lia).
  split; [exact HN|].
  destruct (vectorized_broadcasts_single_label example_W example_X 1%Z 1 HN)
    as (Hvec & Hnaive).
  split; [exact Hvec|]. apply Hnaive; [reflexivity|cbn; lia|cbn; lia].
Defined.

(** ** The shape of the gradient *)

(** X8: whenever one of the two functions returns, the gradient it returns has
    the shape of the weights. *)
Theorem gradient_has_shape_of_weights (W X : ndarray2) (y : list Z) (reg : R)
    (loss : xfloat) (dW : ndarray2) :
  softmax_loss_naive W X y reg = Ok (loss, dW) ∨
  softmax_loss_vectorized W X y reg = Ok (loss, dW) →
  shape0 dW = shape0 W ∧ shape1 dW = shape1 W.
Proof.
  intros [Hrun|Hrun].
  - rewrite naive_body_stable, naive_body_loop in Hrun.
    apply bind_ok in Hrun as ([l d] & Hloop & Hrest).
    apply bind_ok in Hrest as (l' & _ & Hrest).
    apply bind_ok in Hrest as (d' & Hdiv & Hrest).
    injection Hrest as _ <-. cbn.
    unfold np_truediv2 in Hdiv.
    destruct (shape0 X =? 0)%nat; [discriminate|]. injection Hdiv as <-. cbn.
    unfold for_range in Hloop.
    apply (for_loop_preserves
      (λ s : xfloat * ndarray2, shape0 s.2 = shape0 W ∧ shape1 s.2 = shape1 W))
      in Hloop; [exact Hloop|split; reflexivity|].
    intros i [l1 d1] [l2 d2] Hstep (H0 & H1). cbn in H0, H1 |- *.
    unfold naive_iteration in Hstep.
    apply bind_ok in Hstep as (Xi & _ & Hstep).
    apply bind_ok in Hstep as (sc & _ & Hstep).
    apply bind_ok in Hstep as (p & _ & Hstep).
    apply bind_ok in Hstep as (c & _ & Hstep).
    apply bind_ok in Hstep as (v & _ & Hstep).
    apply bind_ok in Hstep as (d3 & Hacc & Hstep).
    injection Hstep as _ <-.
    apply accumulate_sample_shape in Hacc as (E0 & E1). split; congruence.
  - rewrite vectorized_body_stable in Hrun. unfold vectorized_body in Hrun.
    apply bind_ok in Hrun as (sc & Hsc & Hrun).
    apply bind_ok in Hrun as (S & HS & Hrun).
    apply bind_ok in Hrun as (picked & _ & Hrun).
    apply bind_ok in Hrun as (S' & HS' & Hrun).
    apply bind_ok in Hrun as (d & Hd & Hrun).
    apply bind_ok in Hrun as (d' & Hdiv & Hrun).
    injection Hrun as _ <-. cbn.
    unfold np_truediv2 in Hdiv.
    destruct (shape0 X =? 0)%nat; [discriminate|]. injection Hdiv as <-. cbn.
    unfold dot2 in Hsc, Hd.
    destruct (Nat.eqb_spec (shape1 X) (shape0 W)) as [HD|]; [|discriminate].
    injection Hsc as <-.
    destruct (shape1 (transpose X) =? shape0 S')%nat; [|discriminate].
    injection Hd as <-. cbn.
    destruct (Nat.eq_dec (shape1 W) O) as [HC|HC].
    { unfold stable_softmax_rows, np_max_axis1 in HS. cbn [shape1] in HS.
      rewrite HC in HS. discriminate. }
    destruct (stable_softmax_rows_returns
                {| shape0 := shape0 X; shape1 := shape1 W;
                   item2 := λ i j, sum_n (λ k, item2 X i k * item2 W k j) (shape0 W) |})
      as (S0 & HS0 & _ & H1 & _); [cbn; lia|].
    rewrite HS0 in HS. injection HS as <-.
    rewrite fancy_isub_spec in HS'. apply bind_ok in HS' as (pairs & _ & HS').
    destruct (forallb _ pairs); [|discriminate]. injection HS' as <-. cbn.
    split; [exact HD|]. cbn in H1. exact H1.
Qed.

Lemma gradient_has_shape_of_weights_witness :
  ∃ loss dW,
    softmax_loss_vectorized example_W example_X example_y 1 = Ok (loss, dW) ∧
    shape0 dW = shape0 example_W ∧ shape1 dW = shape1 example_W.
Proof.
  destruct (vectorized_returns example_W example_X example_y 1 example_valid)
    as (dW & Hrun & _); [cbn; lia|].
  eexists _, dW. split; [exact Hrun|].
  exact (gradient_has_shape_of_weights example_W example_X example_y 1 _ dW
           (or_intror Hrun)).
Defined.

(** ** Regularisation *)

(** X9: the regularisation strength enters at lines 55 and 58 (91 and 96)
    only: it does not change whether and how a call fails, it adds 0.5 reg
    sum(W^2) to the loss and reg W to the gradient. *)
Theorem regularisation_is_additive (W X : ndarray2) (y : list Z) (reg : R) :
  regularised W reg (softmax_loss_naive W X y 0) (softmax_loss_naive W X y reg) ∧
  regularised W reg (softmax_loss_vectorized W X y 0)
    (softmax_loss_vectorized W X y reg).
Proof.
  assert (Hadd : ∀ l : xfloat,
    x_add l (Finite (0.5 * reg * np_sum2 (mul2 W W))) =
    x_add (x_add l (Finite (0.5 * 0 * np_sum2 (mul2 W W))))
      (Finite (0.5 * reg * np_sum2 (mul2 W W)))).
  { intros l. destruct l; cbn; try reflexivity. f_equal. ring. }
  split.
  - rewrite (naive_body_stable W X y 0), (naive_body_stable W X y reg).
    rewrite (naive_body_loop _ W X y 0), (naive_body_loop _ W X y reg).
    destruct (for_range (shape0 X) (Finite 0, np_zeros_like W)
                (naive_iteration stable_softmax W X y)) as [[l d]|e|];
      cbn [mbind outcome_bind regularised]; [|reflexivity|exact I].
    destruct (py_truediv l (shape0 X)) as [l'|e|];
      cbn [mbind outcome_bind regularised]; [|reflexivity|exact I].
    destruct (np_truediv2 d (shape0 X)) as [d'|e|];
      cbn [mbind outcome_bind regularised]; [|reflexivity|exact I].
    split; [apply Hadd|]. split; [reflexivity|]. split; [reflexivity|].
    intros k j. cbn. ring.
  - rewrite (vectorized_body_stable W X y 0), (vectorized_body_stable W X y reg).
    unfold vectorized_body.
    destruct (dot2 X W) as [sc|e|];
      cbn [mbind outcome_bind regularised]; [|reflexivity|exact I].
    destruct (stable_softmax_rows sc) as [S|e|];
      cbn [mbind outcome_bind regularised]; [|reflexivity|exact I].
    destruct (fancy_getitem S (seq 0 (shape0 X)) y) as [picked|e|];
      cbn [mbind outcome_bind regularised]; [|reflexivity|exact I].
    destruct (fancy_isub S (seq 0 (shape0 X)) y 1) as [S'|e|];
      cbn [mbind outcome_bind regularised]; [|reflexivity|exact I].
    destruct (dot2 (transpose X) S') as [d|e|];
      cbn [mbind outcome_bind regularised]; [|reflexivity|exact I].
    destruct (np_truediv2 d (shape0 X)) as [d'|e|];
      cbn [mbind outcome_bind regularised]; [|reflexivity|exact I].
    split; [apply Hadd|]. split; [reflexivity|]. split; [reflexivity|].
    intros k j. cbn. ring.
Qed.


(** ** Probabilities and the sign of the loss *)

Lemma squares_nonneg (W : ndarray2) : 0 <= np_sum2 (mul2 W W).
Proof.
  unfold np_sum2. apply sum_n_nonneg. intros i _.
  apply sum_n_nonneg. intros j _. cbn. nra.
Qed.

Lemma computed_loss_bound (W X : ndarray2) (y : list Z) (reg : R) :
  valid_input W X y → (0 < shape0 X)%nat →
  x_le (Finite (0.5 * reg * np_sum2 (mul2 W W))) (computed_loss W X y reg).
Proof.
  intros Hvalid Hpos.
  pose proof (valid_input_classes W X y Hvalid Hpos) as HC.
  destruct Hvalid as (_ & HN & Hy). unfold computed_loss.
  pose proof (neg_log_sum_nonneg
    (λ i, computed_prob (score W X i) (shape1 W)
            (class_of (shape1 W) (nth i y 0%Z))) (shape0 X)) as Hdata.
  destruct (neg_log_sum _ (shape0 X)) as [r| | |].
  - destruct (shape0 X) as [|n] eqn:HX; [lia|].
    assert (0 <= r).
    { apply Hdata. intros i Hi. apply computed_prob_bounds; [exact HC|].
      destruct (label_in_range y (shape1 W) i Hy ltac:(lia)) as (_ & Hl & ->).
      exact Hl. }
    cbn [x_div_nat x_add x_le].
    assert (0 < INR (S n)) by (apply lt_0_INR; lia).
    assert (0 <= r / INR (S n)).
    { apply Rmult_le_pos; [assumption|]. left. apply Rinv_0_lt_compat. assumption. }
    lra.
  - destruct (shape0 X); exact I.
  - exfalso. apply Hdata. intros i Hi. apply computed_prob_bounds; [exact HC|].
    destruct (label_in_range y (shape1 W) i Hy ltac:(lia)) as (_ & Hl & ->).
    exact Hl.
  - exfalso. apply Hdata. intros i Hi. apply computed_prob_bounds; [exact HC|].
    destruct (label_in_range y (shape1 W) i Hy ltac:(lia)) as (_ & Hl & ->).
    exact Hl.
Qed.

(** X10: on a valid, non-empty batch and with a regularisation strength that
    is not negative, the loss that both functions return is at least the
    penalty 0.5 reg sum(W^2), which is itself not negative: the data term is a
    mean of negative logarithms of probabilities, finite or inf. *)
Theorem loss_is_at_least_the_penalty (W X : ndarray2) (y : list Z) (reg : R) :
  valid_input W X y → (0 < shape0 X)%nat → 0 <= reg →
  ∃ loss dW1 dW2,
    softmax_loss_naive W X y reg = Ok (loss, dW1) ∧
    softmax_loss_vectorized W X y reg = Ok (loss, dW2) ∧
    0 <= 0.5 * reg * np_sum2 (mul2 W W) ∧
    x_le (Finite (0.5 * reg * np_sum2 (mul2 W W))) loss.
Proof.
  intros Hvalid Hpos Hreg.
  destruct (naive_returns W X y reg Hvalid Hpos) as (d1 & Hr1 & _).
  destruct (vectorized_returns W X y reg Hvalid Hpos) as (d2 & Hr2 & _).
  exists (computed_loss W X y reg), d1, d2.
  split; [exact Hr1|]. split; [exact Hr2|]. split.
  - pose proof (squares_nonneg W). nra.
  - apply computed_loss_bound; assumption.
Qed.

Lemma loss_is_at_least_the_penalty_witness :
  valid_input example_W example_X example_y ∧ (0 < shape0 example_X)%nat ∧
  0 <= 1 ∧
  ∃ loss dW1 dW2,
    softmax_loss_naive example_W example_X example_y 1 = Ok (loss, dW1) ∧
    softmax_loss_vectorized example_W example_X example_y 1 = Ok (loss, dW2) ∧
    0 <= 0.5 * 1 * np_sum2 (mul2 example_W example_W) ∧
    x_le (Finite (0.5 * 1 * np_sum2 (mul2 example_W example_W))) loss.
Proof.
  assert (HN : (0 < shape0 example_X)%nat) by (cbn; lia).
  assert (Hreg : 0 <= 1) by lra.
  split; [exact example_valid|]. split; [exact HN|]. split; [exact Hreg|].
  exact (loss_is_at_least_the_penalty example_W example_X example_y 1
           example_valid HN Hreg).
Defined.

Lemma computed_prob_underflow (s : nat → R) (C j : nat) :
  s j - max_upto s (C - 1) <= exp_underflow → computed_prob s C j = 0.
Proof.
  intros Hj. unfold computed_prob. rewrite exp64_below by exact Hj.
  unfold Rdiv. ring.
Qed.

(** X11: lines 41-42 and 86-87 turn every non-empty row of scores into a
    probability distribution: as many items as scores, each from 0 to 1,
    with sum 1 (the sum and the quotients being exact); the probability of
    a score that is 1075 ln 2 or more below the largest one of its row is
    exactly 0, its exponential having underflowed. *)
Theorem stable_softmax_is_distribution (scores : ndarray1) (S : ndarray2) :
  (0 < len scores)%nat → (0 < shape1 S)%nat →
  (∃ p, stable_softmax scores = Ok p ∧ len p = len scores ∧
        (∀ j, (j < len p)%nat → 0 <= item1 p j <= 1) ∧ np_sum p = 1 ∧
        (∀ j, item1 scores j - max_upto (item1 scores) (len scores - 1)
              <= exp_underflow → item1 p j = 0)) ∧
  (∃ P, stable_softmax_rows S = Ok P ∧
        shape0 P = shape0 S ∧ shape1 P = shape1 S ∧
        (∀ i j, (j < shape1 P)%nat → 0 <= item2 P i j <= 1) ∧
        (∀ i, item1 (np_sum_axis1 P) i = 1) ∧
        (∀ i j, item2 S i j - max_upto (item2 S i) (shape1 S - 1)
                <= exp_underflow → item2 P i j = 0)).
Proof.
  intros Hlen Hcols. split.
  - destruct (stable_softmax_returns scores Hlen) as (p & Hp & Hl & Hitems).
    exists p. split; [exact Hp|]. split; [exact Hl|]. split; [|split].
    + intros j Hj. rewrite Hitems. apply computed_prob_bounds; lia.
    + unfold np_sum. rewrite Hl.
      rewrite (sum_n_ext _ (computed_prob (item1 scores) (len scores)))
        by (intros; apply Hitems).
      apply computed_prob_sum. exact Hlen.
    + intros j Hj. rewrite Hitems. apply computed_prob_underflow, Hj.
  - destruct (stable_softmax_rows_returns S Hcols) as (P & HP & H0 & H1 & Hitems).
    exists P. split; [exact HP|]. split; [exact H0|]. split; [exact H1|].
    split; [|split].
    + intros i j Hj. rewrite Hitems. apply computed_prob_bounds; lia.
    + intros i. cbn. rewrite H1.
      rewrite (sum_n_ext _ (computed_prob (item2 S i) (shape1 S)))
        by (intros; apply Hitems).
      apply computed_prob_sum. exact Hcols.
    + intros i j Hj. rewrite Hitems. apply computed_prob_underflow, Hj.
Qed.

Lemma stable_softmax_is_distribution_witness :
  (0 < len (of_list [0; -1000]%R))%nat ∧ (0 < shape1 example_W)%nat ∧
  (∃ p, stable_softmax (of_list [0; -1000]) = Ok p ∧ np_sum p = 1 ∧
        item1 p 1 = 0) ∧
  (∃ P, stable_softmax_rows example_W = Ok P ∧
        ∀ i, item1 (np_sum_axis1 P) i = 1).
Proof.
  assert (Hlen : (0 < len (of_list [0; -1000]%R))%nat) by (cbn; lia).
  assert (Hcols : (0 < shape1 example_W)%nat) by (cbn; lia).
  split; [exact Hlen|]. split; [exact Hcols|].
  destruct (stable_softmax_is_distribution (of_list [0; -1000]) example_W
              Hlen Hcols)
    as ((p & Hp & _ & _ & Hsum & Hzero) & (P & HP & _ & _ & _ & Hrows & _)).
  split; [exists p|exists P; split; assumption].
  split; [exact Hp|]. split; [exact Hsum|].
  apply Hzero. cbn. rewrite Rmax_left by lra.
  unfold exp_underflow. pose proof ln2_lt. lra.
Defined.

(** ** The two functions fail alike *)

(** X12: on a non-empty batch with one label per sample, none of them
    negative, the two functions have the same outcome whatever the shapes
    and the labels are: both raise ValueError (shapes that do not fit, no
    class), both raise IndexError (a label that is not a class), or both
    return the same loss and gradient. *)
Theorem naive_vectorized_same_outcome (W X : ndarray2) (y : list Z) (reg : R) :
  (0 < shape0 X)%nat → length y = shape0 X → Forall (λ c, (0 <= c)%Z) y →
  same_result (softmax_loss_naive W X y reg) (softmax_loss_vectorized W X y reg).
Proof.
  intros HN Hlen Hnonneg.
  destruct (Nat.eq_dec (shape1 X) (shape0 W)) as [HD|HD].
  2:{ rewrite naive_value_error, vectorized_value_error by auto. reflexivity. }
  destruct (Nat.eq_dec (shape1 W) O) as [HC|HC].
  { rewrite naive_value_error, vectorized_value_error by auto. reflexivity. }
  destruct (decide (Forall (λ c, (0 <= c < Z.of_nat (shape1 W))%Z) y)) as [Hy|Hy].
  - assert (Hvalid : valid_input W X y) by (split; [|split]; assumption).
    destruct (naive_returns W X y reg Hvalid HN) as (d1 & -> & H0 & H1 & Hitems).
    destruct (vectorized_returns W X y reg Hvalid HN)
      as (d2 & -> & H0' & H1' & Hitems').
    cbn. split; [reflexivity|]. split; [congruence|]. split; [congruence|].
    intros k j _ Hj. rewrite Hitems, Hitems' by lia. reflexivity.
  - apply not_Forall_Exists in Hy; [|intros c; apply _].
    apply Exists_exists in Hy as (c & Hin & Hc). cbn in Hc.
    pose proof (proj1 (Forall_forall _ y) Hnonneg c Hin) as Hc0. cbn in Hc0.
    rewrite (proj2 (vectorized_labels_decide W X y reg HD ltac:(lia) HN)).
    2:{ intros (_ & Hgood).
        pose proof (proj1 (Forall_forall _ y) Hgood c Hin) as Hc1. cbn in Hc1.
        lia. }
    apply list_elem_of_lookup in Hin as (k & Hk).
    rewrite (naive_bad_label W X y reg k HD); [reflexivity|lia| |].
    + apply lookup_lt_Some in Hk. lia.
    + intros c' Hc'. rewrite Hk in Hc'. injection Hc' as <-. lia.
Qed.

Lemma naive_vectorized_same_outcome_witness :
  (0 < shape0 unit_X)%nat ∧ length [5%Z] = shape0 unit_X ∧
  Forall (λ c, (0 <= c)%Z) [5%Z] ∧
  same_result (softmax_loss_naive (np_zeros 1 2) unit_X [5%Z] 0)
              (softmax_loss_vectorized (np_zeros 1 2) unit_X [5%Z] 0).
Proof.
  assert (HN : (0 < shape0 unit_X)%nat) by (cbn; lia).
  assert (Hy : Forall (λ c, (0 <= c)%Z) [5%Z]) by (repeat constructor; lia).
  split; [exact HN|]. split; [reflexivity|]. split; [exact Hy|].
  exact (naive_vectorized_same_outcome (np_zeros 1 2) unit_X [5%Z] 0 HN eq_refl Hy).
Defined.

(** ** Labels that count from the end *)

Lemma sum_n_minus (f g : nat → R) (n : nat) :
  sum_n (λ i, f i - g i) n = sum_n f n - sum_n g n.
Proof. induction n as [|n IH]; cbn; [|rewrite IH]; ring. Qed.

(** X22: a negative label counts from the end (line 43 and line 89 index the
    probabilities with it), so that on a non-empty batch with one label per
    sample, each from -C to C-1, both functions return, with the same loss;
    their gradients differ by the samples with a negative label: line 93
    decrements the probability of the class that the label addresses, line
    45 compares the class with the label itself and never decrements. *)
Theorem negative_labels_count_from_the_end (W X : ndarray2) (y : list Z) (reg : R) :
  shape1 X = shape0 W → (0 < shape0 X)%nat → length y = shape0 X →
  Forall (λ c, (- Z.of_nat (shape1 W) <= c < Z.of_nat (shape1 W))%Z) y →
  ∃ dW1 dW2,
    softmax_loss_naive W X y reg = Ok (computed_loss W X y reg, dW1) ∧
    softmax_loss_vectorized W X y reg = Ok (computed_loss W X y reg, dW2) ∧
    ∀ k j, (j < shape1 W)%nat →
      item2 dW1 k j = naive_grad W X y reg k j ∧
      item2 dW2 k j = vectorized_grad W X y reg k j ∧
      item2 dW1 k j - item2 dW2 k j =
      sum_n (λ i, (indicator j (class_of (shape1 W) (nth i y 0%Z))
                   - (if (Z.of_nat j =? nth i y 0%Z)%Z then 1 else 0))
                  * item2 X i k) (shape0 X) / INR (shape0 X).
Proof.
  intros HD HN Hlen Hy.
  destruct (naive_returns_computed W X y reg HD HN) as (d1 & Hr1 & _ & _ & Hd1).
  { intros i Hi. destruct (lookup_lt_is_Some_2 y i ltac:(lia)) as [c Hc].
    exists c. split; [exact Hc|]. exact (proj1 (Forall_lookup _ y) Hy i c Hc). }
  destruct (vectorized_returns_computed W X y reg HD HN Hlen Hy)
    as (d2 & Hr2 & _ & _ & Hd2).
  exists d1, d2. split; [exact Hr1|]. split; [exact Hr2|].
  intros k j Hj. rewrite Hd1, Hd2 by exact Hj.
  split; [reflexivity|]. split; [reflexivity|].
  unfold naive_grad, vectorized_grad.
  rewrite (sum_n_ext
    (λ i, (indicator j (class_of (shape1 W) (nth i y 0%Z))
           - (if (Z.of_nat j =? nth i y 0%Z)%Z then 1 else 0)) * item2 X i k)
    (λ i, (computed_prob (score W X i) (shape1 W) j
           - (if (Z.of_nat j =? nth i y 0%Z)%Z then 1 else 0)) * item2 X i k
          - (computed_prob (score W X i) (shape1 W) j
             - indicator j (class_of (shape1 W) (nth i y 0%Z))) * item2 X i k))
    by (intros; ring).
  rewrite sum_n_minus. unfold Rdiv. ring.
Qed.

Lemma negative_labels_count_from_the_end_witness :
  shape1 unit_X = shape0 (np_zeros 1 2) ∧ (0 < shape0 unit_X)%nat ∧
  length [-1]%Z = shape0 unit_X ∧
  ∃ loss dW1 dW2,
    softmax_loss_naive (np_zeros 1 2) unit_X [-1]%Z 0 = Ok (loss, dW1) ∧
    softmax_loss_vectorized (np_zeros 1 2) unit_X [-1]%Z 0 = Ok (loss, dW2) ∧
    item2 dW1 0 1 - item2 dW2 0 1 = 1.
Proof.
  assert (HN : (0 < shape0 unit_X)%nat) by (cbn; lia).
  split; [reflexivity|]. split; [exact HN|]. split; [reflexivity|].
  destruct (negative_labels_count_from_the_end (np_zeros 1 2) unit_X [-1]%Z 0
              eq_refl HN eq_refl) as (d1 & d2 & Hr1 & Hr2 & Hd).
  { repeat constructor; cbn; lia. }
  eexists _, d1, d2. split; [exact Hr1|]. split; [exact Hr2|].
  destruct (Hd O 1%nat) as (_ & _ & ->); [cbn; lia|].
  cbn [shape0 shape1 np_zeros unit_X of_rows length sum_n nth].
  change (class_of 2 (-1)) with 1%nat.
  change (Z.of_nat 1 =? -1)%Z with false.
  unfold indicator. cbn. field.
Defined.

(** ** A single class *)

Lemma single_class_prob (s : nat → R) : softmax_prob s 1 0 = 1.
Proof.
  unfold softmax_prob. simpl. pose proof (exp_pos (s O)). field. lra.
Qed.

Lemma single_class_no_underflow (W X : ndarray2) :
  shape1 W = 1%nat → no_underflow W X.
Proof.
  intros HC i j Hi Hj. rewrite HC in *. assert (j = O) as -> by lia.
  cbn [Nat.sub max_upto].
  replace (score W X i 0 - score W X i 0) with 0 by ring.
  exact exp_underflow_neg.
Qed.


Lemma single_class_valid : valid_input (np_zeros 1 1) unit_X [0%Z].
Proof.
  unfold valid_input. cbn. split; [reflexivity|]. split; [reflexivity|].
  repeat constructor; lia.
Qed.



(** ** The returned gradient against the returned loss *)

Lemma max_upto_close (f g : nat → R) (eps : R) (n : nat) :
  (∀ c, (c <= n)%nat → g c - eps <= f c <= g c + eps) →
  max_upto g n - eps <= max_upto f n <= max_upto g n + eps.
Proof.
  induction n as [|n IH]; intros Hfg; cbn [max_upto].
  - apply Hfg. lia.
  - specialize (IH ltac:(intros; apply Hfg; lia)).
    pose proof (Hfg (S n) ltac:(lia)).
    unfold Rmax. repeat destruct (Rle_dec _ _); lra.
Qed.

(** Probabilities in the normal range keep every shifted score at least
    53 ln 2 above the point where the exponential underflows. *)
Lemma normal_margin (W X : ndarray2) (i j : nat) :
  normal_probabilities W X → (i < shape0 X)%nat → (j < shape1 W)%nat →
  - 1022 * ln 2 <= score W X i j - max_upto (score W X i) (shape1 W - 1).
Proof.
  intros Hnormal Hi Hj.
  pose proof (Hnormal i j Hi Hj) as Hp.
  pose proof (softmax_prob_le_shifted (score W X i) (shape1 W) j ltac:(lia)) as Hle.
  rewrite min_normal_exp in Hp.
  destruct (Rle_dec (- 1022 * ln 2)
              (score W X i j - max_upto (score W X i) (shape1 W - 1)))
    as [Hge|Hlt]; [exact Hge|].
  apply Rnot_le_lt, exp_increasing in Hlt. lra.
Qed.

Lemma shift_bound (B x d L : R) :
  0 < L → Rabs x <= B → Rabs d < L / (B + 1) → Rabs (x * d) <= L.
Proof.
  intros HL Hx Hd. rewrite Rabs_mult.
  pose proof (Rabs_pos x). pose proof (Rabs_pos d).
  set (q := L / (B + 1)) in *.
  assert (Hq : q * (B + 1) = L) by (unfold q; field; lra).
  assert (0 < q) by (unfold q; apply Rdiv_lt_0_compat; lra).
  nra.
Qed.

(** Around weights with probabilities in the normal range no exponential
    underflows. *)
Lemma set_item_no_underflow (W X : ndarray2) (k j : nat) :
  normal_probabilities W X → (k < shape0 W)%nat →
  ∃ delta, 0 < delta ∧
    ∀ t, Rabs (t - item2 W k j) < delta → no_underflow (set_item W k j t) X.
Proof.
  intros Hnormal Hk.
  set (B := sum_n (λ i, Rabs (item2 X i k)) (shape0 X)).
  assert (HB : 0 <= B) by (apply sum_n_nonneg; intros; apply Rabs_pos).
  pose proof ln2_pos as Hln.
  exists (26 * ln 2 / (B + 1)). split; [apply Rdiv_lt_0_compat; lra|].
  intros t Ht i c Hi Hc. cbn [shape1 set_item] in Hc |- *.
  set (eps := Rabs (item2 X i k * (t - item2 W k j))).
  assert (Heps : eps <= 26 * ln 2).
  { apply (shift_bound B); [lra| |exact Ht].
    exact (sum_n_ge_term (λ i, Rabs (item2 X i k)) (shape0 X) i
             ltac:(intros; apply Rabs_pos) Hi). }
  assert (Hclose : ∀ c', score W X i c' - eps <= score (set_item W k j t) X i c'
                         <= score W X i c' + eps).
  { intros c'. rewrite score_set_item by exact Hk. unfold eps.
    pose proof (Rabs_pos (item2 X i k * (t - item2 W k j))).
    pose proof (Rle_abs (item2 X i k * (t - item2 W k j))).
    pose proof (Rle_abs (- (item2 X i k * (t - item2 W k j)))) as Hneg.
    rewrite Rabs_Ropp in Hneg.
    destruct (c' =? j)%nat; lra. }
  pose proof (max_upto_close (score (set_item W k j t) X i) (score W X i) eps
                (shape1 W - 1) ltac:(intros; apply Hclose)) as Hmax.
  pose proof (normal_margin W X i c Hnormal Hi Hc) as Hmargin.
  pose proof (Hclose c). unfold exp_underflow. lra.
Qed.

(** X14: on a valid, non-empty batch on which every softmax probability is
    a normal float64 (at least 2^-1022), every item of the gradient that a
    function returns is the derivative, in the weight of that item, of the
    loss that the same function returns: what a numerical gradient check of
    either function approximates (the arithmetic on finite floats being
    exact). *)
Theorem gradient_is_derivative_of_returned_loss (W X : ndarray2) (y : list Z)
    (reg : R) (k j : nat) :
  valid_input W X y → (0 < shape0 X)%nat → normal_probabilities W X →
  (k < shape0 W)%nat → (j < shape1 W)%nat →
  ∃ loss1 dW1 loss2 dW2,
    softmax_loss_naive W X y reg = Ok (loss1, dW1) ∧
    softmax_loss_vectorized W X y reg = Ok (loss2, dW2) ∧
    derivable_pt_lim
      (λ t, returned_loss (softmax_loss_naive (set_item W k j t) X y reg))
      (item2 W k j) (item2 dW1 k j) ∧
    derivable_pt_lim
      (λ t, returned_loss (softmax_loss_vectorized (set_item W k j t) X y reg))
      (item2 W k j) (item2 dW2 k j).
Proof.
  intros Hvalid HN Hnormal Hk Hj.
  pose proof (normal_no_underflow W X Hnormal) as Hno.
  destruct (naive_returns_exact W X y reg Hvalid HN Hno)
    as (d1 & Hr1 & _ & _ & Hi1).
  destruct (vectorized_returns_exact W X y reg Hvalid HN Hno)
    as (d2 & Hr2 & _ & _ & Hi2).
  eexists _, d1, _, d2. split; [exact Hr1|]. split; [exact Hr2|].
  pose proof (cross_entropy_grad_is_derivative W X y reg k j Hvalid HN Hk Hj)
    as Hderiv.
  destruct (set_item_no_underflow W X k j Hnormal Hk) as (delta & Hdelta & Hnear).
  assert (Hvalid' : ∀ t, valid_input (set_item W k j t) X y) by (intros t; exact Hvalid).
  assert (Hin : ∀ t, item2 W k j - delta < t < item2 W k j + delta →
                     no_underflow (set_item W k j t) X).
  { intros t Ht. apply Hnear. apply Rabs_def1; lra. }
  rewrite Hi1, Hi2 by exact Hj. split.
  - apply (derivable_pt_lim_locally_ext
             (λ t, cross_entropy_loss (set_item W k j t) X y reg) _ _
             (item2 W k j - delta) (item2 W k j + delta)); [lra| |exact Hderiv].
    intros t Ht. cbn beta.
    destruct (naive_returns_exact (set_item W k j t) X y reg (Hvalid' t) HN
                (Hin t Ht)) as (d & -> & _).
    reflexivity.
  - apply (derivable_pt_lim_locally_ext
             (λ t, cross_entropy_loss (set_item W k j t) X y reg) _ _
             (item2 W k j - delta) (item2 W k j + delta)); [lra| |exact Hderiv].
    intros t Ht. cbn beta.
    destruct (vectorized_returns_exact (set_item W k j t) X y reg (Hvalid' t) HN
                (Hin t Ht)) as (d & -> & _).
    reflexivity.
Qed.

Lemma gradient_is_derivative_of_returned_loss_witness :
  valid_input example_W example_X example_y ∧ (0 < shape0 example_X)%nat ∧
  normal_probabilities example_W example_X ∧
  (0 < shape0 example_W)%nat ∧ (1 < shape1 example_W)%nat ∧
  ∃ loss dW,
    softmax_loss_vectorized example_W example_X example_y 1 = Ok (loss, dW) ∧
    derivable_pt_lim
      (λ t, returned_loss
              (softmax_loss_vectorized (set_item example_W 0 1 t)
                 example_X example_y 1))
      (item2 example_W 0 1) (item2 dW 0 1).
Proof.
  assert (HN : (0 < shape0 example_X)%nat) by (cbn; lia).
  assert (Hk : (0 < shape0 example_W)%nat) by (cbn; lia).
  assert (Hj : (1 < shape1 example_W)%nat) by (cbn; lia).
  split; [exact example_valid|]. split; [exact HN|].
  split; [exact example_normal|]. split; [exact Hk|]. split; [exact Hj|].
  destruct (gradient_is_derivative_of_returned_loss example_W example_X
              example_y 1 O 1%nat example_valid HN example_normal Hk Hj)
    as (l1 & d1 & l2 & d2 & _ & Hrun & _ & Hderiv).
  exists l2, d2. split; [exact Hrun|exact Hderiv].
Defined.

(** Without the condition on the probabilities the gradient is not the
    derivative of the returned loss.  On the weights [[0, -1000]], the
    sample [[1]] and the label 1 the loss returned is inf, and it is inf for
    every second weight near -1000 (the exponential underflows all along):
    the returned loss has no slope there, while the gradient item returned
    for that weight is -1. *)
Lemma gradient_check_needs_normal_probabilities :
  valid_input low_W unit_X [1%Z] ∧ (0 < shape0 unit_X)%nat ∧
  ¬ normal_probabilities low_W unit_X ∧
  ∃ dW, softmax_loss_naive low_W unit_X [1%Z] 0 = Ok (PosInf, dW) ∧
        item2 dW 0 1 = - 1 ∧
        ¬ derivable_pt_lim
            (λ t, returned_loss
                    (softmax_loss_naive (set_item low_W 0 1 t) unit_X [1%Z] 0))
            (item2 low_W 0 1) (item2 dW 0 1).
Proof.
  split; [exact low_valid|]. split; [cbn; lia|]. split.
  { intros Hnormal.
    pose proof (normal_no_underflow _ _ Hnormal 0%nat 1%nat) as Hno.
    cbn [shape0 shape1 unit_X low_W of_rows length] in Hno.
    specialize (Hno ltac:(lia) ltac:(lia)).
    pose proof ln2_lt.
    assert (H0 : score low_W unit_X 0 0 = 0) by (unfold score; cbn; lra).
    assert (H1 : score low_W unit_X 0 1 = - 1000) by (unfold score; cbn; lra).
    cbn [Nat.sub max_upto] in Hno. rewrite H0, H1, Rmax_left in Hno by lra.
    unfold exp_underflow in Hno. lra. }
  destruct (naive_returns low_W unit_X [1%Z] 0 low_valid)
    as (dW & Hrun & _ & _ & Hitems); [cbn; lia|].
  rewrite low_loss in Hrun. exists dW. split; [exact Hrun|].
  assert (Hitem : item2 dW 0 1 = - 1).
  { rewrite Hitems by (cbn; lia). unfold vectorized_grad.
    cbn [shape0 shape1 unit_X low_W of_rows length sum_n nth].
    change (class_of 2 1) with 1%nat. rewrite low_prob.
    unfold indicator. cbn. lra. }
  split; [exact Hitem|]. rewrite Hitem.
  change (item2 low_W 0 1) with (- 1000).
  intros Hderiv.
  assert (Hinf : ∀ t, - 1001 < t < - 999.9 →
    returned_loss (softmax_loss_naive (set_item low_W 0 1 t) unit_X [1%Z] 0) = 0).
  { intros t Ht.
    destruct (naive_returns (set_item low_W 0 1 t) unit_X [1%Z] 0)
      as (d & Hrun' & _); [|cbn; lia|].
    { unfold valid_input. cbn. repeat split; repeat constructor; lia. }
    rewrite Hrun'. unfold returned_loss.
    assert (computed_loss (set_item low_W 0 1 t) unit_X [1%Z] 0 = PosInf) as ->;
      [|reflexivity].
    unfold computed_loss.
    cbn [shape0 shape1 unit_X low_W set_item of_rows length neg_log_sum nth].
    change (class_of 2 1) with 1%nat.
    rewrite computed_prob_underflow.
    - unfold x_log. destruct (Req_dec_T 0 0) as [_|Hne]; [reflexivity|].
      exfalso. apply Hne. reflexivity.
    - assert (H0 : score (set_item low_W 0 1 t) unit_X 0 0 = 0)
        by (unfold score; cbn; lra).
      assert (H1 : score (set_item low_W 0 1 t) unit_X 0 1 = t)
        by (unfold score; cbn; lra).
      cbn [Nat.sub max_upto]. rewrite H0, H1, Rmax_left by lra.
      pose proof ln2_lt. unfold exp_underflow. lra. }
  pose proof (derivable_pt_lim_locally_ext _ (λ _, 0) (- 1000) (- 1001)
                (- 999.9) (- 1) ltac:(lra) Hinf Hderiv) as Hconst.
  pose proof (uniqueness_limite _ _ _ _ Hconst
                (derivable_pt_lim_const 0 (- 1000))).
  lra.
Qed.


(** ** The constructor of the network *)

Section Constructor.
Local Open Scope Z_scope.
Import ThreeLayerConvNet.

Lemma randn_returns (dims : list Z) (g : rng_state) (r : tensor) (g' : rng_state) :
  randn dims g = Ok (r, g') → shape_of r = dims ∧ dtype_of r = float64.
Proof.
  unfold randn. destruct (forallb (Z.leb 0) dims); [|discriminate].
  intros [= <- _]. split; reflexivity.
Qed.

Lemma randn_ok (dims : list Z) (g : rng_state) :
  Forall (λ d, 0 <= d) dims → ∃ r g', randn dims g = Ok (r, g').
Proof.
  intros Hdims. unfold randn.
  assert (forallb (Z.leb 0) dims = true) as ->; [|eauto].
  apply forallb_forall. intros d Hd. apply Z.leb_le.
  rewrite Forall_forall in Hdims. apply Hdims. apply list_elem_of_In. exact Hd.
Qed.

Lemma np_zeros1_ok (n : Z) : 0 <= n → ∃ z, np_zeros1 n = Ok z.
Proof.
  intros Hn. unfold np_zeros1. destruct (Z.leb_spec 0 n); [eauto|lia].
Qed.

(** The loop of lines 66-67 casts every entry and keeps the keys. *)
Lemma astype_loop (d : np_dtype) (m : gmap string tensor) :
  map_fold (λ k v params, <[k := astype d v]> params) m m = astype d <$> m.
Proof.
  assert (Hgen : ∀ m0 m' : gmap string tensor,
    map_fold (λ k v params, <[k := astype d v]> params) m0 m'
    = (astype d <$> m') ∪ m0).
  { intros m0 m'. revert m'.
    apply (map_fold_weak_ind (λ r m', r = (astype d <$> m') ∪ m0)).
    - rewrite fmap_empty, (left_id_L ∅ (∪)). reflexivity.
    - intros k v m' r _ ->. rewrite fmap_insert, insert_union_l. reflexivity. }
  rewrite Hgen. apply map_eq. intros k.
  rewrite lookup_union, lookup_fmap.
  destruct (m !! k); reflexivity.
Qed.

(** An integer of at most 53 bits is a float64: line 56 is then the exact
    integer quotient. *)
Lemma float_of_int_small (n : Z) : 0 <= n < 2 ^ 53 → float_of_int n = n.
Proof.
  intros Hn. unfold float_of_int. rewrite Z.abs_eq by lia.
  assert (Hbits : Z.log2 n + 1 - 53 <= 0).
  { destruct (Z.eq_dec n 0) as [->|Hne]; [cbn; lia|].
    assert (Z.log2 n < 53) by (apply Z.log2_lt_pow2; lia). lia. }
  rewrite Z.max_l by exact Hbits. unfold round_to_even.
  change (2 ^ 0) with 1. rewrite Z.div_1_r, Z.mod_1_r.
  change (2 * 0 <? 1) with true. cbn match.
  destruct (Z.eq_dec n 0) as [->|Hne]; [reflexivity|].
  rewrite Z.sgn_pos by lia. lia.
Qed.

Lemma int_of_quarter_small (n : Z) :
  0 <= n < 2 ^ 53 → int_of_quarter n = Ok (Z.quot n 4).
Proof.
  intros Hn. unfold int_of_quarter. rewrite float_of_int_small by exact Hn.
  destruct (Z.leb_spec (2 ^ 1026) (Z.abs n)) as [Hbig|_]; [|reflexivity].
  exfalso. assert (2 ^ 53 < 2 ^ 1026) by (apply Z.pow_lt_mono_r; lia). lia.
Qed.

Lemma hidden_input_width_small (H W num_filters : Z) :
  0 <= H * W < 2 ^ 53 →
  hidden_input_width H W num_filters = Ok (Z.quot (H * W) 4 * num_filters).
Proof.
  intros Hn. unfold hidden_input_width.
  rewrite int_of_quarter_small by exact Hn. reflexivity.
Qed.

(** Line 56 returns, or raises OverflowError. *)
Lemma hidden_input_width_cases (H W num_filters : Z) :
  hidden_input_width H W num_filters =
  if 2 ^ 1026 <=? Z.abs (float_of_int (H * W))
  then Raise OverflowError
  else Ok (Z.quot (float_of_int (H * W)) 4 * num_filters).
Proof.
  unfold hidden_input_width, int_of_quarter.
  destruct (2 ^ 1026 <=? Z.abs (float_of_int (H * W))); reflexivity.
Qed.

(** What the constructor has built when it returns. *)
Lemma init_returns_params (C H W num_filters filter_size hidden_dim num_classes : Z)
    (weight_scale reg : R) (dtype : np_dtype) (g : rng_state)
    (net : ThreeLayerConvNet.t) (g' : rng_state) :
  __init__ (C, H, W) num_filters filter_size hidden_dim num_classes
    weight_scale reg dtype g = Ok (net, g') →
  ∃ rows t1 z1 t2 z2 t3 z3,
    hidden_input_width H W num_filters = Ok rows ∧
    params net = astype dtype <$>
      (<["b3" := z3]> (<["W3" := t3]> (<["b2" := z2]> (<["W2" := t2]>
        (<["b1" := z1]> (<["W1" := t1]> ∅)))))) ∧
    shape_of t1 = [num_filters; C; filter_size; filter_size] ∧
    shape_of t2 = [rows; hidden_dim] ∧
    shape_of t3 = [hidden_dim; num_classes] ∧
    ThreeLayerConvNet.reg net = reg ∧ ThreeLayerConvNet.dtype net = dtype.
Proof.
  unfold __init__.
  destruct (randn [num_filters; C; filter_size; filter_size] g)
    as [[r1 g1]| |] eqn:H1; cbn; try discriminate.
  destruct (np_zeros1 num_filters) as [z1| |]; cbn; try discriminate.
  destruct (hidden_input_width H W num_filters) as [rows| |]; cbn;
    try discriminate.
  destruct (randn [rows; hidden_dim] g1)
    as [[r2 g2]| |] eqn:H2; cbn; try discriminate.
  destruct (np_zeros1 hidden_dim) as [z2| |]; cbn; try discriminate.
  destruct (randn [hidden_dim; num_classes] g2)
    as [[r3 g3]| |] eqn:H3; cbn; try discriminate.
  destruct (np_zeros1 num_classes) as [z3| |]; cbn; try discriminate.
  intros [= <- _]. cbn. rewrite astype_loop.
  exists rows, (scale weight_scale r1), z1, (scale weight_scale r2), z2,
         (scale weight_scale r3), z3.
  apply randn_returns in H1 as [H1 _], H2 as [H2 _], H3 as [H3 _].
  repeat split; assumption.
Qed.

Lemma init_keys (C H W num_filters filter_size hidden_dim num_classes : Z)
    (weight_scale reg : R) (dtype : np_dtype) (g : rng_state)
    (net : ThreeLayerConvNet.t) (g' : rng_state) :
  __init__ (C, H, W) num_filters filter_size hidden_dim num_classes
    weight_scale reg dtype g = Ok (net, g') →
  dom (params net) = parameter_keys.
Proof.
  intros Hinit.
  apply init_returns_params in Hinit
    as (rows & t1 & z1 & t2 & z2 & t3 & z3 & _ & -> & _).
  rewrite dom_fmap_L, !dom_insert_L, dom_empty_L.
  unfold parameter_keys. set_solver.
Qed.

Lemma init_weight_shapes
    (C H W num_filters filter_size hidden_dim num_classes : Z)
    (weight_scale reg : R) (dtype : np_dtype) (g : rng_state)
    (net : ThreeLayerConvNet.t) (g' : rng_state) :
  __init__ (C, H, W) num_filters filter_size hidden_dim num_classes
    weight_scale reg dtype g = Ok (net, g') →
  ∃ rows w2 w3,
    hidden_input_width H W num_filters = Ok rows ∧
    params net !! "W2" = Some w2 ∧
    shape_of w2 = [rows; hidden_dim] ∧
    params net !! "W3" = Some w3 ∧
    shape_of w3 = [hidden_dim; num_classes].
Proof.
  intros Hinit.
  apply init_returns_params in Hinit
    as (rows & t1 & z1 & t2 & z2 & t3 & z3 & Hrows & -> & _ & Ht2 & Ht3 & _).
  exists rows, (astype dtype t2), (astype dtype t3).
  rewrite !lookup_fmap. repeat split; try assumption; reflexivity.
Qed.

(** The constructor returns when no dimension is negative and H W has at
    most 53 bits. *)
Lemma init_ok (C H W num_filters filter_size hidden_dim num_classes : Z)
    (weight_scale reg : R) (dtype : np_dtype) (g : rng_state) :
  0 <= C → 0 <= H * W < 2 ^ 53 → 0 <= num_filters → 0 <= filter_size →
  0 <= hidden_dim → 0 <= num_classes →
  ∃ net g', __init__ (C, H, W) num_filters filter_size hidden_dim num_classes
              weight_scale reg dtype g = Ok (net, g').
Proof.
  intros HC HHW HF Hfs Hh Hn. unfold __init__.
  destruct (randn_ok [num_filters; C; filter_size; filter_size] g)
    as (r1 & g1 & ->); [repeat constructor; assumption|]. cbn.
  destruct (np_zeros1_ok num_filters HF) as (z1 & ->). cbn.
  rewrite hidden_input_width_small by exact HHW. cbn.
  destruct (randn_ok [Z.quot (H * W) 4 * num_filters; hidden_dim] g1)
    as (r2 & g2 & ->).
  { repeat constructor; [|assumption].
    apply Z.mul_nonneg_nonneg; [|assumption].
    apply Z.quot_pos; lia. }
  cbn. destruct (np_zeros1_ok hidden_dim Hh) as (z2 & ->). cbn.
  destruct (randn_ok [hidden_dim; num_classes] g2)
    as (r3 & g3 & ->); [repeat constructor; assumption|]. cbn.
  destruct (np_zeros1_ok num_classes Hn) as (z3 & ->). cbn.
  eauto.
Qed.
End Constructor.

(** ** The parameters after construction (C10) *)

Section ConstructorProperties.
Local Open Scope Z_scope.
Import ThreeLayerConvNet.

(** C10: after the constructor returns, the parameter mapping has exactly
    the six keys W1, b1, W2, b2, W3, b3 and every one of its tensors has the
    dtype passed to the constructor (the initialisation arithmetic itself
    produces float64). *)
Theorem init_keys_and_dtype
    (C H W num_filters filter_size hidden_dim num_classes : Z)
    (weight_scale reg : R) (dtype : np_dtype) (g : rng_state)
    (net : ThreeLayerConvNet.t) (g' : rng_state) :
  __init__ (C, H, W) num_filters filter_size hidden_dim num_classes
    weight_scale reg dtype g = Ok (net, g') →
  dom (params net) = parameter_keys ∧
  ∀ k v, params net !! k = Some v → dtype_of v = dtype.
Proof.
  intros Hinit. split; [exact (init_keys _ _ _ _ _ _ _ _ _ _ _ _ _ Hinit)|].
  apply init_returns_params in Hinit
    as (rows & t1 & z1 & t2 & z2 & t3 & z3 & _ & Hparams & _).
  rewrite Hparams.
  - intros k v Hk. rewrite lookup_fmap in Hk.
    destruct (_ !! k) as [v'|]; [|discriminate].
    injection Hk as <-. reflexivity.
Qed.

Lemma init_keys_and_dtype_witness :
  ∃ net g',
    __init__ (3, 32, 32) 32 7 100 10 1 0 float32 example_rng = Ok (net, g') ∧
    dom (params net) = parameter_keys ∧
    ∀ k v, params net !! k = Some v → dtype_of v = float32.
Proof.
  destruct (init_ok 3 32 32 32 7 100 10 1 0 float32 example_rng)
    as (net & g' & Hinit); [lia..|].
  exists net, g'. split; [exact Hinit|].
  exact (init_keys_and_dtype _ _ _ _ _ _ _ _ _ _ _ _ _ Hinit).
Defined.
End ConstructorProperties.

(** ** The constructor: when it returns and what it draws *)

Section ConstructorOutcomes.
Local Open Scope Z_scope.
Import ThreeLayerConvNet.

Lemma randn_raises (dims : list Z) (g : rng_state) :
  ¬ Forall (λ d, 0 <= d) dims → randn dims g = Raise ValueError.
Proof.
  intros Hdims. unfold randn.
  destruct (forallb (Z.leb 0) dims) eqn:Hb; [|reflexivity].
  exfalso. apply Hdims. apply Forall_forall. intros d Hd.
  apply Z.leb_le. rewrite forallb_forall in Hb. apply Hb.
  apply list_elem_of_In. exact Hd.
Qed.

Lemma np_zeros1_raises (n : Z) : n < 0 → np_zeros1 n = Raise ValueError.
Proof.
  intros Hn. unfold np_zeros1. destruct (Z.leb_spec 0 n); [lia|reflexivity].
Qed.

(** The constructor returns when line 56 delivers a row count and no
    dimension is negative. *)
Lemma init_returns_when
    (C H W num_filters filter_size hidden_dim num_classes rows : Z)
    (weight_scale reg : R) (dtype : np_dtype) (g : rng_state) :
  0 <= num_filters → 0 <= C → 0 <= filter_size →
  hidden_input_width H W num_filters = Ok rows → 0 <= rows →
  0 <= hidden_dim → 0 <= num_classes →
  ∃ net g', __init__ (C, H, W) num_filters filter_size hidden_dim num_classes
              weight_scale reg dtype g = Ok (net, g').
Proof.
  intros HF HC Hfs Hrows Hw Hh Hn. unfold __init__.
  destruct (randn_ok [num_filters; C; filter_size; filter_size] g)
    as (r1 & g1 & ->); [repeat constructor; assumption|]. cbn.
  destruct (np_zeros1_ok num_filters HF) as (z1 & ->). cbn.
  rewrite Hrows. cbn.
  destruct (randn_ok [rows; hidden_dim] g1)
    as (r2 & g2 & ->); [repeat constructor; assumption|].
  cbn. destruct (np_zeros1_ok hidden_dim Hh) as (z2 & ->). cbn.
  destruct (randn_ok [hidden_dim; num_classes] g2)
    as (r3 & g3 & ->); [repeat constructor; assumption|]. cbn.
  destruct (np_zeros1_ok num_classes Hn) as (z3 & ->). cbn.
  eauto.
Qed.

(** The float64 quotient of line 56 beyond 53 bits: for H = 2^53 + 1 and
    W = 4 the count is 2^53, not 2^53 + 1. *)
Lemma hidden_input_width_rounds :
  hidden_input_width (2 ^ 53 + 1) 4 1 = Ok 9007199254740992 ∧
  Z.quot ((2 ^ 53 + 1) * 4) 4 * 1 = 9007199254740993.
Proof. split; vm_compute; reflexivity. Qed.

(** X15: with arrays of unbounded size (no allocation fails, and numpy's
    limit on the number of items of an array is not met), the constructor
    returns exactly when none of the dimensions that it passes to [randn]
    and [np.zeros] is negative and the float64 quotient H W / 4 of line 56
    is finite.  When the dimensions of W1 are not negative and the quotient is
    not finite it raises OverflowError, and in every other case
    ValueError. *)
Theorem init_returns_exactly
    (C H W num_filters filter_size hidden_dim num_classes : Z)
    (weight_scale reg : R) (dtype : np_dtype) (g : rng_state) :
  (0 <= num_filters ∧ 0 <= C ∧ 0 <= filter_size ∧
   Z.abs (float_of_int (H * W)) < 2 ^ 1026 ∧
   0 <= Z.quot (float_of_int (H * W)) 4 * num_filters ∧
   0 <= hidden_dim ∧ 0 <= num_classes →
   ∃ net g', __init__ (C, H, W) num_filters filter_size hidden_dim num_classes
               weight_scale reg dtype g = Ok (net, g')) ∧
  (0 <= num_filters ∧ 0 <= C ∧ 0 <= filter_size ∧
   2 ^ 1026 <= Z.abs (float_of_int (H * W)) →
   __init__ (C, H, W) num_filters filter_size hidden_dim num_classes
     weight_scale reg dtype g = Raise OverflowError) ∧
  (¬ (0 <= num_filters ∧ 0 <= C ∧ 0 <= filter_size) ∨
   Z.abs (float_of_int (H * W)) < 2 ^ 1026 ∧
   ¬ (0 <= Z.quot (float_of_int (H * W)) 4 * num_filters ∧
      0 <= hidden_dim ∧ 0 <= num_classes) →
   __init__ (C, H, W) num_filters filter_size hidden_dim num_classes
     weight_scale reg dtype g = Raise ValueError).
Proof.
  split; [|split].
  - intros (HF & HC & Hfs & Hfin & Hw & Hh & Hn).
    apply (init_returns_when C H W num_filters filter_size hidden_dim
             num_classes (Z.quot (float_of_int (H * W)) 4 * num_filters));
      try assumption.
    rewrite hidden_input_width_cases.
    destruct (Z.leb_spec (2 ^ 1026) (Z.abs (float_of_int (H * W))));
      [lia|reflexivity].
  - intros (HF & HC & Hfs & Hbig). unfold __init__.
    destruct (randn_ok [num_filters; C; filter_size; filter_size] g)
      as (r1 & g1 & ->); [repeat constructor; assumption|]. cbn.
    destruct (np_zeros1_ok num_filters HF) as (z1 & ->). cbn.
    rewrite hidden_input_width_cases.
    destruct (Z.leb_spec (2 ^ 1026) (Z.abs (float_of_int (H * W))));
      [reflexivity|lia].
  - intros Hbad. unfold __init__.
    destruct (decide (Forall (λ d, 0 <= d)
                [num_filters; C; filter_size; filter_size])) as [H1|H1].
    2:{ rewrite (randn_raises _ g H1). reflexivity. }
    destruct (randn_ok _ g H1) as (r1 & g1 & ->). cbn.
    inversion H1 as [|? ? HF H1']; subst.
    inversion H1' as [|? ? HC H1'']; subst.
    inversion H1'' as [|? ? Hfs _]; subst.
    destruct Hbad as [Hbad|(Hfin & Hbad)]; [tauto|].
    destruct (np_zeros1_ok num_filters HF) as (z1 & ->). cbn.
    rewrite hidden_input_width_cases.
    destruct (Z.leb_spec (2 ^ 1026) (Z.abs (float_of_int (H * W))));
      [lia|]. cbn.
    destruct (decide (Forall (λ d, 0 <= d)
                [Z.quot (float_of_int (H * W)) 4 * num_filters; hidden_dim]))
      as [H2|H2].
    2:{ rewrite (randn_raises _ g1 H2). reflexivity. }
    destruct (randn_ok _ g1 H2) as (r2 & g2 & ->). cbn.
    inversion H2 as [|? ? Hw H2']; subst.
    inversion H2' as [|? ? Hh _]; subst.
    destruct (np_zeros1_ok hidden_dim Hh) as (z2 & ->). cbn.
    destruct (decide (0 <= num_classes)) as [Hn|Hn]; [tauto|].
    rewrite randn_raises; [reflexivity|].
    intros H3. inversion H3 as [|? ? _ H3']; subst.
    inversion H3' as [|? ? Hn' _]; subst. contradiction.
Qed.

(** What the constructor has drawn and stored when it returns. *)
Lemma init_returns_values
    (C H W num_filters filter_size hidden_dim num_classes : Z)
    (weight_scale reg : R) (dtype : np_dtype) (g : rng_state)
    (net : ThreeLayerConvNet.t) (g' : rng_state) :
  __init__ (C, H, W) num_filters filter_size hidden_dim num_classes
    weight_scale reg dtype g = Ok (net, g') →
  ∃ rows,
  hidden_input_width H W num_filters = Ok rows ∧
  let n1 := Z.to_nat (num_filters * (C * (filter_size * (filter_size * 1)))) in
  let n2 := Z.to_nat (rows * (hidden_dim * 1)) in
  let n3 := Z.to_nat (hidden_dim * (num_classes * 1)) in
  let draw := λ (first n : nat),
    map (λ i, (weight_scale * samples g (first + i)%nat)%R) (seq 0 n) in
  params net !! "W1" =
    Some (Tensor dtype [num_filters; C; filter_size; filter_size]
            (draw (position g) n1)) ∧
  params net !! "W2" =
    Some (Tensor dtype [rows; hidden_dim] (draw (position g + n1)%nat n2)) ∧
  params net !! "W3" =
    Some (Tensor dtype [hidden_dim; num_classes]
            (draw (position g + n1 + n2)%nat n3)) ∧
  params net !! "b1" =
    Some (Tensor dtype [num_filters] (repeat 0%R (Z.to_nat num_filters))) ∧
  params net !! "b2" =
    Some (Tensor dtype [hidden_dim] (repeat 0%R (Z.to_nat hidden_dim))) ∧
  params net !! "b3" =
    Some (Tensor dtype [num_classes] (repeat 0%R (Z.to_nat num_classes))) ∧
  g' = {| samples := samples g; position := (position g + n1 + n2 + n3)%nat |} ∧
  0 <= num_filters ∧ 0 <= C ∧ 0 <= filter_size ∧ 0 <= rows ∧
  0 <= hidden_dim ∧ 0 <= num_classes.
Proof.
  unfold __init__, randn, np_zeros1.
  destruct (forallb (Z.leb 0) [num_filters; C; filter_size; filter_size])
    eqn:F1; cbn [mbind outcome_bind]; [|discriminate].
  destruct (0 <=? num_filters); cbn [mbind outcome_bind]; [|discriminate].
  destruct (hidden_input_width H W num_filters) as [rows| |];
    cbn [mbind outcome_bind]; try discriminate.
  destruct (forallb (Z.leb 0) [rows; hidden_dim]) eqn:F2;
    cbn [mbind outcome_bind]; [|discriminate].
  destruct (0 <=? hidden_dim); cbn [mbind outcome_bind]; [|discriminate].
  destruct (forallb (Z.leb 0) [hidden_dim; num_classes]) eqn:F3;
    cbn [mbind outcome_bind]; [|discriminate].
  destruct (0 <=? num_classes); cbn [mbind outcome_bind]; [|discriminate].
  intros [= <- <-]. cbn [params]. rewrite astype_loop.
  exists rows. split; [reflexivity|].
  rewrite !lookup_fmap.
  cbn [forallb] in F1, F2, F3.
  repeat match goal with
         | E : _ && _ = true |- _ => apply andb_true_iff in E as [? ?]
         end.
  repeat match goal with
         | E : (_ <=? _) = true |- _ => apply Z.leb_le in E
         end.
  repeat split; try assumption; simplify_map_eq; cbn; unfold astype, scale; cbn;
    rewrite ?map_map; reflexivity.
Qed.
End ConstructorOutcomes.

Section ConstructorValues.
Local Open Scope Z_scope.
Import ThreeLayerConvNet.

(** X16: after the constructor has returned, the three weights have the shapes
    (F, C, f, f), (rows, hidden) and (hidden, classes), where rows is
    int(H W / 4) F with H W / 4 the float64 quotient (the float64 nearest to
    H W, divided by 4 and truncated: the integer quotient when H W has at
    most 53 bits), and the three biases the shapes (F,), (hidden,) and
    (classes,); every parameter holds as many items as its shape says, and
    every item of a bias is zero. *)
Theorem init_shapes_and_biases
    (C H W num_filters filter_size hidden_dim num_classes : Z)
    (weight_scale reg : R) (dtype : np_dtype) (g : rng_state)
    (net : ThreeLayerConvNet.t) (g' : rng_state) :
  __init__ (C, H, W) num_filters filter_size hidden_dim num_classes
    weight_scale reg dtype g = Ok (net, g') →
  ∃ rows W1 b1 W2 b2 W3 b3,
    (hidden_input_width H W num_filters = Ok rows ∧
     rows = Z.quot (float_of_int (H * W)) 4 * num_filters ∧
     (0 <= H * W < 2 ^ 53 → rows = Z.quot (H * W) 4 * num_filters)) ∧
    (params net !! "W1" = Some W1 ∧ params net !! "b1" = Some b1 ∧
     params net !! "W2" = Some W2 ∧ params net !! "b2" = Some b2 ∧
     params net !! "W3" = Some W3 ∧ params net !! "b3" = Some b3) ∧
    (shape_of W1 = [num_filters; C; filter_size; filter_size] ∧
     shape_of W2 = [rows; hidden_dim] ∧
     shape_of W3 = [hidden_dim; num_classes] ∧
     shape_of b1 = [num_filters] ∧ shape_of b2 = [hidden_dim] ∧
     shape_of b3 = [num_classes]) ∧
    Forall well_formed [W1; b1; W2; b2; W3; b3] ∧
    Forall (λ b, Forall (λ x, x = 0%R) (data_of b)) [b1; b2; b3].
Proof.
  intros Hinit.
  destruct (init_returns_values _ _ _ _ _ _ _ _ _ _ _ _ _ Hinit)
    as (rows & Hrows & E1 & E2 & E3 & E4 & E5 & E6 & _ & HF & HC & Hfs & Hw
        & Hh & Hn).
  eexists rows, _, _, _, _, _, _. split; [split; [exact Hrows|split]|].
  - rewrite hidden_input_width_cases in Hrows.
    destruct (2 ^ 1026 <=? _); [discriminate|]. congruence.
  - intros Hsmall. rewrite hidden_input_width_small in Hrows by exact Hsmall.
    congruence.
  - split; [repeat split; eassumption|].
    split; [repeat split|]. split.
    + repeat constructor; cbn [data_of shape_of]; try assumption;
        unfold size_of; cbn [fold_right];
        rewrite ?length_map, ?length_seq, ?repeat_length, ?Z.mul_1_r;
        reflexivity.
    + repeat constructor; cbn [data_of]; apply Forall_forall; intros x Hx;
        apply list_elem_of_In, repeat_spec in Hx; exact Hx.
Qed.

(** X17: the weights are the samples of the random generator in the order in
    which the constructor draws them, times [weight_scale]: W1 takes the first
    samples, W2 the next ones, W3 the ones after these; no sample is used
    twice, the biases draw none, and the generator is left behind the last
    sample drawn. *)
Theorem init_weights_from_generator
    (C H W num_filters filter_size hidden_dim num_classes : Z)
    (weight_scale reg : R) (dtype : np_dtype) (g : rng_state)
    (net : ThreeLayerConvNet.t) (g' : rng_state) :
  __init__ (C, H, W) num_filters filter_size hidden_dim num_classes
    weight_scale reg dtype g = Ok (net, g') →
  ∃ W1 W2 W3,
    params net !! "W1" = Some W1 ∧ params net !! "W2" = Some W2 ∧
    params net !! "W3" = Some W3 ∧
    (∀ i, (i < length (data_of W1))%nat →
       data_of W1 !! i = Some (weight_scale * samples g (position g + i)%nat)%R) ∧
    (∀ i, (i < length (data_of W2))%nat →
       data_of W2 !! i =
       Some (weight_scale *
             samples g (position g + length (data_of W1) + i)%nat)%R) ∧
    (∀ i, (i < length (data_of W3))%nat →
       data_of W3 !! i =
       Some (weight_scale *
             samples g (position g + length (data_of W1)
                        + length (data_of W2) + i)%nat)%R) ∧
    samples g' = samples g ∧
    position g' = (position g + length (data_of W1) + length (data_of W2)
                   + length (data_of W3))%nat.
Proof.
  intros Hinit.
  destruct (init_returns_values _ _ _ _ _ _ _ _ _ _ _ _ _ Hinit)
    as (rows & _ & E1 & E2 & E3 & _ & _ & _ & -> & _).
  eexists _, _, _. split; [exact E1|]. split; [exact E2|]. split; [exact E3|].
  cbn [data_of samples position]. rewrite !length_map, !length_seq.
  assert (Hdraw : ∀ first n i, (i < n)%nat →
    map (λ i, (weight_scale * samples g (first + i)%nat)%R) (seq 0 n) !! i
    = Some (weight_scale * samples g (first + i)%nat)%R).
  { intros first n i Hi. rewrite list_lookup_fmap, lookup_seq_lt by exact Hi.
    reflexivity. }
  repeat split; intros; apply Hdraw; assumption.
Qed.
End ConstructorValues.

(** ** Sums of squares and sums of arrays *)

Section Tensors.

Lemma fold_left_Rplus (l : list R) (a : R) :
  fold_left Rplus l a = a + sum_n (λ i, nth i l 0) (length l).
Proof.
  induction l as [|x l IH] using rev_ind; [cbn; ring|].
  rewrite fold_left_app, length_app, Nat.add_1_r. cbn [fold_left sum_n].
  rewrite IH, nth_middle.
  rewrite (sum_n_ext (λ i, nth i (l ++ [x]) 0) (λ i, nth i l 0)); [ring|].
  intros i Hi. apply app_nth1. exact Hi.
Qed.

(** [np.sum(W ** 2)] is the sum of the squares of the items. *)
Lemma sum_squares_spec (t : tensor) : sum_squares t = sum_of_squares t.
Proof.
  unfold sum_squares, sum_of_squares.
  rewrite fold_left_Rplus, length_map, Rplus_0_l.
  apply sum_n_ext. intros i Hi.
  rewrite (nth_indep _ 0 ((λ x, x * x) 0)) by (rewrite length_map; exact Hi).
  rewrite (map_nth (λ x, x * x)). ring.
Qed.

Lemma sum_of_squares_full (d : np_dtype) (shape : list Z) (x : R) :
  sum_of_squares (full_of d shape x) = INR (size_of shape) * x ^ 2.
Proof.
  unfold sum_of_squares, full_of. cbn [data_of]. rewrite repeat_length.
  rewrite <- sum_n_const. apply sum_n_ext. intros i Hi.
  rewrite nth_repeat_lt by exact Hi. reflexivity.
Qed.

Lemma broadcast_axes_same (r : list Z) : broadcast_axes r r = Some r.
Proof.
  induction r as [|d r IH]; [reflexivity|]. cbn. rewrite IH.
  destruct (decide (d = d)); [reflexivity|contradiction].
Qed.

Lemma broadcast_shape_same (s : list Z) : broadcast_shape s s = Some s.
Proof.
  unfold broadcast_shape. rewrite broadcast_axes_same, rev_involutive.
  reflexivity.
Qed.

(** On the axes of the array itself the position read is the position
    written. *)
Lemma ravel_unravel (axes : list nat) (pos : nat) :
  (pos < fold_right Nat.mul 1 axes)%nat → ravel axes (unravel axes pos) = pos.
Proof.
  revert pos. induction axes as [|d axes IH]; intros pos Hpos.
  - cbn in *. lia.
  - cbn [fold_right] in Hpos. cbn [unravel ravel].
    assert (Hd : d ≠ O) by (intros ->; cbn in Hpos; lia).
    rewrite IH by (apply Nat.Div0.div_lt_upper_bound; exact Hpos).
    assert ((if (d =? 1)%nat then O else pos mod d) = pos mod d)%nat as ->.
    { destruct (Nat.eqb_spec d 1) as [->|_]; [|reflexivity].
      rewrite Nat.mod_1_r. reflexivity. }
    rewrite (Nat.div_mod_eq pos d) at 3. lia.
Qed.

Lemma product_nonneg (s : list Z) :
  Forall (λ d, (0 <= d)%Z) s → (0 <= fold_right Z.mul 1 s)%Z.
Proof.
  induction 1 as [|d s Hd _ IH]; cbn; [lia|].
  apply Z.mul_nonneg_nonneg; assumption.
Qed.

Lemma size_of_dims (s : list Z) :
  Forall (λ d, (0 <= d)%Z) s → size_of s = fold_right Nat.mul 1%nat (dims s).
Proof.
  unfold size_of. induction 1 as [|d s Hd Hs IH]; [reflexivity|].
  cbn [fold_right dims map].
  rewrite Z2Nat.inj_mul by (try apply product_nonneg; assumption).
  rewrite IH. reflexivity.
Qed.

Lemma product_app (l1 l2 : list nat) :
  fold_right Nat.mul 1%nat (l1 ++ l2)
  = (fold_right Nat.mul 1 l1 * fold_right Nat.mul 1 l2)%nat.
Proof.
  induction l1 as [|d l1 IH]; cbn [fold_right app]; [lia|].
  rewrite IH. lia.
Qed.

Lemma product_rev (l : list nat) :
  fold_right Nat.mul 1%nat (rev l) = fold_right Nat.mul 1%nat l.
Proof.
  induction l as [|d l IH]; [reflexivity|].
  cbn [rev]. rewrite product_app, IH. cbn [fold_right]. lia.
Qed.

Lemma map_seq_zip_with (l1 l2 : list R) (n : nat) :
  length l1 = n → length l2 = n →
  map (λ i, nth i l1 0 + nth i l2 0) (seq 0 n) = zip_with Rplus l1 l2.
Proof.
  intros H1 H2. apply list_eq. intros i.
  rewrite list_lookup_fmap, lookup_zip_with.
  destruct (decide (i < n)%nat) as [Hi|Hi].
  - rewrite lookup_seq_lt by exact Hi.
    destruct (lookup_lt_is_Some_2 l1 i) as [x Hx]; [lia|].
    destruct (lookup_lt_is_Some_2 l2 i) as [z Hz]; [lia|].
    rewrite Hx, Hz. cbn.
    rewrite (nth_lookup_Some _ _ _ _ Hx), (nth_lookup_Some _ _ _ _ Hz).
    reflexivity.
  - rewrite lookup_seq_ge by lia. cbn.
    rewrite (lookup_ge_None_2 l1) by lia. reflexivity.
Qed.

(** The sum of two arrays of one shape: the shape is kept and the items are
    added one by one. *)
Lemma tensor_add_same_shape (a b : tensor) :
  shape_of a = shape_of b → well_formed a → well_formed b →
  tensor_add a b =
  Ok {| dtype_of := promote (dtype_of a) (dtype_of b);
        shape_of := shape_of a;
        data_of := zip_with Rplus (data_of a) (data_of b) |}.
Proof.
  intros Hshape [Hpos Ha] [_ Hb]. unfold tensor_add.
  rewrite <- Hshape, broadcast_shape_same. f_equal. f_equal.
  rewrite <- (map_seq_zip_with _ _ (size_of (shape_of a)))
    by (rewrite ?Hb, <- ?Hshape; congruence).
  apply map_ext_in. intros pos Hpos'. apply in_seq in Hpos'.
  unfold broadcast_item. rewrite <- Hshape.
  rewrite ravel_unravel; [reflexivity|].
  rewrite product_rev, <- size_of_dims by exact Hpos. lia.
Qed.

Lemma scale_well_formed (c : R) (t : tensor) :
  well_formed t → well_formed (scale c t).
Proof.
  intros [Hpos Hlen]. split; [exact Hpos|].
  cbn [scale data_of shape_of]. rewrite length_map. exact Hlen.
Qed.

Lemma full_of_well_formed (d : np_dtype) (shape : list Z) (x : R) :
  Forall (λ d, (0 <= d)%Z) shape → well_formed (full_of d shape x).
Proof.
  intros Hpos. split; [exact Hpos|]. cbn [full_of data_of shape_of].
  apply repeat_length.
Qed.

(** [dW + reg * W] for a gradient of the shape of its weight. *)
Lemma regularised_gradient (dW W g : tensor) (c : R) :
  tensor_add dW (scale c W) = Ok g →
  shape_of dW = shape_of W → well_formed dW → well_formed W →
  shape_of g = shape_of W ∧
  data_of g = zip_with Rplus (data_of dW) (map (Rmult c) (data_of W)).
Proof.
  intros Hadd Hshape HdW HW.
  rewrite tensor_add_same_shape in Hadd;
    [|exact Hshape|exact HdW|apply scale_well_formed; exact HW].
  injection Hadd as <-. split; [exact Hshape|reflexivity].
Qed.

(** numpy's broadcasting on small arrays: a row is added to every row of a
    matrix, a column to every column, a scalar array to every item, and
    shapes that do not go together raise ValueError. *)
Lemma tensor_add_broadcasts :
  let m := Tensor float32 [2; 3]%Z [1; 2; 3; 4; 5; 6] in
  tensor_add m (Tensor float32 [3]%Z [10; 20; 30])
  = Ok (Tensor float32 [2; 3]%Z
          [1 + 10; 2 + 20; 3 + 30; 4 + 10; 5 + 20; 6 + 30]) ∧
  tensor_add m (Tensor float64 [2; 1]%Z [10; 20])
  = Ok (Tensor float64 [2; 3]%Z
          [1 + 10; 2 + 10; 3 + 10; 4 + 20; 5 + 20; 6 + 20]) ∧
  tensor_add (Tensor float64 [2; 1]%Z [10; 20]) (Tensor float32 [3]%Z [1; 2; 3])
  = Ok (Tensor float64 [2; 3]%Z
          [10 + 1; 10 + 2; 10 + 3; 20 + 1; 20 + 2; 20 + 3]) ∧
  tensor_add m (Tensor float32 []%Z [7])
  = Ok (Tensor float32 [2; 3]%Z [1 + 7; 2 + 7; 3 + 7; 4 + 7; 5 + 7; 6 + 7]) ∧
  tensor_add m (Tensor float32 [2]%Z [10; 20]) = Raise ValueError ∧
  tensor_add m (Tensor float32 [3; 2]%Z [1; 2; 3; 4; 5; 6]) = Raise ValueError.
Proof. repeat split. Qed.
End Tensors.

(** ** The forward and the training call (C4, C3) *)

Section LossProperties.
Context `{L : Layers}.
Import ThreeLayerConvNet.

Lemma getkey_ok (d : gmap string tensor) (k : string) (v : tensor) :
  d !! k = Some v → getkey d k = Ok v.
Proof. intros Hk. unfold getkey. rewrite Hk. reflexivity. Qed.

(** The forward pass of [loss], whatever [y] is. *)
Lemma loss_forward (self : ThreeLayerConvNet.t) (X : tensor)
    (y : option (list Z)) (f : forward_run) :
  forward_returns self X f →
  loss self X y =
  match y with
  | None => Ok (Scores (scores f))
  | Some y =>
      '(loss, dout) ← softmax_loss (scores f) y;
      '(dout3, dW3, db3) ← affine_backward dout (cache3 f);
      let grads := <["b3" := db3]> (<["W3" := dW3]> (∅ : gmap string tensor)) in
      dout2_relu ← relu_backward dout3 (cache2_relu f);
      '(dout2, dW2, db2) ← affine_backward dout2_relu (cache2 f);
      let grads := <["b2" := db2]> (<["W2" := dW2]> grads) in
      '(dout1, dW1, db1) ← conv_relu_pool_backward dout2 (cache1 f);
      let grads := <["b1" := db1]> (<["W1" := dW1]> grads) in
      g ← getkey grads "W3";
      g ← tensor_add g (scale (reg self) (W3 f));
      let grads := <["W3" := g]> grads in
      g ← getkey grads "W2";
      g ← tensor_add g (scale (reg self) (W2 f));
      let grads := <["W2" := g]> grads in
      g ← getkey grads "W1";
      g ← tensor_add g (scale (reg self) (W1 f));
      let grads := <["W1" := g]> grads in
      Ok (LossAndGrads
            (loss + reg self * 0.5 *
                    (sum_squares (W1 f) + sum_squares (W2 f) + sum_squares (W3 f)))
            grads)
  end.
Proof.
  intros (H1 & H2 & H3 & H4 & H5 & H6 & Hfs & Hconv & Haff & Hrelu & Hout).
  unfold loss.
  rewrite (getkey_ok _ _ _ H1), (getkey_ok _ _ _ H2), (getkey_ok _ _ _ H3),
    (getkey_ok _ _ _ H4), (getkey_ok _ _ _ H5), (getkey_ok _ _ _ H6). cbn.
  unfold shape_index. rewrite Hfs. cbn.
  rewrite Hconv. cbn. rewrite Haff. cbn. rewrite Hrelu. cbn. rewrite Hout. cbn.
  destruct y; reflexivity.
Qed.

Lemma getkey_inv (d : gmap string tensor) (k : string) (v : tensor) :
  getkey d k = Ok v → d !! k = Some v.
Proof. unfold getkey. destruct (d !! k); [congruence|discriminate]. Qed.

Lemma shape_index_inv (t : tensor) (i : nat) (d : Z) :
  shape_index t i = Ok d → shape_of t !! i = Some d.
Proof. unfold shape_index. destruct (_ !! i); [congruence|discriminate]. Qed.

(** Whenever [loss] returns, its forward pass has returned. *)
Lemma loss_returns_forward (self : ThreeLayerConvNet.t) (X : tensor)
    (y : option (list Z)) (r : loss_result) :
  loss self X y = Ok r → ∃ f, forward_returns self X f.
Proof.
  unfold loss. intros H.
  apply bind_ok in H as (vW1 & H1 & H). apply getkey_inv in H1.
  apply bind_ok in H as (vb1 & H2 & H). apply getkey_inv in H2.
  apply bind_ok in H as (vW2 & H3 & H). apply getkey_inv in H3.
  apply bind_ok in H as (vb2 & H4 & H). apply getkey_inv in H4.
  apply bind_ok in H as (vW3 & H5 & H). apply getkey_inv in H5.
  apply bind_ok in H as (vb3 & H6 & H). apply getkey_inv in H6.
  apply bind_ok in H as (fs & Hfs & H). apply shape_index_inv in Hfs.
  apply bind_ok in H as ([o1 c1] & Hconv & H).
  apply bind_ok in H as ([o2 c2] & Haff & H).
  apply bind_ok in H as ([o2r c2r] & Hrelu & H).
  apply bind_ok in H as ([sc c3] & Hout & H).
  exists (Build_forward_run _ vW1 vb1 vW2 vb2 vW3 vb3 fs o1 c1 o2 c2 o2r c2r sc c3).
  repeat split; assumption.
Qed.

(** A network has one forward run on a batch. *)
Lemma forward_run_unique (self : ThreeLayerConvNet.t) (X : tensor)
    (f f' : forward_run) :
  forward_returns self X f → forward_returns self X f' → f = f'.
Proof.
  destruct f, f'. unfold forward_returns. cbn.
  intros (H1 & H2 & H3 & H4 & H5 & H6 & Hfs & Hconv & Haff & Hrelu & Hout)
         (H1' & H2' & H3' & H4' & H5' & H6' & Hfs' & Hconv' & Haff' & Hrelu' & Hout').
  rewrite H1 in H1'. injection H1' as <-.
  rewrite H2 in H2'. injection H2' as <-.
  rewrite H3 in H3'. injection H3' as <-.
  rewrite H4 in H4'. injection H4' as <-.
  rewrite H5 in H5'. injection H5' as <-.
  rewrite H6 in H6'. injection H6' as <-.
  rewrite Hfs in Hfs'. injection Hfs' as <-.
  rewrite Hconv in Hconv'. injection Hconv' as <- <-.
  rewrite Haff in Haff'. injection Haff' as <- <-.
  rewrite Hrelu in Hrelu'. injection Hrelu' as <- <-.
  rewrite Hout in Hout'. injection Hout' as <- <-.
  reflexivity.
Qed.

(** Under the shape contract the scores have one row per image and one
    column per column of W3. *)
Lemma scores_shape (self : ThreeLayerConvNet.t) (X : tensor) (f : forward_run)
    (N rows2 hidden_dim rows3 num_classes : Z) :
  forward_returns self X f → forward_contract →
  shape_of X !! O = Some N →
  shape_of (W2 f) = [rows2; hidden_dim] →
  shape_of (W3 f) = [rows3; num_classes] →
  shape_of (scores f) = [N; num_classes].
Proof.
  intros Hf [Hbatch Hshape Hrelu_shape] HN HW2 HW3.
  destruct Hf as (_ & _ & _ & _ & _ & _ & _ & Hconv & Haff & Hrelu & Hout).
  apply Hbatch in Hconv. rewrite HN in Hconv.
  pose proof (Hshape _ _ _ _ _ N rows2 hidden_dim Haff Hconv HW2) as Hout2.
  apply Hrelu_shape in Hrelu. rewrite Hout2 in Hrelu.
  apply (Hshape _ _ _ _ _ N rows3 num_classes Hout); [|exact HW3].
  rewrite Hrelu. reflexivity.
Qed.

(** C4: [loss(X)] without labels returns exactly when the layers of the
    forward pass return, and then it returns the scores alone, as the last
    affine layer delivered them (no softmax is applied to them); under the
    conventional shape contract of the layers, for a batch of N images and a
    network whose weights W2 and W3 are matrices, W3 with numClasses
    columns, as they are in every network that the constructor has built
    for numClasses classes, the scores have the shape (N, numClasses). *)
Theorem loss_without_labels (self : ThreeLayerConvNet.t) (X : tensor)
    (r : loss_result) :
  (loss self X None = Ok r ↔
   ∃ f, forward_returns self X f ∧ r = Scores (scores f)) ∧
  (∀ f N rows2 hidden_dim rows3 num_classes,
     forward_returns self X f → forward_contract →
     shape_of X !! O = Some N →
     shape_of (W2 f) = [rows2; hidden_dim] →
     shape_of (W3 f) = [rows3; num_classes] →
     shape_of (scores f) = [N; num_classes]) ∧
  (∀ C H W num_filters filter_size hidden_dim num_classes weight_scale reg
     dtype g g' f N,
     __init__ (C, H, W) num_filters filter_size hidden_dim num_classes
       weight_scale reg dtype g = Ok (self, g') →
     forward_returns self X f → forward_contract →
     shape_of X !! O = Some N →
     shape_of (scores f) = [N; num_classes]).
Proof.
  split; [split|split].
  - intros Hrun. destruct (loss_returns_forward _ _ _ _ Hrun) as (f & Hf).
    exists f. split; [exact Hf|].
    rewrite (loss_forward self X None f Hf) in Hrun. congruence.
  - intros (f & Hf & ->). exact (loss_forward self X None f Hf).
  - intros f N rows2 hidden_dim rows3 num_classes.
    apply scores_shape.
  - intros C H W num_filters filter_size hidden_dim num_classes weight_scale
      rg dt g g' f N Hinit Hf Hcontract HN.
    destruct (init_weight_shapes _ _ _ _ _ _ _ _ _ _ _ _ _ Hinit)
      as (rows & w2 & w3 & _ & Hw2 & Hs2 & Hw3 & Hs3).
    pose proof Hf as (_ & _ & H2 & _ & H3 & _).
    rewrite Hw2 in H2. injection H2 as ->.
    rewrite Hw3 in H3. injection H3 as ->.
    exact (scores_shape self X f N _ _ _ _ Hf Hcontract HN Hs2 Hs3).
Qed.

Lemma gradient_mapping_entries (b : backward_run) (g1 g2 g3 : tensor) :
  dom (gradient_mapping b g1 g2 g3) = parameter_keys ∧
  gradient_mapping b g1 g2 g3 !! "W1" = Some g1 ∧
  gradient_mapping b g1 g2 g3 !! "W2" = Some g2 ∧
  gradient_mapping b g1 g2 g3 !! "W3" = Some g3 ∧
  gradient_mapping b g1 g2 g3 !! "b1" = Some (db1 b) ∧
  gradient_mapping b g1 g2 g3 !! "b2" = Some (db2 b) ∧
  gradient_mapping b g1 g2 g3 !! "b3" = Some (db3 b).
Proof.
  unfold gradient_mapping. split.
  - rewrite !dom_insert_L, dom_empty_L. unfold parameter_keys. set_solver.
  - repeat split; by simplify_map_eq.
Qed.

(** C3: the training call [loss(X, y)] returns exactly when the layers of
    the forward and of the backward pass return and numpy can add reg times
    each weight to the gradient that the backward pass delivered for it
    (the two arrays are broadcast against each other).  It then returns the
    loss of the softmax layer on the forward scores plus
    0.5 reg (sum W1^2 + sum W2^2 + sum W3^2), the sums taken over the items
    of the weights, and a gradient mapping with exactly the six parameter
    keys, in which the gradient of each weight is that sum of arrays, which
    for a gradient of the shape of its weight has this shape and the items
    dW + reg W, item by item, and the gradient of each bias is the one the
    backward pass delivered.  For a network that the constructor has built
    these are the keys of its parameter mapping. *)
Theorem loss_with_labels (self : ThreeLayerConvNet.t) (X : tensor)
    (y : list Z) (r : loss_result) :
  (∀ C H W num_filters filter_size hidden_dim num_classes weight_scale rg
     dtype g g' b g1 g2 g3,
     __init__ (C, H, W) num_filters filter_size hidden_dim num_classes
       weight_scale rg dtype g = Ok (self, g') →
     dom (gradient_mapping b g1 g2 g3) = dom (params self)) ∧
  (loss self X (Some y) = Ok r ↔
  ∃ f b g1 g2 g3,
    forward_returns self X f ∧ backward_returns f y b ∧
    tensor_add (dW1 b) (scale (reg self) (W1 f)) = Ok g1 ∧
    tensor_add (dW2 b) (scale (reg self) (W2 f)) = Ok g2 ∧
    tensor_add (dW3 b) (scale (reg self) (W3 f)) = Ok g3 ∧
    r = LossAndGrads
          (data_loss b + 0.5 * reg self *
             (sum_of_squares (W1 f) + sum_of_squares (W2 f)
              + sum_of_squares (W3 f)))
          (gradient_mapping b g1 g2 g3) ∧
    dom (gradient_mapping b g1 g2 g3) = parameter_keys ∧
    gradient_mapping b g1 g2 g3 !! "W1" = Some g1 ∧
    gradient_mapping b g1 g2 g3 !! "W2" = Some g2 ∧
    gradient_mapping b g1 g2 g3 !! "W3" = Some g3 ∧
    (shape_of (dW1 b) = shape_of (W1 f) →
     well_formed (dW1 b) → well_formed (W1 f) →
     shape_of g1 = shape_of (W1 f) ∧
     data_of g1 = zip_with Rplus (data_of (dW1 b))
                    (map (Rmult (reg self)) (data_of (W1 f)))) ∧
    (shape_of (dW2 b) = shape_of (W2 f) →
     well_formed (dW2 b) → well_formed (W2 f) →
     shape_of g2 = shape_of (W2 f) ∧
     data_of g2 = zip_with Rplus (data_of (dW2 b))
                    (map (Rmult (reg self)) (data_of (W2 f)))) ∧
    (shape_of (dW3 b) = shape_of (W3 f) →
     well_formed (dW3 b) → well_formed (W3 f) →
     shape_of g3 = shape_of (W3 f) ∧
     data_of g3 = zip_with Rplus (data_of (dW3 b))
                    (map (Rmult (reg self)) (data_of (W3 f)))) ∧
    gradient_mapping b g1 g2 g3 !! "b1" = Some (db1 b) ∧
    gradient_mapping b g1 g2 g3 !! "b2" = Some (db2 b) ∧
    gradient_mapping b g1 g2 g3 !! "b3" = Some (db3 b)).
Proof.
  split; [|split].
  - intros C H W num_filters filter_size hidden_dim num_classes weight_scale
      rg dt g g' b g1 g2 g3 Hinit.
    rewrite (init_keys _ _ _ _ _ _ _ _ _ _ _ _ _ Hinit).
    exact (proj1 (gradient_mapping_entries b g1 g2 g3)).
  - intros Hrun. destruct (loss_returns_forward _ _ _ _ Hrun) as (f & Hf).
    rewrite (loss_forward self X (Some y) f Hf) in Hrun.
    apply bind_ok in Hrun as ([l d] & Hloss & H).
    apply bind_ok in H as ([[d3 w3] bb3] & Hb3 & H).
    apply bind_ok in H as (d2r & Hrelu & H).
    apply bind_ok in H as ([[d2 w2] bb2] & Hb2 & H).
    apply bind_ok in H as ([[d1 w1] bb1] & Hb1 & H).
    unfold getkey in H.
    rewrite !lookup_insert_ne, lookup_insert_eq in H by discriminate. cbn in H.
    apply bind_ok in H as (g3 & Hg3 & H).
    rewrite !lookup_insert_ne, lookup_insert_eq in H by discriminate. cbn in H.
    apply bind_ok in H as (g2 & Hg2 & H).
    rewrite !lookup_insert_ne, lookup_insert_eq in H by discriminate. cbn in H.
    apply bind_ok in H as (g1 & Hg1 & H).
    injection H as <-.
    exists f, (Build_backward_run l d d3 w3 bb3 d2r d2 w2 bb2 d1 w1 bb1), g1, g2, g3.
    cbn [data_loss dout dout3 dW3 db3 dout2_relu dout2 dW2 db2 dout1 dW1 db1].
    split; [exact Hf|]. split; [repeat split; assumption|].
    split; [exact Hg1|]. split; [exact Hg2|]. split; [exact Hg3|].
    split.
    { unfold gradient_mapping; cbn. rewrite !sum_squares_spec.
      f_equal. ring. }
    destruct (gradient_mapping_entries
      (Build_backward_run l d d3 w3 bb3 d2r d2 w2 bb2 d1 w1 bb1) g1 g2 g3)
      as (Hdom & E1 & E2 & E3 & E4 & E5 & E6).
    split; [exact Hdom|]. split; [exact E1|]. split; [exact E2|].
    split; [exact E3|].
    split; [exact (regularised_gradient _ _ _ _ Hg1)|].
    split; [exact (regularised_gradient _ _ _ _ Hg2)|].
    split; [exact (regularised_gradient _ _ _ _ Hg3)|].
    repeat split; assumption.
  - intros (f & b & g1 & g2 & g3 & Hf & (Hloss & Hb3 & Hrelu & Hb2 & Hb1)
            & Hg1 & Hg2 & Hg3 & -> & _).
    rewrite (loss_forward self X (Some y) f Hf).
    rewrite Hloss. cbn. rewrite Hb3. cbn. rewrite Hrelu. cbn.
    rewrite Hb2. cbn. rewrite Hb1. cbn.
    unfold getkey. rewrite !lookup_insert_ne, lookup_insert_eq by discriminate. cbn.
    rewrite Hg3. cbn.
    rewrite !lookup_insert_ne, lookup_insert_eq by discriminate. cbn.
    rewrite Hg2. cbn.
    rewrite !lookup_insert_ne, lookup_insert_eq by discriminate. cbn.
    rewrite Hg1. cbn. unfold gradient_mapping. rewrite !sum_squares_spec.
    f_equal. f_equal. ring.
Qed.
End LossProperties.

Section LossExamples.
Import ThreeLayerConvNet.
Local Open Scope Z_scope.

Lemma example_forward_returns :
  @forward_returns example_layers example_net example_batch example_forward.
Proof. repeat split. Qed.

Lemma example_backward_returns :
  @backward_returns example_layers example_forward [0; 2] example_backward.
Proof. repeat split. Qed.

Lemma example_layers_contract : @forward_contract example_layers.
Proof.
  split.
  - intros x w b cp pp out cache. cbn. unfold example_conv_relu_pool_forward.
    destruct (shape_of x) as [|N [|C [|H [|W [|]]]]]; try discriminate.
    destruct (shape_of w) as [|F [|C' [|HH [|WW [|]]]]]; try discriminate.
    destruct (decide _); [|discriminate]. intros [= <- _]. reflexivity.
  - intros x w b out cache N D M. cbn. unfold example_affine_forward.
    destruct (shape_of x) as [|N' rest]; [discriminate|].
    destruct (shape_of w) as [|D' [|M' [|]]]; try discriminate.
    destruct (decide _); [|discriminate].
    intros [= <- _] [= ->] [= _ ->]. reflexivity.
  - intros x out cache. cbn. intros [= <- _]. reflexivity.
Qed.

Lemma loss_without_labels_witness :
  @forward_returns example_layers example_net example_batch example_forward ∧
  @loss example_layers example_net example_batch None
  = Ok (Scores (zeros_of float64 [2; 3])) ∧
  shape_of (@scores example_layers example_forward) = [2; 3].
Proof.
  split; [exact example_forward_returns|].
  destruct (@loss_without_labels example_layers example_net example_batch
              (Scores (zeros_of float64 [2; 3]))) as ((_ & Hrun) & Hshape & _).
  split.
  - apply Hrun. exists example_forward.
    split; [exact example_forward_returns|reflexivity].
  - apply (Hshape example_forward 2 8 5 5 3);
      [exact example_forward_returns|exact example_layers_contract
      |reflexivity..].
Defined.

Lemma small_forward_returns :
  @forward_returns training_layers small_net small_batch small_forward.
Proof. repeat split. Qed.

Lemma small_backward_returns :
  @backward_returns training_layers small_forward [1] small_backward.
Proof. repeat split. Qed.

Lemma full_of_add (d : np_dtype) (shape : list Z) (x c w z : R) :
  Forall (λ d, 0 <= d) shape → (x + c * w = z)%R →
  tensor_add (full_of d shape x) (scale c (full_of d shape w))
  = Ok (full_of d shape z).
Proof.
  intros Hpos Hz. rewrite tensor_add_same_shape;
    [|reflexivity|apply full_of_well_formed; exact Hpos
     |apply scale_well_formed, full_of_well_formed; exact Hpos].
  f_equal. unfold full_of, scale. cbn [dtype_of shape_of data_of].
  f_equal; [destruct d; reflexivity|].
  generalize (size_of shape). intros n.
  induction n as [|n IH]; cbn; [reflexivity|]. rewrite IH, Hz. reflexivity.
Qed.

Lemma loss_with_labels_witness :
  @forward_returns training_layers small_net small_batch small_forward ∧
  @backward_returns training_layers small_forward [1] small_backward ∧
  @loss training_layers small_net small_batch (Some [1]) =
    Ok (LossAndGrads 27
          (gradient_mapping small_backward
             (full_of float32 [1; 1; 1; 1] 5) (full_of float32 [1; 2] 7)
             (full_of float32 [2; 2] 3))).
Proof.
  split; [exact small_forward_returns|].
  split; [exact small_backward_returns|].
  apply (proj2 (proj2 (@loss_with_labels training_layers small_net small_batch
                         [1] _))).
  exists small_forward, small_backward,
    (full_of float32 [1; 1; 1; 1] 5), (full_of float32 [1; 2] 7),
    (full_of float32 [2; 2] 3).
  split; [exact small_forward_returns|].
  split; [exact small_backward_returns|].
  split.
  { apply full_of_add; [|cbn; lra].
    repeat (apply List.Forall_cons; [lia|]). apply List.Forall_nil. }
  split.
  { apply full_of_add; [|cbn; lra].
    repeat (apply List.Forall_cons; [lia|]). apply List.Forall_nil. }
  split.
  { apply full_of_add; [|cbn; lra].
    repeat (apply List.Forall_cons; [lia|]). apply List.Forall_nil. }
  split.
  { f_equal. cbn [W1 W2 W3 small_forward data_loss small_backward reg small_net].
    rewrite !sum_of_squares_full.
    change (size_of [1; 1; 1; 1]) with 1%nat.
    change (size_of [1; 2]) with 2%nat.
    change (size_of [2; 2]) with 4%nat.
    cbn [INR]. lra. }
  destruct (gradient_mapping_entries small_backward
    (full_of float32 [1; 1; 1; 1] 5) (full_of float32 [1; 2] 7)
    (full_of float32 [2; 2] 3)) as (Hdom & E1 & E2 & E3 & E4 & E5 & E6).
  split; [exact Hdom|]. split; [exact E1|]. split; [exact E2|].
  split; [exact E3|].
  assert (Hitems : ∀ shape x c w z, (x + c * w = z)%R →
    shape_of (full_of float32 shape z) = shape ∧
    data_of (full_of float32 shape z) =
    zip_with Rplus (data_of (full_of float32 shape x))
      (map (Rmult c) (data_of (full_of float32 shape w)))).
  { intros shape x c w z Hz. split; [reflexivity|].
    unfold full_of. cbn [data_of]. generalize (size_of shape). intros n.
    induction n as [|n IH]; cbn; [reflexivity|]. rewrite <- IH, Hz.
    reflexivity. }
  split; [intros _ _ _; apply Hitems; cbn; lra|].
  split; [intros _ _ _; apply Hitems; cbn; lra|].
  split; [intros _ _ _; apply Hitems; cbn; lra|].
  repeat split; assumption.
Defined.
End LossExamples.

(** ** The lookups of [loss] *)

Section LossOutcomes.
Context `{L : Layers}.
Import ThreeLayerConvNet.

(** X18: a parameter mapping that lacks one of the six keys makes [loss] raise
    KeyError, with or without labels, before any layer is called. *)
Theorem loss_missing_parameter (self : ThreeLayerConvNet.t) (X : tensor)
    (y : option (list Z)) (k : string) :
  k ∈ parameter_keys → params self !! k = None →
  loss self X y = Raise KeyError.
Proof.
  intros Hk Hnone. unfold loss, getkey.
  destruct (params self !! "W1") eqn:E1; [cbn|reflexivity].
  destruct (params self !! "b1") eqn:E2; [cbn|reflexivity].
  destruct (params self !! "W2") eqn:E3; [cbn|reflexivity].
  destruct (params self !! "b2") eqn:E4; [cbn|reflexivity].
  destruct (params self !! "W3") eqn:E5; [cbn|reflexivity].
  destruct (params self !! "b3") eqn:E6; [cbn|reflexivity].
  exfalso. unfold parameter_keys in Hk. set_unfold in Hk.
  destruct Hk as [[[[[Hk|Hk]|Hk]|Hk]|Hk]|Hk]; subst k; congruence.
Qed.

(** X19: with the six parameters in place, a first weight of fewer than three
    dimensions makes [loss] raise IndexError at line 82, before any layer is
    called. *)
Theorem loss_flat_filter (self : ThreeLayerConvNet.t) (X : tensor)
    (y : option (list Z)) (w1 : tensor) :
  dom (params self) = parameter_keys →
  params self !! "W1" = Some w1 → (length (shape_of w1) < 3)%nat →
  loss self X y = Raise IndexError.
Proof.
  intros Hdom HW1 Hrank.
  assert (Hkey : ∀ k, k ∈ parameter_keys → ∃ v, getkey (params self) k = Ok v).
  { intros k Hk. rewrite <- Hdom in Hk. apply elem_of_dom in Hk as (v & Hv).
    exists v. apply getkey_ok. exact Hv. }
  unfold loss. rewrite (getkey_ok _ _ _ HW1). cbn.
  destruct (Hkey "b1") as (b1 & ->); [unfold parameter_keys; set_solver|]. cbn.
  destruct (Hkey "W2") as (w2 & ->); [unfold parameter_keys; set_solver|]. cbn.
  destruct (Hkey "b2") as (b2 & ->); [unfold parameter_keys; set_solver|]. cbn.
  destruct (Hkey "W3") as (w3 & ->); [unfold parameter_keys; set_solver|]. cbn.
  destruct (Hkey "b3") as (b3 & ->); [unfold parameter_keys; set_solver|]. cbn.
  unfold shape_index.
  rewrite (proj2 (lookup_ge_None (shape_of w1) 2)) by lia. reflexivity.
Qed.

(** X20: the training call runs the forward pass of the inference call: when
    [loss(X)] fails, [loss(X, y)] fails in the same way, and when [loss(X, y)]
    returns, [loss(X)] returns scores and [loss(X, y)] a loss with gradients,
    never scores. *)
Theorem training_runs_the_forward_pass (self : ThreeLayerConvNet.t) (X : tensor)
    (y : list Z) :
  (∀ e, loss self X None = Raise e → loss self X (Some y) = Raise e) ∧
  (loss self X None = NonFinite → loss self X (Some y) = NonFinite) ∧
  (∀ r, loss self X (Some y) = Ok r →
     ∃ s l g, loss self X None = Ok (Scores s) ∧ r = LossAndGrads l g ∧
              dom g = parameter_keys).
Proof.
  assert (Hcases :
    (∃ f, forward_returns self X f) ∨
    (∃ e, loss self X None = Raise e ∧ loss self X (Some y) = Raise e) ∨
    (loss self X None = NonFinite ∧ loss self X (Some y) = NonFinite)).
  { unfold loss.
    destruct (getkey (params self) "W1") as [w1|e|] eqn:E1; cbn; [|eauto..].
    destruct (getkey (params self) "b1") as [b1|e|] eqn:E2; cbn; [|eauto..].
    destruct (getkey (params self) "W2") as [w2|e|] eqn:E3; cbn; [|eauto..].
    destruct (getkey (params self) "b2") as [b2|e|] eqn:E4; cbn; [|eauto..].
    destruct (getkey (params self) "W3") as [w3|e|] eqn:E5; cbn; [|eauto..].
    destruct (getkey (params self) "b3") as [b3|e|] eqn:E6; cbn; [|eauto..].
    destruct (shape_index w1 2) as [fs|e|] eqn:E7; cbn; [|eauto..].
    destruct (conv_relu_pool_forward X w1 b1 (conv_param_of fs) pool_param_2x2)
      as [[o1 c1]|e|] eqn:E8; cbn; [|eauto..].
    destruct (affine_forward o1 w2 b2) as [[o2 c2]|e|] eqn:E9; cbn; [|eauto..].
    destruct (relu_forward o2) as [[o3 c3]|e|] eqn:E10; cbn; [|eauto..].
    destruct (affine_forward o3 w3 b3) as [[sc c4]|e|] eqn:E11; cbn; [|eauto..].
    left. exists (Build_forward_run L w1 b1 w2 b2 w3 b3 fs o1 c1 o2 c2 o3 c3 sc c4).
    unfold forward_returns. cbn.
    apply getkey_inv in E1, E2, E3, E4, E5, E6. apply shape_index_inv in E7.
    repeat split; assumption. }
  destruct Hcases as [(f & Hf)|[(e & Hnone & Hsome)|(Hnone & Hsome)]].
  - rewrite (loss_forward self X None f Hf).
    split; [discriminate|]. split; [discriminate|].
    intros r Hrun. rewrite (loss_forward self X (Some y) f Hf) in Hrun.
    apply bind_ok in Hrun as ([l d] & _ & H).
    apply bind_ok in H as ([[d3 w3] bb3] & _ & H).
    apply bind_ok in H as (d2r & _ & H).
    apply bind_ok in H as ([[d2 w2] bb2] & _ & H).
    apply bind_ok in H as ([[d1 w1] bb1] & _ & H).
    apply bind_ok in H as (g3' & _ & H). apply bind_ok in H as (g3 & _ & H).
    apply bind_ok in H as (g2' & _ & H). apply bind_ok in H as (g2 & _ & H).
    apply bind_ok in H as (g1' & _ & H). apply bind_ok in H as (g1 & _ & H).
    injection H as <-. eexists _, _, _.
    split; [reflexivity|]. split; [reflexivity|].
    rewrite !dom_insert_L, dom_empty_L. unfold parameter_keys. set_solver.
  - rewrite Hnone, Hsome. split; [auto|]. split; discriminate.
  - rewrite Hnone, Hsome. split; [discriminate|]. split; [auto|discriminate].
Qed.
End LossOutcomes.


(** ** The constructor and [loss] together *)

Section ConstructedNetwork.
Context `{L : Layers}.
Local Open Scope Z_scope.
Import ThreeLayerConvNet.

(** The parameters of the convolution layer in a network that the
    constructor has built. *)
Lemma constructed_first_layer
    (C H W num_filters fsize hidden_dim num_classes : Z)
    (weight_scale rg : R) (dt : np_dtype) (g : rng_state)
    (net : ThreeLayerConvNet.t) (g' : rng_state) :
  __init__ (C, H, W) num_filters fsize hidden_dim num_classes
    weight_scale rg dt g = Ok (net, g') →
  ∃ w b,
    params net !! "W1" = Some w ∧ params net !! "b1" = Some b ∧
    shape_of w = [num_filters; C; fsize; fsize].
Proof.
  intros Hinit.
  destruct (init_returns_values _ _ _ _ _ _ _ _ _ _ _ _ _ Hinit)
    as (rows & _ & E1 & _ & _ & E4 & _).
  eexists _, _. split; [exact E1|]. split; [exact E4|reflexivity].
Qed.

(** The first layer call of [loss]: with the six parameters in place, an
    exception of the convolution layer on X, W1 and b1, with the padding
    of line 83 for the filter size read from W1.shape[2], is the exception
    of [loss]. *)
Lemma loss_conv_raises (self : ThreeLayerConvNet.t) (X : tensor)
    (y : option (list Z)) (w b : tensor) (fsize : Z) (e : exn) :
  dom (params self) = parameter_keys →
  params self !! "W1" = Some w → params self !! "b1" = Some b →
  shape_of w !! 2%nat = Some fsize →
  conv_relu_pool_forward X w b (conv_param_of fsize) pool_param_2x2 = Raise e →
  loss self X y = Raise e.
Proof.
  intros Hdom HW1 Hb1 Hfs Hconv.
  assert (Hkey : ∀ k, k ∈ parameter_keys → ∃ v, getkey (params self) k = Ok v).
  { intros k Hk. rewrite <- Hdom in Hk. apply elem_of_dom in Hk as (v & Hv).
    exists v. apply getkey_ok. exact Hv. }
  unfold loss. rewrite (getkey_ok _ _ _ HW1), (getkey_ok _ _ _ Hb1).
  cbn [mbind outcome_bind].
  destruct (Hkey "W2") as (w2 & ->); [unfold parameter_keys; set_solver|].
  destruct (Hkey "b2") as (b2 & ->); [unfold parameter_keys; set_solver|].
  destruct (Hkey "W3") as (w3 & ->); [unfold parameter_keys; set_solver|].
  destruct (Hkey "b3") as (b3 & ->); [unfold parameter_keys; set_solver|].
  cbn [mbind outcome_bind]. unfold shape_index. rewrite Hfs.
  cbn [mbind outcome_bind]. rewrite Hconv. reflexivity.
Qed.

(** X21: on a network that the constructor has built, [loss] finds the six
    parameters and reads back from W1.shape[2] the filter size that the
    constructor was given: the first call that can fail is the one of the
    convolution layer, on X, W1 of shape (F, C, filter_size, filter_size) and
    b1, with stride 1, padding (filter_size - 1) // 2 and the 2 x 2 pool of
    stride 2. *)
Theorem constructed_network_filter_size
    (C H W num_filters fsize hidden_dim num_classes : Z)
    (weight_scale rg : R) (dt : np_dtype) (g : rng_state)
    (net : ThreeLayerConvNet.t) (g' : rng_state)
    (X : tensor) (y : option (list Z)) :
  __init__ (C, H, W) num_filters fsize hidden_dim num_classes
    weight_scale rg dt g = Ok (net, g') →
  ∃ w b,
    params net !! "W1" = Some w ∧ params net !! "b1" = Some b ∧
    shape_of w = [num_filters; C; fsize; fsize] ∧
    (∀ e, conv_relu_pool_forward X w b
            {| stride := 1; pad := (fsize - 1) / 2 |}
            {| pool_height := 2; pool_width := 2; pool_stride := 2 |} = Raise e →
          loss net X y = Raise e) ∧
    (∀ f, forward_returns net X f →
          W1 f = w ∧ b1 f = b ∧ filter_size f = fsize).
Proof.
  intros Hinit.
  destruct (constructed_first_layer _ _ _ _ _ _ _ _ _ _ _ _ _ Hinit)
    as (w & b & E1 & E4 & Hshape).
  exists w, b. split; [exact E1|]. split; [exact E4|]. split; [exact Hshape|].
  assert (Hfs : shape_of w !! 2%nat = Some fsize) by (rewrite Hshape; reflexivity).
  split.
  - intros e Hconv.
    apply (loss_conv_raises net X y w b fsize e);
      [exact (init_keys _ _ _ _ _ _ _ _ _ _ _ _ _ Hinit)|assumption..].
  - intros f (F1 & F2 & _ & _ & _ & _ & F7 & _).
    rewrite E1 in F1. rewrite E4 in F2.
    injection F1 as F1. injection F2 as F2.
    split; [symmetry; exact F1|]. split; [symmetry; exact F2|].
    rewrite <- F1 in F7. congruence.
Qed.
End ConstructedNetwork.

(** ** The shapes through the convolution, the pool and the hidden layer
       (C5, C6) *)

Section Shapes.
Local Open Scope Z_scope.
Import ThreeLayerConvNet.

(** With the padding of line 83 a filter of odd size keeps the size. *)
Lemma conv_out_size_odd (fsize n : Z) :
  Z.odd fsize = true → conv_out_size n fsize (conv_param_of fsize) = n.
Proof.
  intros Hodd. unfold conv_out_size, conv_param_of. cbn [stride pad].
  rewrite Z.div_1_r.
  destruct (Zodd_ex fsize) as (k & Hk);
    [apply Zodd_bool_iff; exact Hodd|].
  subst fsize. replace (2 * k + 1 - 1) with (k * 2) by lia.
  rewrite Z.div_mul by lia. lia.
Qed.

(** With the padding of line 83 a filter of even size loses one row and one
    column. *)
Lemma conv_out_size_even (fsize n : Z) :
  Z.even fsize = true → conv_out_size n fsize (conv_param_of fsize) = n - 1.
Proof.
  intros Heven. unfold conv_out_size, conv_param_of. cbn [stride pad].
  rewrite Z.div_1_r.
  destruct (Zeven_ex fsize) as (k & Hk);
    [apply Zeven_bool_iff; exact Heven|].
  subst fsize. replace (2 * k - 1) with (1 + (k - 1) * 2) by lia.
  rewrite Z.div_add by lia. change (1 / 2) with 0. lia.
Qed.

(** The 2 x 2 pool of stride 2 halves a size, rounding down. *)
Lemma pool_out_size_half (n : Z) : pool_out_size n 2 2 = n / 2.
Proof.
  unfold pool_out_size. replace (n - 2) with (n + (-1) * 2) by lia.
  rewrite Z.div_add by lia. lia.
Qed.

(** The affine layer of [example_layers] checks the rows of its weight. *)
Lemma example_affine_forward_cases (x w b : tensor) (N D M : Z) (rest : list Z) :
  shape_of x = N :: rest → shape_of w = [D; M] → shape_of b = [M] →
  example_affine_forward x w b =
  if decide (fold_right Z.mul 1 rest = D)
  then Ok (zeros_of (dtype_of x) [N; M], (x, w, b))
  else Raise ValueError.
Proof.
  intros Hx Hw Hb. unfold example_affine_forward. rewrite Hx, Hw, Hb.
  destruct (decide (fold_right Z.mul 1 rest = D)) as [Hfit|Hmisfit].
  - destruct (decide _) as [_|Hbad]; [reflexivity|].
    exfalso. apply Hbad. split; [exact Hfit|reflexivity].
  - destruct (decide _) as [[Hfit _]|_]; [contradiction|reflexivity].
Qed.

(** The forward pass of [loss] through [example_layers], the layers with the
    conventional shapes, on a network that the constructor has built: the
    hidden affine layer is reached with num_filters p q items per image,
    for p x q the pooled output of the convolution, and rejects them unless
    W2 has that many rows. *)
Lemma constructed_forward
    (C H W num_filters fsize hidden_dim num_classes : Z)
    (weight_scale rg : R) (dt : np_dtype) (g : rng_state)
    (net : ThreeLayerConvNet.t) (g' : rng_state) (N : Z) :
  __init__ (C, H, W) num_filters fsize hidden_dim num_classes
    weight_scale rg dt g = Ok (net, g') →
  ∃ rows w2,
    hidden_input_width H W num_filters = Ok rows ∧
    params net !! "W2" = Some w2 ∧ shape_of w2 = [rows; hidden_dim] ∧
    @loss example_layers net (zeros_of float64 [N; C; H; W]) None =
    if decide (num_filters *
                 (pool_out_size (conv_out_size H fsize (conv_param_of fsize)) 2 2 *
                  pool_out_size (conv_out_size W fsize (conv_param_of fsize)) 2 2)
               = rows)
    then Ok (Scores (zeros_of float64 [N; num_classes]))
    else Raise ValueError.
Proof.
  intros Hinit.
  destruct (init_returns_values _ _ _ _ _ _ _ _ _ _ _ _ _ Hinit)
    as (rows & Hrows & E1 & E2 & E3 & E4 & E5 & E6 & _).
  eexists rows, _. split; [exact Hrows|]. split; [exact E2|].
  split; [reflexivity|].
  unfold loss.
  rewrite (getkey_ok _ _ _ E1), (getkey_ok _ _ _ E4). cbn [mbind outcome_bind].
  rewrite (getkey_ok _ _ _ E2), (getkey_ok _ _ _ E5). cbn [mbind outcome_bind].
  rewrite (getkey_ok _ _ _ E3), (getkey_ok _ _ _ E6). cbn [mbind outcome_bind].
  unfold shape_index. cbn [shape_of lookup list_lookup mbind outcome_bind].
  cbn [conv_relu_pool_forward affine_forward relu_forward example_layers].
  unfold example_conv_relu_pool_forward.
  cbn [shape_of zeros_of dtype_of pool_param_2x2 pool_height pool_width
       pool_stride].
  destruct (decide (C = C ∧ [num_filters] = [num_filters])) as [_|Hbad];
    [|exfalso; apply Hbad; split; reflexivity].
  cbn [mbind outcome_bind].
  erewrite example_affine_forward_cases; [|reflexivity..].
  cbn [fold_right]. rewrite !Z.mul_1_r.
  destruct (decide (num_filters *
      (pool_out_size (conv_out_size H fsize (conv_param_of fsize)) 2 2 *
       pool_out_size (conv_out_size W fsize (conv_param_of fsize)) 2 2)
      = rows)) as [Hfit|Hmisfit]; [|reflexivity].
  cbn [mbind outcome_bind zeros_of dtype_of shape_of].
  erewrite example_affine_forward_cases; [|reflexivity..].
  cbn [fold_right]. rewrite !Z.mul_1_r.
  destruct (decide (hidden_dim = hidden_dim)) as [_|Hbad];
    [reflexivity|contradiction].
Qed.

(** C5, on the failing input filter_size = 4 with the other arguments of
    the constructor at their defaults: [loss] passes stride 1 and padding
    (4 - 1) // 2 = 1 to the convolution layer, with a 4 x 4 filter; by the
    conventional formula that turns the 32 x 32 image into a 31 x 31 one,
    which the pool halves to 15 x 15, so that the hidden layer is reached
    with 32 * 15 * 15 = 7200 items per image against the 8192 rows of W2,
    and [loss] raises ValueError on every batch of 32 x 32 images. *)
Theorem even_filter_loses_a_row :
  ∃ net g' w1 c1 w2,
    __init__ (3, 32, 32) 32 4 100 10 (1 / 1000) 0 float32 example_rng
    = Ok (net, g') ∧
    params net !! "W1" = Some w1 ∧ params net !! "b1" = Some c1 ∧
    params net !! "W2" = Some w2 ∧
    shape_of w1 = [32; 3; 4; 4] ∧ shape_of w2 = [8192; 100] ∧
    (∀ (L : Layers) X f,
       @forward_returns L net X f →
       @conv_relu_pool_forward L X w1 c1 {| stride := 1; pad := 1 |}
         {| pool_height := 2; pool_width := 2; pool_stride := 2 |}
       = Ok (@out1 L f, @cache1 L f)) ∧
    (∀ (L : Layers) X y e,
       @conv_relu_pool_forward L X w1 c1 {| stride := 1; pad := 1 |}
         {| pool_height := 2; pool_width := 2; pool_stride := 2 |} = Raise e →
       @loss L net X y = Raise e) ∧
    conv_out_size 32 4 {| stride := 1; pad := 1 |} = 31 ∧
    32 * (pool_out_size 31 2 2 * pool_out_size 31 2 2) = 7200 ∧
    ∀ N, @loss example_layers net (zeros_of float64 [N; 3; 32; 32]) None
         = Raise ValueError.
Proof.
  destruct (init_ok 3 32 32 32 4 100 10 (1 / 1000) 0 float32 example_rng)
    as (net & g' & Hinit); [lia..|].
  destruct (init_weight_shapes _ _ _ _ _ _ _ _ _ _ _ _ _ Hinit)
    as (rows & w2 & w3 & Hrows & E2 & S2 & _).
  assert (rows = 8192) as ->.
  { rewrite hidden_input_width_small in Hrows by lia.
    injection Hrows as <-. reflexivity. }
  destruct (constructed_first_layer _ _ _ _ _ _ _ _ _ _ _ _ _ Hinit)
    as (w1 & c1 & E1 & E4 & S1).
  assert (Hfs : shape_of w1 !! 2%nat = Some 4) by (rewrite S1; reflexivity).
  exists net, g', w1, c1, w2.
  split; [exact Hinit|]. split; [exact E1|]. split; [exact E4|].
  split; [exact E2|]. split; [exact S1|]. split; [exact S2|].
  split; [|split; [|split; [reflexivity|split; [reflexivity|]]]].
  - intros L X f (F1 & F2 & _ & _ & _ & _ & F7 & Hconv & _).
    rewrite E1 in F1. rewrite E4 in F2.
    injection F1 as F1. injection F2 as F2.
    rewrite <- F1, Hfs in F7. injection F7 as F7.
    rewrite <- F1, <- F2, <- F7 in Hconv. exact Hconv.
  - intros L X y e Hconv.
    apply (@loss_conv_raises L net X y w1 c1 4 e);
      [exact (init_keys _ _ _ _ _ _ _ _ _ _ _ _ _ Hinit)|assumption..].
  - intros N.
    destruct (constructed_forward _ _ _ _ _ _ _ _ _ _ _ _ _ N Hinit)
      as (rows & w2' & Hrows' & _ & _ & ->).
    rewrite hidden_input_width_small in Hrows' by lia.
    injection Hrows' as <-.
    rewrite conv_out_size_even by reflexivity.
    destruct (decide _) as [Hfit|_]; [|reflexivity].
    exfalso. vm_compute in Hfit. discriminate.
Qed.

(** C6, on the failing input input_dim = (3, 5, 5) with the other arguments
    of the constructor at their defaults: W2 is built with
    int(5 * 5 / 4) * 32 = 192 rows, while the convolution (filter 7,
    padding 3) keeps the 5 x 5 image and the pool halves it to 2 x 2, so
    that the hidden layer is reached with 32 * 2 * 2 = 128 items per image,
    and [loss] raises ValueError on every batch of 5 x 5 images. *)
Theorem odd_image_misfits_hidden_weight :
  ∃ net g' w2,
    __init__ (3, 5, 5) 32 7 100 10 (1 / 1000) 0 float32 example_rng
    = Ok (net, g') ∧
    params net !! "W2" = Some w2 ∧ shape_of w2 = [192; 100] ∧
    conv_out_size 5 7 (conv_param_of 7) = 5 ∧
    pool_out_size 5 2 2 = 2 ∧
    pooled_size 5 5 32 = 128 ∧
    ∀ N, @loss example_layers net (zeros_of float64 [N; 3; 5; 5]) None
         = Raise ValueError.
Proof.
  destruct (init_ok 3 5 5 32 7 100 10 (1 / 1000) 0 float32 example_rng)
    as (net & g' & Hinit); [lia..|].
  destruct (init_weight_shapes _ _ _ _ _ _ _ _ _ _ _ _ _ Hinit)
    as (rows & w2 & w3 & Hrows & E2 & S2 & _).
  assert (rows = 192) as ->.
  { rewrite hidden_input_width_small in Hrows by lia.
    injection Hrows as <-. reflexivity. }
  exists net, g', w2.
  split; [exact Hinit|]. split; [exact E2|]. split; [exact S2|].
  split; [reflexivity|]. split; [reflexivity|]. split; [reflexivity|].
  intros N.
  destruct (constructed_forward _ _ _ _ _ _ _ _ _ _ _ _ _ N Hinit)
    as (rows & w2' & Hrows' & _ & _ & ->).
  rewrite hidden_input_width_small in Hrows' by lia.
  injection Hrows' as <-.
  rewrite conv_out_size_odd by reflexivity.
  destruct (decide _) as [Hfit|_]; [|reflexivity].
  exfalso. vm_compute in Hfit. discriminate.
Qed.

(** X23: for an image of even height and width (with H W below 2^53) and a
    filter of odd size, the rows that the constructor gives W2 are
    num_filters (H/2) (W/2), the items per image of the pooled output of
    the convolution by the conventional formulas, and [loss] on a batch of
    such images passes through layers of the conventional shapes to scores
    of the shape (N, num_classes). *)
Theorem hidden_weight_fits_even_images
    (C H W num_filters fsize hidden_dim num_classes : Z)
    (weight_scale rg : R) (dt : np_dtype) (g : rng_state)
    (net : ThreeLayerConvNet.t) (g' : rng_state) (N : Z) :
  __init__ (C, H, W) num_filters fsize hidden_dim num_classes
    weight_scale rg dt g = Ok (net, g') →
  Z.even H = true → Z.even W = true → 0 <= H → 0 <= W → H * W < 2 ^ 53 →
  Z.odd fsize = true →
  hidden_input_width H W num_filters = Ok (pooled_size H W num_filters) ∧
  pooled_size H W num_filters =
    num_filters *
    (pool_out_size (conv_out_size H fsize (conv_param_of fsize)) 2 2 *
     pool_out_size (conv_out_size W fsize (conv_param_of fsize)) 2 2) ∧
  @loss example_layers net (zeros_of float64 [N; C; H; W]) None
  = Ok (Scores (zeros_of float64 [N; num_classes])).
Proof.
  intros Hinit HH HW HH0 HW0 Hsmall Hodd.
  assert (Hquot : Z.quot (H * W) 4 = H / 2 * (W / 2)).
  { destruct (Zeven_ex H) as (h & ->); [apply Zeven_bool_iff; exact HH|].
    destruct (Zeven_ex W) as (w & ->); [apply Zeven_bool_iff; exact HW|].
    rewrite !(Z.mul_comm 2), !Z.div_mul by lia.
    replace (h * 2 * (w * 2)) with (h * w * 4) by lia.
    rewrite Z.quot_mul by lia. reflexivity. }
  assert (Hrows : hidden_input_width H W num_filters
                  = Ok (pooled_size H W num_filters)).
  { rewrite hidden_input_width_small by nia. unfold pooled_size.
    rewrite Hquot. f_equal. lia. }
  assert (Hpool : pooled_size H W num_filters =
    num_filters *
    (pool_out_size (conv_out_size H fsize (conv_param_of fsize)) 2 2 *
     pool_out_size (conv_out_size W fsize (conv_param_of fsize)) 2 2)).
  { rewrite !conv_out_size_odd by exact Hodd. rewrite !pool_out_size_half.
    unfold pooled_size. lia. }
  split; [exact Hrows|]. split; [exact Hpool|].
  destruct (constructed_forward _ _ _ _ _ _ _ _ _ _ _ _ _ N Hinit)
    as (rows & w2' & Hrows' & _ & _ & ->).
  rewrite Hrows in Hrows'. injection Hrows' as <-.
  destruct (decide _) as [_|Hbad]; [reflexivity|].
  exfalso. apply Hbad. symmetry. exact Hpool.
Qed.

Lemma hidden_weight_fits_even_images_witness :
  ∃ net g',
    __init__ (3, 32, 32) 32 7 100 10 (1 / 1000) 0 float32 example_rng
    = Ok (net, g') ∧
    hidden_input_width 32 32 32 = Ok (pooled_size 32 32 32) ∧
    pooled_size 32 32 32 = 8192 ∧
    @loss example_layers net (zeros_of float64 [50; 3; 32; 32]) None
    = Ok (Scores (zeros_of float64 [50; 10])).
Proof.
  destruct (init_ok 3 32 32 32 7 100 10 (1 / 1000) 0 float32 example_rng)
    as (net & g' & Hinit); [lia..|].
  destruct (hidden_weight_fits_even_images 3 32 32 32 7 100 10 (1 / 1000) 0
              float32 example_rng net g' 50 Hinit)
    as (Hrows & _ & Hloss); [reflexivity|reflexivity|lia|lia|lia|reflexivity|].
  exists net, g'. split; [exact Hinit|]. split; [exact Hrows|].
  split; [reflexivity|exact Hloss].
Defined.
End Shapes.


Section ConstructorExamples.
Local Open Scope Z_scope.
Import ThreeLayerConvNet.

Lemma init_returns_exactly_witness :
  (∃ net g', __init__ (3, 4, 4) 2 3 5 3 1 0 float32 example_rng = Ok (net, g')) ∧
  __init__ (3, 2 ^ 1030, 1) 2 3 5 3 1 0 float32 example_rng
  = Raise OverflowError ∧
  __init__ (3, 4, 4) (-2) 3 5 3 1 0 float32 example_rng = Raise ValueError.
Proof.
  split; [|split].
  - apply (proj1 (init_returns_exactly 3 4 4 2 3 5 3 1 0 float32 example_rng)).
    vm_compute. repeat split; discriminate.
  - apply (proj1 (proj2 (init_returns_exactly 3 (2 ^ 1030) 1 2 3 5 3 1 0
                           float32 example_rng))).
    vm_compute. repeat split; discriminate.
  - apply (proj2 (proj2 (init_returns_exactly 3 4 4 (-2) 3 5 3 1 0 float32
                           example_rng))).
    left. intros (HF & _). lia.
Defined.

Lemma init_shapes_and_biases_witness :
  ∃ net g' W2 b2,
    __init__ (3, 4, 4) 2 3 5 3 1 0 float32 example_rng = Ok (net, g') ∧
    params net !! "W2" = Some W2 ∧ params net !! "b2" = Some b2 ∧
    shape_of W2 = [8; 5] ∧ shape_of b2 = [5] ∧
    Forall (λ x, x = 0%R) (data_of b2).
Proof.
  destruct (init_ok 3 4 4 2 3 5 3 1 0 float32 example_rng)
    as (net & g' & Hinit); [lia..|].
  destruct (init_shapes_and_biases 3 4 4 2 3 5 3 1 0 float32 example_rng net g'
              Hinit)
    as (rows & w1 & c1 & w2 & c2 & w3 & c3 & (_ & _ & Hrows)
        & (_ & _ & E2 & E4 & _) & (_ & S2 & _ & _ & S4 & _) & _ & Hzero).
  exists net, g', w2, c2. split; [exact Hinit|].
  split; [exact E2|]. split; [exact E4|].
  split; [rewrite S2, Hrows by lia; reflexivity|]. split; [exact S4|].
  inversion Hzero as [|? ? _ Hzero']; subst.
  inversion Hzero' as [|? ? Hb2 _]; subst. exact Hb2.
Defined.

Lemma init_weights_from_generator_witness :
  ∃ net g' W1,
    __init__ (3, 4, 4) 2 3 5 3 2 0 float32 example_rng = Ok (net, g') ∧
    params net !! "W1" = Some W1 ∧
    (∀ i, (i < length (data_of W1))%nat →
       data_of W1 !! i = Some (2 * INR (0 + i))%R) ∧
    samples g' = INR.
Proof.
  destruct (init_ok 3 4 4 2 3 5 3 2 0 float32 example_rng)
    as (net & g' & Hinit); [lia..|].
  destruct (init_weights_from_generator 3 4 4 2 3 5 3 2 0 float32 example_rng
              net g' Hinit)
    as (w1 & w2 & w3 & E1 & _ & _ & H1 & _ & _ & Hs & _).
  exists net, g', w1. split; [exact Hinit|]. split; [exact E1|].
  split; [exact H1|exact Hs].
Defined.

Lemma loss_missing_parameter_witness :
  "W2" ∈ parameter_keys ∧
  params (Net ∅ 0 float32) !! "W2" = None ∧
  @loss example_layers (Net ∅ 0 float32) example_batch (Some [0; 2])
  = Raise KeyError.
Proof.
  assert (Hk : "W2" ∈ parameter_keys) by (unfold parameter_keys; set_solver).
  split; [exact Hk|]. split; [reflexivity|].
  exact (@loss_missing_parameter example_layers (Net ∅ 0 float32) example_batch
           (Some [0; 2]) "W2" Hk eq_refl).
Defined.

Lemma loss_flat_filter_witness :
  dom (params flat_filter_net) = parameter_keys ∧
  params flat_filter_net !! "W1" = Some (zeros_of float32 [2; 3]) ∧
  (length (shape_of (zeros_of float32 [2; 3]%Z)) < 3)%nat ∧
  @loss example_layers flat_filter_net example_batch None = Raise IndexError.
Proof.
  assert (Hdom : dom (params flat_filter_net) = parameter_keys).
  { unfold flat_filter_net, example_net. cbn [params].
    rewrite !dom_insert_L, dom_empty_L. unfold parameter_keys. set_solver. }
  assert (Hrank : (length (shape_of (zeros_of float32 [2; 3]%Z)) < 3)%nat)
    by (cbn; lia).
  split; [exact Hdom|]. split; [reflexivity|]. split; [exact Hrank|].
  exact (@loss_flat_filter example_layers flat_filter_net example_batch None
           (zeros_of float32 [2; 3]) Hdom eq_refl Hrank).
Defined.

Lemma training_runs_the_forward_pass_witness :
  @loss example_layers (Net ∅ 0 float32) example_batch None = Raise KeyError ∧
  @loss example_layers (Net ∅ 0 float32) example_batch (Some [0; 2])
  = Raise KeyError.
Proof.
  split; [reflexivity|].
  apply (proj1 (@training_runs_the_forward_pass example_layers
                  (Net ∅ 0 float32) example_batch [0; 2])).
  reflexivity.
Defined.

Lemma constructed_network_filter_size_witness :
  ∃ net g' w b,
    __init__ (3, 4, 4) 2 3 5 3 1 0 float32 example_rng = Ok (net, g') ∧
    params net !! "W1" = Some w ∧ params net !! "b1" = Some b ∧
    shape_of w = [2; 3; 3; 3] ∧
    ∀ f, @forward_returns example_layers net example_batch f →
         @filter_size example_layers f = 3.
Proof.
  destruct (init_ok 3 4 4 2 3 5 3 1 0 float32 example_rng)
    as (net & g' & Hinit); [lia..|].
  destruct (@constructed_network_filter_size example_layers 3 4 4 2 3 5 3 1 0
              float32 example_rng net g' example_batch None Hinit)
    as (w & b & E1 & E2 & Hshape & _ & Hf).
  exists net, g', w, b. split; [exact Hinit|]. split; [exact E1|].
  split; [exact E2|]. split; [exact Hshape|].
  intros f Hrun. exact (proj2 (proj2 (Hf f Hrun))).
Defined.
End ConstructorExamples.
